(** * SuperGrok orchestration engine: account manager, sub-agent, super-agent

    A shallow embedding of [src/orchestration/account-manager.ts],
    [src/orchestration/sub-agent.ts] and [src/orchestration/super-agent.ts].

    Conventions.
    - JavaScript numbers that hold counts, token totals and millisecond
      timestamps are integers ([Z]); money amounts are exact rationals ([Q]).
    - Synchronous code is state passing over a [World]; a thrown exception
      is the [Throw] completion and leaves the mutated state in place.
    - An [async] function is cut at its [await]s into segments, each of which
      runs to completion without interleaving (one event-loop turn).  The
      environment decides in which order suspended computations resume and
      what the backend answers; it is an explicit list of events. *)

From Stdlib Require Import ZArith QArith String Ascii List Lia.
From stdpp Require Import base tactics option list gmap strings pretty.

Local Open Scope Z_scope.
Local Open Scope string_scope.

(** ** JavaScript values and completions *)

#[warnings="-register-all"]
Inductive JsValue : Type :=
| JUndefined
| JNull
| JBool (b : bool)
| JNum (q : Q)
| JStr (s : string)
| JArr (items : list JsValue)
| JObj (members : list (string * JsValue)).

(** What a [throw] carries: an [Error] instance (with its [name] and
    [message]) or any other value. *)
Inductive JsThrown : Type :=
| JsError (name message : string)
| JsNonError (v : JsValue).

Inductive Completion (A : Type) : Type :=
| Normal (a : A)
| Throw (e : JsThrown).
Arguments Normal {A} a.
Arguments Throw {A} e.

Definition TypeError (message : string) : JsThrown := JsError "TypeError" message.
Definition SyntaxError (message : string) : JsThrown := JsError "SyntaxError" message.

(** [error instanceof Error ? error.message : 'Unknown error'] *)
Definition errorMsg (error : JsThrown) : string :=
  match error with
  | JsError _ message => message
  | JsNonError _ => "Unknown error"
  end.

(** ToBoolean *)
Definition truthy (v : JsValue) : bool :=
  match v with
  | JUndefined | JNull => false
  | JBool b => b
  | JNum q => negb (Qeq_bool q 0)
  | JStr s => negb (String.eqb s "")
  | JArr _ | JObj _ => true
  end.

(** [a || b] on values *)
Definition js_or (a b : JsValue) : JsValue := if truthy a then a else b.

(** [s || d] where [s] is a string or missing *)
Definition str_or (s : option string) (d : string) : string :=
  match s with
  | Some t => if String.eqb t "" then d else t
  | None => d
  end.

(** [v === s] for a string literal [s] *)
Definition js_is_str (v : JsValue) (s : string) : bool :=
  match v with
  | JStr t => String.eqb t s
  | _ => false
  end.

(** Own-property lookup in a parsed object: the last member with the key. *)
Fixpoint member (key : string) (members : list (string * JsValue)) : JsValue :=
  match members with
  | [] => JUndefined
  | (k, v) :: rest =>
      match member key rest with
      | JUndefined => if String.eqb k key then v else JUndefined
      | later => later
      end
  end.

(** [st.key]: a [TypeError] on [null] and [undefined], [undefined] on the
    other primitives and on arrays (the keys read here are never array or
    wrapper properties). *)
Definition js_get (st : JsValue) (key : string) : Completion JsValue :=
  match st with
  | JUndefined | JNull =>
      Throw (TypeError ("Cannot read properties of null (reading '" ++ key ++ "')"))
  | JObj members => Normal (member key members)
  | _ => Normal JUndefined
  end.

(** ** Accounts *)

Inductive AccountId : Type := account1 | account2.

#[global] Instance AccountId_eq_dec : EqDecision AccountId.
Proof. solve_decision. Defined.

Record AccountConfig : Type := {
  apiKey : string;
  baseURL : option string;
  name : string;
  maxConcurrent : Z;
  rateLimit : Z
}.

Record AccountStats : Type := {
  totalRequests : Z;
  totalTokens : Z;
  totalCost : Q;
  activeRequests : Z;
  lastUsed : Z
}.

Record Account : Type := {
  config : AccountConfig;
  stats : AccountStats;
  requestTimestamps : list Z
}.

Inductive Strategy : Type :=
| round_robin
| least_loaded
| cost_optimized
| other_strategy (s : string).

Record AccountManager : Type := {
  acct1 : Account;
  acct2 : Account;
  strategy : Strategy;
  currentAccountIndex : Z
}.

Definition accounts_get (accountId : AccountId) (m : AccountManager) : Account :=
  match accountId with account1 => acct1 m | account2 => acct2 m end.

Definition accounts_set (accountId : AccountId) (a : Account) (m : AccountManager)
  : AccountManager :=
  match accountId with
  | account1 => {| acct1 := a; acct2 := acct2 m; strategy := strategy m;
                   currentAccountIndex := currentAccountIndex m |}
  | account2 => {| acct1 := acct1 m; acct2 := a; strategy := strategy m;
                   currentAccountIndex := currentAccountIndex m |}
  end.

Definition fresh_stats : AccountStats :=
  {| totalRequests := 0; totalTokens := 0; totalCost := 0%Q;
     activeRequests := 0; lastUsed := 0 |}.

(** [new AccountManager(account1, account2, strategy)] *)
Definition new_AccountManager (c1 c2 : AccountConfig) (s : Strategy) : AccountManager :=
  {| acct1 := {| config := c1; stats := fresh_stats; requestTimestamps := [] |};
     acct2 := {| config := c2; stats := fresh_stats; requestTimestamps := [] |};
     strategy := s;
     currentAccountIndex := 0 |}.

(** What [getAllStats] returns. *)
Module Combined.
Record t : Type := {
  totalRequests : Z;
  totalTokens : Z;
  totalCost : Q;
  activeRequests : Z
}.
End Combined.

Module AllStats.
Record t : Type := {
  account1 : AccountStats;
  account2 : AccountStats;
  combined : Combined.t
}.
End AllStats.

(** ** Tasks and results *)

Module Task.
Record t : Type := {
  id : string;
  description : string;
  context : option string;
  complexity : string;
  priority : Z
}.
End Task.

Module SubAgentTask.
Record t : Type := {
  id : string;
  description : JsValue;
  priority : JsValue;
  parentTaskId : string;
  complexity : JsValue;
  context : JsValue
}.
End SubAgentTask.

Module SubAgentResult.
Record t : Type := {
  taskId : string;
  success : bool;
  result : string;
  tokensUsed : Z;
  cost : Q;
  account : AccountId;
  duration : Z;
  error : option string
}.
End SubAgentResult.

Module TaskResult.
Record t : Type := {
  taskId : string;
  success : bool;
  result : string;
  subResults : list SubAgentResult.t;
  tokensUsed : Z;
  cost : Q;
  duration : Z
}.
End TaskResult.

Inductive ExecutionStrategy : Type := parallel | sequential | adaptive.

Module SuperAgentConfig.
Record t : Type := {
  maxSubAgents : Z;
  strategy : ExecutionStrategy;
  saveHistory : bool
}.
End SuperAgentConfig.

(** The fields of a [SubAgent] object. *)
Module SubAgent.
Record t : Type := {
  id : string;
  task : SubAgentTask.t;
  superAgentId : string
}.
End SubAgent.

(** The fields of a [SuperAgent] object ([activeSubAgents] lives in the
    world, the account manager and the database are the world's). *)
Module SuperAgent.
Record t : Type := {
  id : string;
  config : SuperAgentConfig.t
}.
End SuperAgent.

(** ** The world the engine runs in *)

(** Rows handed to the persistence collaborator. *)
Inductive DbCall : Type :=
| saveAgent (id type : string) (parent_id : option string) (account : AccountId)
    (status : string) (task : JsValue) (created_at : Z)
| saveConversation (id super_agent_id : string) (sub_agent_id : option string)
    (account : AccountId) (role content : string) (timestamp : Z)
    (usage : option (Z * Q))
| saveDocument (id conversation_id type title content format : string)
    (created_at : Z) (tags : string)
| updateAgentStatus (id status result : string).

(** Observations used to state ordering properties: a sub-agent was
    spawned for a sub-task, a spawned sub-agent settled. *)
Inductive Obs : Type :=
| Spawned (task : SubAgentTask.t)
| Settled (task : SubAgentTask.t).

Record World : Type := {
  manager : AccountManager;
  ticks : nat;                          (* clock readings taken so far *)
  minted : nat;                         (* uuids generated so far *)
  database : list DbCall;               (* rows accepted, latest first *)
  activeSubAgents : gmap string string; (* task id -> sub-agent id *)
  observed : list Obs                   (* latest first *)
}.

(** Built-ins of the JavaScript runtime and of the [uuid] package.  The
    clock and the uuid generator are sequences indexed by the number of
    earlier calls. *)
Class Runtime : Type := {
  JSON_parse : string -> Completion JsValue;
  ToString : JsValue -> string;
  uuid_nth : nat -> string;
  clock : nat -> Z
}.

(** Modelled from the spec: the persistence collaborator
    ([src/storage/database.ts] is not part of the sources).  Each call is a
    notification that is recorded; [db_fault] says whether the call raises
    instead, given the rows recorded so far. *)
Class Persistence : Type := {
  db_fault : list DbCall -> DbCall -> option JsThrown
}.

(** What [await client.chat(...)] settles to.  The response keeps the parts
    the engine reads: [choices] ([None] when the field is missing, each
    entry being [choices[i]?.message?.content]) and [usage?.total_tokens]. *)
Record ChatResponse : Type := {
  choices : option (list (option string));
  total_tokens : option Z
}.

Inductive ChatOutcome : Type :=
| Rejected (e : JsThrown)
| Resolved (r : ChatResponse).

(** ** State and exception monad *)

Definition M (A : Type) : Type := World -> Completion A * World.

Definition ret {A} (a : A) : M A := fun w => (Normal a, w).

Definition throw {A} (e : JsThrown) : M A := fun w => (Throw e, w).

Definition bind {A B} (c : M A) (k : A -> M B) : M B :=
  fun w => match c w with
           | (Normal a, w') => k a w'
           | (Throw e, w') => (Throw e, w')
           end.

(** [try { c } catch (e) { h e }] *)
Definition try_catch {A} (c : M A) (h : JsThrown -> M A) : M A :=
  fun w => match c w with
           | (Normal a, w') => (Normal a, w')
           | (Throw e, w') => h e w'
           end.

Definition lift {A} (c : Completion A) : M A := fun w => (c, w).

Notation "'let*' x ':=' c 'in' k" := (bind c (fun x => k))
  (at level 10, x name, c at level 100, k at level 200).

Definition get_manager : M AccountManager := fun w => (Normal (manager w), w).

Definition set_manager (m : AccountManager) : World -> World := fun w =>
  {| manager := m; ticks := ticks w; minted := minted w; database := database w;
     activeSubAgents := activeSubAgents w; observed := observed w |}.

Definition put_manager (m : AccountManager) : M unit :=
  fun w => (Normal tt, set_manager m w).

Definition get_account (accountId : AccountId) : M Account :=
  let* m := get_manager in ret (accounts_get accountId m).

Definition put_account (accountId : AccountId) (a : Account) : M unit :=
  let* m := get_manager in put_manager (accounts_set accountId a m).

Definition observe (o : Obs) : M unit := fun w =>
  (Normal tt,
   {| manager := manager w; ticks := ticks w; minted := minted w;
      database := database w; activeSubAgents := activeSubAgents w;
      observed := o :: observed w |}).

Definition update_active (f : gmap string string -> gmap string string) : M unit :=
  fun w =>
  (Normal tt,
   {| manager := manager w; ticks := ticks w; minted := minted w;
      database := database w; activeSubAgents := f (activeSubAgents w);
      observed := observed w |}).

Section Engine.
Context {RT : Runtime} {DB : Persistence}.

(** [Date.now()] *)
Definition Date_now : M Z := fun w =>
  (Normal (clock (ticks w)),
   {| manager := manager w; ticks := S (ticks w); minted := minted w;
      database := database w; activeSubAgents := activeSubAgents w;
      observed := observed w |}).

(** [uuidv4()] *)
Definition uuidv4 : M string := fun w =>
  (Normal (uuid_nth (minted w)),
   {| manager := manager w; ticks := ticks w; minted := S (minted w);
      database := database w; activeSubAgents := activeSubAgents w;
      observed := observed w |}).

(** A call on [this.database]. *)
Definition db_call (c : DbCall) : M unit := fun w =>
  match db_fault (database w) c with
  | Some e => (Throw e, w)
  | None =>
      (Normal tt,
       {| manager := manager w; ticks := ticks w; minted := minted w;
          database := c :: database w; activeSubAgents := activeSubAgents w;
          observed := observed w |})
  end.

(** ** AccountManager *)

Definition selectRoundRobin : M AccountId :=
  let* m := get_manager in
  let selected := if Z.eqb (currentAccountIndex m mod 2) 0 then account1 else account2 in
  let* _ := put_manager {| acct1 := acct1 m; acct2 := acct2 m; strategy := strategy m;
                 currentAccountIndex := currentAccountIndex m + 1 |} in
  ret selected.

(** The timestamps that survive the pruning done at time [now]. *)
Definition recent (now : Z) (timestamps : list Z) : list Z :=
  filter (fun ts => now - 60000 < ts) timestamps.

Definition isRateLimited (accountId : AccountId) : M bool :=
  let* account := get_account accountId in
  let* now := Date_now in
  let kept := recent now (requestTimestamps account) in
  let* _ := put_account accountId
    {| config := config account; stats := stats account;
       requestTimestamps := kept |} in
  ret (bool_decide (rateLimit (config account) <= Z.of_nat (length kept))).

(** [a && !b], with the short circuit *)
Definition and_not (a b : M bool) : M bool :=
  let* x := a in if x then (let* y := b in ret (negb y)) else ret false.

Definition selectLeastLoaded : M AccountId :=
  let* c1 := and_not (isRateLimited account1) (isRateLimited account2) in
  if c1 then ret account2 else
  let* c2 := and_not (isRateLimited account2) (isRateLimited account1) in
  if c2 then ret account1 else
  let* m := get_manager in
  ret (if bool_decide (activeRequests (stats (acct1 m)) <= activeRequests (stats (acct2 m)))
       then account1 else account2).

Definition selectCostOptimized : M AccountId :=
  let* c1 := and_not (isRateLimited account1) (isRateLimited account2) in
  if c1 then ret account2 else
  let* c2 := and_not (isRateLimited account2) (isRateLimited account1) in
  if c2 then ret account1 else
  let* m := get_manager in
  ret (if Qle_bool (totalCost (stats (acct1 m))) (totalCost (stats (acct2 m)))
       then account1 else account2).

Definition selectAccount : M AccountId :=
  let* m := get_manager in
  match strategy m with
  | round_robin => selectRoundRobin
  | least_loaded => selectLeastLoaded
  | cost_optimized => selectCostOptimized
  | other_strategy _ => ret account1
  end.

(** [getClient(accountId?)]; the client handle is the account id. *)
Definition getClient (accountId : option AccountId) : M AccountId :=
  let* selectedAccount := match accountId with
                     | Some a => ret a
                     | None => selectAccount
                     end in
  let* account := get_account selectedAccount in
  let* pushed := Date_now in
  let* used := Date_now in
  let* _ := put_account selectedAccount
    {| config := config account;
       stats := {| totalRequests := totalRequests (stats account) + 1;
                   totalTokens := totalTokens (stats account);
                   totalCost := totalCost (stats account);
                   activeRequests := activeRequests (stats account) + 1;
                   lastUsed := used |};
       requestTimestamps := requestTimestamps account ++ [pushed] |} in
  ret selectedAccount.

Definition completeRequest (accountId : AccountId) (tokensUsed : Z) (cost : Q) : M unit :=
  let* account := get_account accountId in
  put_account accountId
    {| config := config account;
       stats := {| totalRequests := totalRequests (stats account);
                   totalTokens := totalTokens (stats account) + tokensUsed;
                   totalCost := (totalCost (stats account) + cost)%Q;
                   activeRequests := Z.max 0 (activeRequests (stats account) - 1);
                   lastUsed := lastUsed (stats account) |};
       requestTimestamps := requestTimestamps account |}.

Definition setStrategy (s : Strategy) : M unit :=
  let* m := get_manager in
  put_manager {| acct1 := acct1 m; acct2 := acct2 m; strategy := s;
                 currentAccountIndex := currentAccountIndex m |}.

Record Health : Type := {
  available : bool;
  inFlight : Z;             (* [activeRequests] *)
  rateLimitRemaining : Z
}.

Definition health (a : Account) (isLimited : bool) : Health :=
  {| available :=
       negb isLimited
       && bool_decide (activeRequests (stats a) < maxConcurrent (config a));
     inFlight := activeRequests (stats a);
     rateLimitRemaining :=
       rateLimit (config a) - Z.of_nat (length (requestTimestamps a)) |}.

Definition getHealthStatus : M (Health * Health) :=
  let* account1Limited := isRateLimited account1 in
  let* account2Limited := isRateLimited account2 in
  let* m := get_manager in
  ret (health (acct1 m) account1Limited, health (acct2 m) account2Limited).

(** [getAccountStats(accountId)]: a copy of the account's statistics. *)
Definition getAccountStats (accountId : AccountId) : M AccountStats :=
  let* account := get_account accountId in ret (stats account).

(** [getAllStats()] *)
Definition getAllStats : M AllStats.t :=
  let* account1Stats := getAccountStats account1 in
  let* account2Stats := getAccountStats account2 in
  ret {| AllStats.account1 := account1Stats;
         AllStats.account2 := account2Stats;
         AllStats.combined :=
           {| Combined.totalRequests :=
                totalRequests account1Stats + totalRequests account2Stats;
              Combined.totalTokens :=
                totalTokens account1Stats + totalTokens account2Stats;
              Combined.totalCost :=
                (totalCost account1Stats + totalCost account2Stats)%Q;
              Combined.activeRequests :=
                activeRequests account1Stats + activeRequests account2Stats |} |}.

(** [getStrategy()] *)
Definition getStrategy : M Strategy :=
  let* m := get_manager in ret (strategy m).

(** The loop test of [waitForAvailability]. *)
Definition bothRateLimited : M bool :=
  let* x := isRateLimited account1 in if x then isRateLimited account2 else ret false.

(** ** Reading a chat response *)

(** [response.choices[0]?.message?.content]: a [TypeError] when [choices]
    is missing. *)
Definition first_content (response : ChatResponse) : Completion (option string) :=
  match choices response with
  | None => Throw (TypeError "Cannot read properties of undefined (reading '0')")
  | Some [] => Normal None
  | Some (c :: _) => Normal c
  end.

(** [response.usage?.total_tokens || 0] *)
Definition usage_tokens (response : ChatResponse) : Z :=
  match total_tokens response with
  | Some n => n
  | None => 0
  end.

(** [await client.chat(...)], once the backend has settled. *)
Definition awaited (o : ChatOutcome) : M ChatResponse :=
  match o with
  | Rejected e => throw e
  | Resolved r => ret r
  end.

Definition nl : string := String (ascii_of_nat 10) EmptyString.

(** ** SubAgent *)

Definition selectModel (complexity : JsValue) : string :=
  if js_is_str complexity "simple" then "grok-code-fast-1"
  else if js_is_str complexity "medium" then "grok-3-fast"
  else if js_is_str complexity "complex" then "grok-4"
  else "grok-3-fast".

Definition buildPrompt (task : SubAgentTask.t) : string :=
  let prompt := "TASK: " ++ ToString (SubAgentTask.description task) ++ nl ++ nl in
  let prompt :=
    if truthy (SubAgentTask.context task)
    then prompt ++ "CONTEXT:" ++ nl ++ ToString (SubAgentTask.context task) ++ nl ++ nl
    else prompt in
  prompt ++ "Please complete this task thoroughly and provide a detailed response.".

(** [SubAgent.estimateCost]: [(tokens / 1000) * rate] *)
Definition sub_estimateCost (tokens : Z) (model : string) : Q :=
  let rate :=
    if String.eqb model "grok-code-fast-1" then 5 # 1000
    else if String.eqb model "grok-3-fast" then 8 # 1000
    else if String.eqb model "grok-4" then 15 # 1000
    else 1 # 100 in
  ((inject_Z tokens / 1000) * rate)%Q.

(** Where a sub-agent is suspended. *)
Inductive Worker : Type :=
| Sleeping (agent : SubAgent.t) (startTime : Z)
    (* in [waitForAvailability], the one-second timer is pending *)
| Ready (agent : SubAgent.t) (startTime : Z)
    (* [waitForAvailability] has resolved *)
| Calling (agent : SubAgent.t) (startTime : Z) (accountId : AccountId) (model : string)
    (* [client.chat] is pending *)
| Done (r : SubAgentResult.t).

(** The [catch] block of [execute]. *)
Definition execute_catch (agent : SubAgent.t) (startTime : Z) (accountId : AccountId)
  (error : JsThrown) : M SubAgentResult.t :=
  let msg := errorMsg error in
  let* _ := db_call (updateAgentStatus (SubAgent.id agent) "failed" msg) in
  let* _ := completeRequest accountId 0 0%Q in
  let* finished := Date_now in
  ret {| SubAgentResult.taskId := SubAgentTask.id (SubAgent.task agent);
         SubAgentResult.success := false;
         SubAgentResult.result := "";
         SubAgentResult.tokensUsed := 0;
         SubAgentResult.cost := 0%Q;
         SubAgentResult.account := accountId;
         SubAgentResult.duration := finished - startTime;
         SubAgentResult.error := Some msg |}.

(** One pass over the loop of [waitForAvailability]. *)
Definition execute_poll (agent : SubAgent.t) (startTime : Z) : M Worker :=
  let* limited := bothRateLimited in
  ret (if limited then Sleeping agent startTime else Ready agent startTime).

(** [execute], up to its first suspension. *)
Definition execute_begin (agent : SubAgent.t) : M Worker :=
  let* startTime := Date_now in
  execute_poll agent startTime.

(** [execute], from the end of the wait to the backend call. *)
Definition execute_acquire (agent : SubAgent.t) (startTime : Z) : M Worker :=
  let task := SubAgent.task agent in
  let* accountId := getClient None in
  let* created := Date_now in
  let* _ := db_call (saveAgent (SubAgent.id agent) "sub" (Some (SubAgent.superAgentId agent))
                       accountId "active" (SubAgentTask.description task) created) in
  try_catch
    (let model := selectModel (SubAgentTask.complexity task) in
     let prompt := buildPrompt task in
     let* cid := uuidv4 in
     let* stamp := Date_now in
     let* _ := db_call (saveConversation cid (SubAgent.superAgentId agent)
                          (Some (SubAgent.id agent)) accountId "user" prompt stamp None) in
     ret (Calling agent startTime accountId model))
    (fun error =>
       let* r := execute_catch agent startTime accountId error in ret (Done r)).

(** [execute], from the settling of the backend call to the end. *)
Definition execute_reply (agent : SubAgent.t) (startTime : Z) (accountId : AccountId)
  (model : string) (o : ChatOutcome) : M SubAgentResult.t :=
  try_catch
    (let* response := awaited o in
     let* content := lift (first_content response) in
     let result := str_or content "No response" in
     let tokensUsed := usage_tokens response in
     let cost := sub_estimateCost tokensUsed model in
     let* _ := completeRequest accountId tokensUsed cost in
     let* cid := uuidv4 in
     let* stamp := Date_now in
     let* _ := db_call (saveConversation cid (SubAgent.superAgentId agent)
                          (Some (SubAgent.id agent)) accountId "assistant" result stamp
                          (Some (tokensUsed, cost))) in
     let* _ := db_call (updateAgentStatus (SubAgent.id agent) "completed" result) in
     let* finished := Date_now in
     ret {| SubAgentResult.taskId := SubAgentTask.id (SubAgent.task agent);
            SubAgentResult.success := true;
            SubAgentResult.result := result;
            SubAgentResult.tokensUsed := tokensUsed;
            SubAgentResult.cost := cost;
            SubAgentResult.account := accountId;
            SubAgentResult.duration := finished - startTime;
            SubAgentResult.error := None |})
    (execute_catch agent startTime accountId).

(** What the environment does to a suspended sub-agent: the timer fires,
    the resolved wait is resumed, the backend call settles. *)
Inductive WorkerEvent : Type :=
| Wake
| Resume
| Reply (o : ChatOutcome).

(** [execute] resumed by an event; an event that does not match the
    suspension is ignored. *)
Definition execute_step (ev : WorkerEvent) (wk : Worker) : M Worker :=
  match wk, ev with
  | Sleeping agent startTime, Wake => execute_poll agent startTime
  | Ready agent startTime, Resume => execute_acquire agent startTime
  | Calling agent startTime accountId model, Reply o =>
      let* r := execute_reply agent startTime accountId model o in ret (Done r)
  | _, _ => ret wk
  end.

(** ** SuperAgent *)

(** [new SuperAgent(accountManager, database, config)] *)
Definition new_SuperAgent (config : SuperAgentConfig.t) : M SuperAgent.t :=
  let* id := uuidv4 in
  let* created := Date_now in
  let* _ := db_call (saveAgent id "super" None account1 "active"
                       (JStr "Orchestrate multi-agent tasks") created) in
  ret {| SuperAgent.id := id; SuperAgent.config := config |}.

(** [SuperAgent.estimateCost]: [(tokens / 1000) * 0.01] *)
Definition estimateCost (tokens : Z) : Q := ((inject_Z tokens / 1000) * (1 # 100))%Q.

(** [spawnSubAgent], up to the first suspension of [execute]. *)
Definition spawnSubAgent (self : SuperAgent.t) (task : SubAgentTask.t) : M Worker :=
  let* _ := observe (Spawned task) in
  let* id := uuidv4 in
  let subAgent := {| SubAgent.id := id; SubAgent.task := task;
                     SubAgent.superAgentId := SuperAgent.id self |} in
  let* _ := update_active (insert (SubAgentTask.id task) id) in
  execute_begin subAgent.

(** The sub-task of a sub-agent that has not settled. *)
Definition worker_task (wk : Worker) : option SubAgentTask.t :=
  match wk with
  | Sleeping agent _ | Ready agent _ | Calling agent _ _ _ => Some (SubAgent.task agent)
  | Done _ => None
  end.

(** The part of [spawnSubAgent] around [await subAgent.execute()]: when
    [execute] settles, with a result or an exception, the sub-agent leaves
    [activeSubAgents]; an exception is thrown again. *)
Definition spawned_step (ev : WorkerEvent) (wk : Worker) : M Worker :=
  match worker_task wk with
  | None => ret wk
  | Some task =>
      let leave :=
        let* _ := update_active (delete (SubAgentTask.id task)) in
        observe (Settled task) in
      try_catch
        (let* wk' := execute_step ev wk in
         match wk' with
         | Done _ => let* _ := leave in ret wk'
         | _ => ret wk'
         end)
        (fun error => let* _ := leave in throw error)
  end.

(** [getActiveSubAgentsCount()] *)
Definition getActiveSubAgentsCount : M nat :=
  fun w => (Normal (size (activeSubAgents w)), w).

(** *** decomposeTask *)

(** The callback of [subTasksData.map], over the items in order. *)
Fixpoint map_subTasks (task : Task.t) (index : nat) (items : list JsValue)
  : M (list SubAgentTask.t) :=
  match items with
  | [] => ret []
  | st :: rest =>
      let* id := uuidv4 in
      let* description := lift (js_get st "description") in
      let* priority := lift (js_get st "priority") in
      let* estimatedComplexity := lift (js_get st "estimatedComplexity") in
      let subTask :=
        {| SubAgentTask.id := id;
           SubAgentTask.description := description;
           SubAgentTask.priority := js_or priority (JNum (inject_Z (Z.of_nat index + 1)));
           SubAgentTask.parentTaskId := Task.id task;
           SubAgentTask.complexity := js_or estimatedComplexity (JStr "medium");
           SubAgentTask.context := JUndefined |} in
      let* subTasks := map_subTasks task (S index) rest in
      ret (subTask :: subTasks)
  end.

(** [subTasksData.map(...)]: only an array has [map]. *)
Definition subTasksData_map (task : Task.t) (subTasksData : JsValue)
  : M (list SubAgentTask.t) :=
  match subTasksData with
  | JArr items => map_subTasks task 0 items
  | JUndefined | JNull =>
      throw (TypeError "Cannot read properties of null (reading 'map')")
  | _ => throw (TypeError "subTasksData.map is not a function")
  end.

(** The single sub-task of the [catch] block of [decomposeTask]. *)
Definition fallback_subTask (task : Task.t) (id : string) : SubAgentTask.t :=
  {| SubAgentTask.id := id;
     SubAgentTask.description := JStr (Task.description task);
     SubAgentTask.priority := JNum 1;
     SubAgentTask.parentTaskId := Task.id task;
     SubAgentTask.complexity := JStr (Task.complexity task);
     SubAgentTask.context := JUndefined |}.

(** [decomposeTask], up to the backend call. *)
Definition decomposeTask_begin : M AccountId := getClient None.

(** [decomposeTask], from the settling of the backend call to the end. *)
Definition decomposeTask_reply (task : Task.t) (accountId : AccountId) (o : ChatOutcome)
  : M (list SubAgentTask.t) :=
  try_catch
    (let* response := awaited o in
     let tokensUsed := usage_tokens response in
     let cost := estimateCost tokensUsed in
     let* _ := completeRequest accountId tokensUsed cost in
     let* found := lift (first_content response) in
     let content := str_or found "[]" in
     let* subTasksData := lift (JSON_parse content) in
     subTasksData_map task subTasksData)
    (fun _ =>
       let* id := uuidv4 in
       ret [fallback_subTask task id]).

(** *** aggregateResults *)

Definition bool_text (b : bool) : string := if b then "true" else "false".

(** One entry of [subResultsText]; [i] counts from zero. *)
Definition subResult_text (i : nat) (r : SubAgentResult.t) : string :=
  nl ++ "### Sub-Task " ++ pretty (i + 1)%nat ++ nl
  ++ "**Task:** " ++ SubAgentResult.taskId r ++ nl
  ++ "**Success:** " ++ bool_text (SubAgentResult.success r) ++ nl
  ++ "**Result:**" ++ nl
  ++ SubAgentResult.result r ++ nl
  ++ "    ".

(** [Array.prototype.join] on strings *)
Fixpoint join (sep : string) (parts : list string) : string :=
  match parts with
  | [] => ""
  | [p] => p
  | p :: rest => p ++ sep ++ join sep rest
  end.

Definition subResultsText (subResults : list SubAgentResult.t) : string :=
  join (nl ++ nl) (imap subResult_text subResults).

(** [aggregateResults], up to the backend call. *)
Definition aggregateResults_begin : M AccountId := getClient None.

(** [aggregateResults], from the settling of the backend call to the end. *)
Definition aggregateResults_reply (subResults : list SubAgentResult.t)
  (accountId : AccountId) (o : ChatOutcome) : M string :=
  try_catch
    (let* response := awaited o in
     let tokensUsed := usage_tokens response in
     let cost := estimateCost tokensUsed in
     let* _ := completeRequest accountId tokensUsed cost in
     let* found := lift (first_content response) in
     ret (str_or found "Failed to aggregate results"))
    (fun _ => ret (subResultsText subResults)).

(** *** Execution strategies *)

(** Where a strategy is suspended. *)
Inductive Running : Type :=
| InParallel (promises : list Worker)
| InSequential (results : list SubAgentResult.t) (current : Worker)
    (rest : list SubAgentTask.t)
| InAdaptiveSimple (promises : list Worker) (complexTasks : list SubAgentTask.t)
| InAdaptiveComplex (simpleResults complexResults : list SubAgentResult.t)
    (current : Worker) (rest : list SubAgentTask.t).

Inductive Execution : Type :=
| Pending (r : Running)
| Fulfilled (results : list SubAgentResult.t).

(** [subTasks.map((t) => this.spawnSubAgent(t))] *)
Fixpoint spawn_each (self : SuperAgent.t) (subTasks : list SubAgentTask.t)
  : M (list Worker) :=
  match subTasks with
  | [] => ret []
  | t :: rest =>
      let* wk := spawnSubAgent self t in
      let* wks := spawn_each self rest in
      ret (wk :: wks)
  end.

(** The value of [Promise.all(promises)] once every promise is fulfilled:
    the results in the order of [promises]. *)
Fixpoint Promise_all (promises : list Worker) : option (list SubAgentResult.t) :=
  match promises with
  | [] => Some []
  | Done r :: rest =>
      match Promise_all rest with
      | Some rs => Some (r :: rs)
      | None => None
      end
  | _ :: _ => None
  end.

Definition await_all (promises : list Worker) (suspended : Running) : Execution :=
  match Promise_all promises with
  | Some results => Fulfilled results
  | None => Pending suspended
  end.

Definition executeParallel (self : SuperAgent.t) (subTasks : list SubAgentTask.t)
  : M Execution :=
  let* promises := spawn_each self subTasks in
  ret (await_all promises (InParallel promises)).

(** The [for] loop of [executeSequential], entered with [rest] to go. *)
Definition sequential_loop (self : SuperAgent.t) (results : list SubAgentResult.t)
  (rest : list SubAgentTask.t) : M Execution :=
  match rest with
  | [] => ret (Fulfilled results)
  | subTask :: rest' =>
      let* wk := spawnSubAgent self subTask in
      ret (Pending (InSequential results wk rest'))
  end.

Definition executeSequential (self : SuperAgent.t) (subTasks : list SubAgentTask.t)
  : M Execution :=
  sequential_loop self [] subTasks.

Definition is_simple (t : SubAgentTask.t) : bool :=
  js_is_str (SubAgentTask.complexity t) "simple".

(** The [for] loop of [executeAdaptive], entered with [rest] to go. *)
Definition adaptive_loop (self : SuperAgent.t)
  (simpleResults complexResults : list SubAgentResult.t) (rest : list SubAgentTask.t)
  : M Execution :=
  match rest with
  | [] => ret (Fulfilled (simpleResults ++ complexResults))
  | task :: rest' =>
      let* wk := spawnSubAgent self task in
      ret (Pending (InAdaptiveComplex simpleResults complexResults wk rest'))
  end.

Definition executeAdaptive (self : SuperAgent.t) (subTasks : list SubAgentTask.t)
  : M Execution :=
  let simpleTask := List.filter is_simple subTasks in
  let complexTasks := List.filter (fun t => negb (is_simple t)) subTasks in
  let* promises := spawn_each self simpleTask in
  match Promise_all promises with
  | Some simpleResults => adaptive_loop self simpleResults [] complexTasks
  | None => ret (Pending (InAdaptiveSimple promises complexTasks))
  end.

(** A suspended strategy resumed by an event for its [i]-th sub-agent (a
    loop has one sub-agent in flight, whatever [i]). *)
Definition strategy_step (self : SuperAgent.t) (i : nat) (ev : WorkerEvent)
  (suspended : Running) : M Execution :=
  match suspended with
  | InParallel promises =>
      match promises !! i with
      | None => ret (Pending suspended)
      | Some wk =>
          let* wk' := spawned_step ev wk in
          let promises' := <[i := wk']> promises in
          ret (await_all promises' (InParallel promises'))
      end
  | InSequential results current rest =>
      let* wk' := spawned_step ev current in
      match wk' with
      | Done result => sequential_loop self (results ++ [result]) rest
      | _ => ret (Pending (InSequential results wk' rest))
      end
  | InAdaptiveSimple promises complexTasks =>
      match promises !! i with
      | None => ret (Pending suspended)
      | Some wk =>
          let* wk' := spawned_step ev wk in
          let promises' := <[i := wk']> promises in
          match Promise_all promises' with
          | Some simpleResults => adaptive_loop self simpleResults [] complexTasks
          | None => ret (Pending (InAdaptiveSimple promises' complexTasks))
          end
      end
  | InAdaptiveComplex simpleResults complexResults current rest =>
      let* wk' := spawned_step ev current in
      match wk' with
      | Done result =>
          adaptive_loop self simpleResults (complexResults ++ [result]) rest
      | _ => ret (Pending (InAdaptiveComplex simpleResults complexResults wk' rest))
      end
  end.

(** *** executeTask *)

(** Where [executeTask] is suspended, or how it settled. *)
Inductive Phase : Type :=
| Decomposing (accountId : AccountId)
| Executing (suspended : Running)
| Aggregating (subResults : list SubAgentResult.t) (accountId : AccountId)
| Returned (r : TaskResult.t)
| Failed (e : JsThrown).

Inductive Event : Type :=
| Backend (o : ChatOutcome)               (* the call of the super-agent settles *)
| ToWorker (i : nat) (ev : WorkerEvent).  (* something happens to a sub-agent *)

(** The [catch] block of [executeTask]. *)
Definition executeTask_catch (self : SuperAgent.t) (task : Task.t) (startTime : Z)
  (error : JsThrown) : M TaskResult.t :=
  let msg := errorMsg error in
  let* _ := db_call (updateAgentStatus (SuperAgent.id self) "failed" msg) in
  let* finished := Date_now in
  ret {| TaskResult.taskId := Task.id task;
         TaskResult.success := false;
         TaskResult.result := msg;
         TaskResult.subResults := [];
         TaskResult.tokensUsed := 0;
         TaskResult.cost := 0%Q;
         TaskResult.duration := finished - startTime |}.

(** A stretch of the [try] block of [executeTask]. *)
Definition in_try (self : SuperAgent.t) (task : Task.t) (startTime : Z) (c : M Phase)
  : M Phase :=
  try_catch c
    (fun error =>
       let* r := executeTask_catch self task startTime error in ret (Returned r)).

Definition when (b : bool) (c : M unit) : M unit := if b then c else ret tt.

(** From the end of [aggregateResults] to the [return]. *)
Definition executeTask_finish (self : SuperAgent.t) (task : Task.t) (startTime : Z)
  (subResults : list SubAgentResult.t) (finalResult : string) : M TaskResult.t :=
  let totalTokens :=
    fold_left (fun sum r => sum + SubAgentResult.tokensUsed r) subResults 0 in
  let totalCost :=
    fold_left (fun sum r => (sum + SubAgentResult.cost r)%Q) subResults 0%Q in
  let* finished := Date_now in
  let duration := finished - startTime in
  let* _ :=
    when (SuperAgentConfig.saveHistory (SuperAgent.config self))
      (let* cid := uuidv4 in
       let* stamp := Date_now in
       let* _ := db_call (saveConversation cid (SuperAgent.id self) None account1
                            "assistant" finalResult stamp
                            (Some (totalTokens, totalCost))) in
       let* did := uuidv4 in
       let* created := Date_now in
       db_call (saveDocument did (Task.id task) "analysis"
                  ("Task Result: " ++ substring 0 50 (Task.description task) ++ "...")
                  finalResult "markdown" created
                  ("complexity:" ++ Task.complexity task
                   ++ ",priority:" ++ pretty (Task.priority task)))) in
  let* _ := db_call (updateAgentStatus (SuperAgent.id self) "completed" finalResult) in
  ret {| TaskResult.taskId := Task.id task;
         TaskResult.success := true;
         TaskResult.result := finalResult;
         TaskResult.subResults := subResults;
         TaskResult.tokensUsed := totalTokens;
         TaskResult.cost := totalCost;
         TaskResult.duration := duration |}.

(** Once the strategy has its results, [aggregateResults] is entered. *)
Definition continue_with (x : Execution) : M Phase :=
  match x with
  | Pending suspended => ret (Executing suspended)
  | Fulfilled subResults =>
      let* accountId := aggregateResults_begin in
      ret (Aggregating subResults accountId)
  end.

Definition execute_by_strategy (self : SuperAgent.t) (subTasks : list SubAgentTask.t)
  : M Execution :=
  match SuperAgentConfig.strategy (SuperAgent.config self) with
  | parallel => executeParallel self subTasks
  | sequential => executeSequential self subTasks
  | adaptive => executeAdaptive self subTasks
  end.

(** [executeTask], up to the backend call of [decomposeTask]. *)
Definition executeTask_begin (self : SuperAgent.t) (task : Task.t) : M (Z * Phase) :=
  let* startTime := Date_now in
  let* ph :=
    in_try self task startTime
      (let* _ :=
         when (SuperAgentConfig.saveHistory (SuperAgent.config self))
           (let* cid := uuidv4 in
            let* stamp := Date_now in
            db_call (saveConversation cid (SuperAgent.id self) None account1 "user"
                       ("Task: " ++ Task.description task) stamp None)) in
       let* accountId := decomposeTask_begin in
       ret (Decomposing accountId)) in
  ret (startTime, ph).

(** [executeTask] resumed by an event; an event nothing waits for is
    ignored. *)
Definition executeTask_step (self : SuperAgent.t) (task : Task.t) (startTime : Z)
  (ev : Event) (ph : Phase) : M Phase :=
  match ph, ev with
  | Decomposing accountId, Backend o =>
      in_try self task startTime
        (let* subTasks := decomposeTask_reply task accountId o in
         let* x := execute_by_strategy self subTasks in
         continue_with x)
  | Executing suspended, ToWorker i wev =>
      in_try self task startTime
        (let* x := strategy_step self i wev suspended in
         continue_with x)
  | Aggregating subResults accountId, Backend o =>
      in_try self task startTime
        (let* finalResult := aggregateResults_reply subResults accountId o in
         let* r := executeTask_finish self task startTime subResults finalResult in
         ret (Returned r))
  | _, _ => ret ph
  end.

(** The running call: its start time, where it stands, and the world. *)
Record Call : Type := {
  startTime : Z;
  phase : Phase;
  world : World
}.

Definition settled (startTime : Z) (r : Completion Phase * World) : Call :=
  match r with
  | (Normal ph, w) => {| startTime := startTime; phase := ph; world := w |}
  | (Throw e, w) => {| startTime := startTime; phase := Failed e; world := w |}
  end.

Definition executeTask (self : SuperAgent.t) (task : Task.t) (w : World) : Call :=
  match executeTask_begin self task w with
  | (Normal (startTime, ph), w') =>
      {| startTime := startTime; phase := ph; world := w' |}
  | (Throw e, w') => {| startTime := 0; phase := Failed e; world := w' |}
  end.

Definition react (self : SuperAgent.t) (task : Task.t) (c : Call) (ev : Event) : Call :=
  settled (startTime c) (executeTask_step self task (startTime c) ev (phase c) (world c)).

(** The call after the environment has produced [evs], in order. *)
Definition run (self : SuperAgent.t) (task : Task.t) (evs : list Event) (c : Call) : Call :=
  fold_left (react self task) evs c.

End Engine.

(** ** A reference runtime

    Used to run the engine on concrete inputs: [JSON.parse] on the ASCII
    fragment of JSON (an escape [\uXXXX] above 007F is refused, a number is
    kept as the exact value of its literal), a clock that advances by five
    milliseconds per reading, uuids numbered in order of creation, and a
    persistence layer that accepts every row. *)

Module Json.

Definition is_ws (c : ascii) : bool :=
  let n := nat_of_ascii c in
  (n =? 32)%nat || (n =? 9)%nat || (n =? 10)%nat || (n =? 13)%nat.

Fixpoint skip_ws (s : string) : string :=
  match s with
  | String c rest => if is_ws c then skip_ws rest else s
  | EmptyString => s
  end.

Definition digit (c : ascii) : option Z :=
  let n := nat_of_ascii c in
  if ((48 <=? n) && (n <=? 57))%nat then Some (Z.of_nat (n - 48)) else None.

Definition hex_digit (c : ascii) : option nat :=
  let n := nat_of_ascii c in
  if ((48 <=? n) && (n <=? 57))%nat then Some (n - 48)%nat
  else if ((65 <=? n) && (n <=? 70))%nat then Some (n - 55)%nat
  else if ((97 <=? n) && (n <=? 102))%nat then Some (n - 87)%nat
  else None.

(** The longest run of digits at the head of [s]: its value from the
    accumulator [acc], its length, and what follows. *)
Fixpoint digits (acc : Z) (len : nat) (s : string) : Z * nat * string :=
  match s with
  | String c rest =>
      match digit c with
      | Some d => digits (10 * acc + d) (S len) rest
      | None => (acc, len, s)
      end
  | EmptyString => (acc, len, s)
  end.

Definition pow10 (e : Z) : Q :=
  if (0 <=? e)%Z then inject_Z (10 ^ e) else (1 / inject_Z (10 ^ (- e)))%Q.

(** number = [-] int [frac] [exp], with no leading zero in int *)
Definition number (s : string) : option (Q * string) :=
  let '(negative, s) :=
    match s with
    | String "-" rest => (true, rest)
    | _ => (false, s)
    end in
  let '(int, int_len, after_int) := digits 0 0 s in
  let leading_zero :=
    match s with
    | String "0" _ => (1 <? int_len)%nat
    | _ => false
    end in
  if (int_len =? 0)%nat || leading_zero then None else
  let frac :=
    match after_int with
    | String "." rest =>
        let '(f, f_len, after_frac) := digits 0 0 rest in
        if (f_len =? 0)%nat then None
        else Some ((inject_Z f * pow10 (- Z.of_nat f_len))%Q, after_frac)
    | _ => Some (0%Q, after_int)
    end in
  match frac with
  | None => None
  | Some (f, after_frac) =>
      let mantissa := (inject_Z int + f)%Q in
      let signed := if negative then (- mantissa)%Q else mantissa in
      let scaled (e : Z) (rest : string) := Some ((signed * pow10 e)%Q, rest) in
      let exponent (sign : Z) (rest : string) :=
        let '(e, e_len, after_exp) := digits 0 0 rest in
        if (e_len =? 0)%nat then None else scaled (sign * e) after_exp in
      match after_frac with
      | String c rest =>
          if (Ascii.eqb c "e" || Ascii.eqb c "E")%bool then
            match rest with
            | String "+" rest' => exponent 1 rest'
            | String "-" rest' => exponent (-1) rest'
            | _ => exponent 1 rest
            end
          else Some (signed, after_frac)
      | EmptyString => Some (signed, after_frac)
      end
  end.

Definition escape (c : ascii) : option ascii :=
  let n := nat_of_ascii c in
  if (n =? 34)%nat then Some c            (* quotation mark *)
  else if (n =? 92)%nat then Some c       (* reverse solidus *)
  else if (n =? 47)%nat then Some c       (* solidus *)
  else if (n =? 98)%nat then Some (ascii_of_nat 8)
  else if (n =? 102)%nat then Some (ascii_of_nat 12)
  else if (n =? 110)%nat then Some (ascii_of_nat 10)
  else if (n =? 114)%nat then Some (ascii_of_nat 13)
  else if (n =? 116)%nat then Some (ascii_of_nat 9)
  else None.

(** The characters of a string literal, after its opening quotation mark. *)
Fixpoint chars (s : string) : option (string * string) :=
  match s with
  | EmptyString => None
  | String c rest =>
      let n := nat_of_ascii c in
      if (n =? 34)%nat then Some (EmptyString, rest)
      else if (n <? 32)%nat then None
      else if (n =? 92)%nat then
        match rest with
        | String "u" (String a (String b (String c' (String d rest')))) =>
            match hex_digit a, hex_digit b, hex_digit c', hex_digit d with
            | Some x3, Some x2, Some x1, Some x0 =>
                let code := (((x3 * 16 + x2) * 16 + x1) * 16 + x0)%nat in
                if (code <? 128)%nat then
                  match chars rest' with
                  | Some (t, after) => Some (String (ascii_of_nat code) t, after)
                  | None => None
                  end
                else None
            | _, _, _, _ => None
            end
        | String e rest' =>
            match escape e, chars rest' with
            | Some e', Some (t, after) => Some (String e' t, after)
            | _, _ => None
            end
        | EmptyString => None
        end
      else
        match chars rest with
        | Some (t, after) => Some (String c t, after)
        | None => None
        end
  end.

Definition literal (word : string) (v : JsValue) (s : string) : option (JsValue * string) :=
  if String.prefix word s
  then Some (v, substring (String.length word) (String.length s - String.length word) s)
  else None.

(** value, elements after [[] and members after [{]; [first] tells whether
    the next element or member is the first one. *)
Fixpoint value (fuel : nat) (s : string) : option (JsValue * string) :=
  match fuel with
  | O => None
  | S fuel' =>
      match skip_ws s with
      | String "[" rest =>
          match elements fuel' true rest with
          | Some (items, after) => Some (JArr items, after)
          | None => None
          end
      | String "{" rest =>
          match members fuel' true rest with
          | Some (ms, after) => Some (JObj ms, after)
          | None => None
          end
      | String "034"%char rest =>
          match chars rest with
          | Some (t, after) => Some (JStr t, after)
          | None => None
          end
      | String "t" _ as s' => literal "true" (JBool true) s'
      | String "f" _ as s' => literal "false" (JBool false) s'
      | String "n" _ as s' => literal "null" JNull s'
      | s' =>
          match number s' with
          | Some (q, after) => Some (JNum q, after)
          | None => None
          end
      end
  end
with elements (fuel : nat) (first : bool) (s : string) : option (list JsValue * string) :=
  match fuel with
  | O => None
  | S fuel' =>
      let item (s : string) :=
        match value fuel' s with
        | Some (v, after) =>
            match elements fuel' false after with
            | Some (vs, after') => Some (v :: vs, after')
            | None => None
            end
        | None => None
        end in
      match skip_ws s with
      | String "]" rest => Some ([], rest)
      | String "," rest => if first then None else item rest
      | _ => if first then item s else None
      end
  end
with members (fuel : nat) (first : bool) (s : string)
  : option (list (string * JsValue) * string) :=
  match fuel with
  | O => None
  | S fuel' =>
      let pair (s : string) :=
        match skip_ws s with
        | String "034"%char rest =>
            match chars rest with
            | Some (key, after_key) =>
                match skip_ws after_key with
                | String ":" after_colon =>
                    match value fuel' after_colon with
                    | Some (v, after) =>
                        match members fuel' false after with
                        | Some (ms, after') => Some ((key, v) :: ms, after')
                        | None => None
                        end
                    | None => None
                    end
                | _ => None
                end
            | None => None
            end
        | _ => None
        end in
      match skip_ws s with
      | String "}" rest => Some ([], rest)
      | String "," rest => if first then None else pair rest
      | _ => if first then pair s else None
      end
  end.

Definition parse (text : string) : Completion JsValue :=
  match value (2 * String.length text + 2) text with
  | Some (v, after) =>
      match skip_ws after with
      | EmptyString => Normal v
      | _ => Throw (SyntaxError "Unexpected non-whitespace character after JSON")
      end
  | None => Throw (SyntaxError "Unexpected token in JSON")
  end.

End Json.

Module Reference.

(** Template-literal conversion; a number that is not an integer is
    printed as a fraction. *)
Fixpoint to_string (v : JsValue) : string :=
  match v with
  | JUndefined => "undefined"
  | JNull => "null"
  | JBool b => bool_text b
  | JNum q =>
      let r := Qred q in
      match Qden r with
      | xH => pretty (Qnum r)
      | d => pretty (Qnum r) ++ "/" ++ pretty (Zpos d)
      end
  | JStr s => s
  | JArr items =>
      join ","
        ((fix each (l : list JsValue) : list string :=
            match l with
            | [] => []
            | (JUndefined | JNull) :: rest => "" :: each rest
            | item :: rest => to_string item :: each rest
            end) items)
  | JObj _ => "[object Object]"
  end.

#[export] Instance runtime : Runtime := {|
  JSON_parse := Json.parse;
  ToString := to_string;
  uuid_nth := fun n => "uuid-" ++ pretty n;
  clock := fun k => 1700000000000 + 5 * Z.of_nat k
|}.

(** Every row is accepted. *)
Definition accepting : Persistence := {| db_fault := fun _ _ => None |}.

(** Every row is refused. *)
Definition refusing : Persistence :=
  {| db_fault := fun _ _ => Some (JsError "SqliteError" "database is locked") |}.

Definition account_config (label : string) (limit : Z) : AccountConfig :=
  {| apiKey := "key-" ++ label; baseURL := None; name := label;
     maxConcurrent := 10; rateLimit := limit |}.

Definition world_with (m : AccountManager) : World :=
  {| manager := m; ticks := 0; minted := 0; database := [];
     activeSubAgents := ∅; observed := [] |}.

(** Two accounts allowing sixty requests a minute. *)
Definition fresh_world (s : Strategy) : World :=
  world_with
    (new_AccountManager (account_config "Primary" 60) (account_config "Secondary" 60) s).

Definition task : Task.t :=
  {| Task.id := "task-1"; Task.description := "Summarize module X and list risks";
     Task.context := None; Task.complexity := "medium"; Task.priority := 3 |}.

Definition super_agent (limit : Z) (s : ExecutionStrategy) : SuperAgent.t :=
  {| SuperAgent.id := "super";
     SuperAgent.config :=
       {| SuperAgentConfig.maxSubAgents := limit;
          SuperAgentConfig.strategy := s;
          SuperAgentConfig.saveHistory := true |} |}.

Definition answer (text : string) (tokens : Z) : ChatOutcome :=
  Resolved {| choices := Some [Some text]; total_tokens := Some tokens |}.

Definition outage : ChatOutcome := Rejected (JsError "Error" "Grok API error: 503").

Definition quoted (s : string) : string :=
  String "034"%char s ++ String "034"%char "".

(** The JSON text of a sub-task as the decomposition prompt asks for it;
    [estimatedComplexity] is left out when [complexity] is empty. *)
Definition entry (description : string) (priority : nat) (complexity : string) : string :=
  "{" ++ quoted "description" ++ ":" ++ quoted description
  ++ "," ++ quoted "priority" ++ ":" ++ pretty priority
  ++ (if String.eqb complexity "" then ""
      else "," ++ quoted "estimatedComplexity" ++ ":" ++ quoted complexity)
  ++ "}".

(** A decomposition into five sub-tasks, the second and the fourth simple. *)
Definition five_subTasks : string :=
  "[" ++ entry "read the module" 1 "medium"
  ++ "," ++ entry "list the exports" 2 "simple"
  ++ "," ++ entry "trace the callers" 3 "complex"
  ++ "," ++ entry "list the risks" 4 "simple"
  ++ "," ++ entry "write the summary" 5 ""
  ++ "]".

(** An answer with an empty content. *)
Definition empty_answer : ChatOutcome :=
  Resolved {| choices := Some [Some ""]; total_tokens := Some 12 |}.

(** A manager whose first account has used up its limit of one request a
    minute at the time of the first clock reading. *)
Definition one_limited (s : Strategy) : AccountManager :=
  {| acct1 := {| config := account_config "Primary" 1;
                 stats := fresh_stats;
                 requestTimestamps := [1700000000000 - 5] |};
     acct2 := {| config := account_config "Secondary" 60;
                 stats := fresh_stats;
                 requestTimestamps := [] |};
     strategy := s;
     currentAccountIndex := 0 |}.

#[local] Existing Instance accepting.

Definition sample_agent : SubAgent.t :=
  {| SubAgent.id := "sub";
     SubAgent.task := fallback_subTask task "sub-task";
     SubAgent.superAgentId := "super" |}.

(** The environment of a complete run over [five_subTasks]: every backend
    call of a sub-agent is answered, except the one for the fourth
    sub-task; the synthesis is answered. *)
Definition full_run : list Event :=
  [Backend (answer five_subTasks 100);
   ToWorker 1 Resume; ToWorker 0 Resume;
   ToWorker 1 (Reply outage); ToWorker 0 (Reply (answer "exports" 1000));
   ToWorker 0 Resume; ToWorker 0 (Reply (answer "module" 2000));
   ToWorker 0 Resume; ToWorker 0 (Reply (answer "callers" 3000));
   ToWorker 0 Resume; ToWorker 0 (Reply (answer "summary" 500));
   Backend (answer "All done." 4000)].

(** The environment of a run in which every backend call is rejected:
    the decomposition, the call of the one sub-agent, the synthesis. *)
Definition outage_run : list Event :=
  [Backend outage; ToWorker 0 Resume; ToWorker 0 (Reply outage); Backend outage].

(** The sub-tasks of [five_subTasks] as [decomposeTask] returns them. *)
Definition five : list SubAgentTask.t :=
  match (decomposeTask_reply task account1 (answer five_subTasks 100)
           (fresh_world least_loaded)).1 with
  | Normal subTasks => subTasks
  | Throw _ => []
  end.

Definition adaptive_events : list (nat * WorkerEvent) :=
  [(1, Resume); (0, Resume); (1, Reply outage); (0, Reply (answer "exports" 1000));
   (0, Resume); (0, Reply (answer "module" 2000));
   (0, Resume); (0, Reply (answer "callers" 3000));
   (0, Resume); (0, Reply (answer "summary" 500))]%nat.

(** A super-agent that keeps no history. *)
Definition silent_agent (s : ExecutionStrategy) : SuperAgent.t :=
  {| SuperAgent.id := "super";
     SuperAgent.config :=
       {| SuperAgentConfig.maxSubAgents := 5;
          SuperAgentConfig.strategy := s;
          SuperAgentConfig.saveHistory := false |} |}.

(** Two accounts that allow no request at all. *)
Definition blocked_world : World :=
  world_with
    (new_AccountManager (account_config "Primary" 0) (account_config "Secondary" 0)
       least_loaded).

(** The rows of answers are refused, every other row is accepted. *)
Definition refusing_answers : Persistence :=
  {| db_fault := fun _ c =>
       match c with
       | saveConversation _ _ _ _ "assistant" _ _ _ =>
           Some (JsError "SqliteError" "database is locked")
       | _ => None
       end |}.

(** The entries of [five_subTasks] once parsed. *)
Definition five_entries : list JsValue :=
  match Json.parse five_subTasks with
  | Normal (JArr items) => items
  | _ => []
  end.

(** The five sub-agents of a parallel run answered out of order. *)
Definition scrambled_events : list (nat * WorkerEvent) :=
  [(4, Resume); (4, Reply (answer "summary" 500)); (0, Resume); (2, Resume);
   (2, Reply outage); (0, Reply (answer "module" 2000)); (1, Resume); (3, Resume);
   (3, Reply (answer "risks" 700)); (1, Reply (answer "exports" 1000))]%nat.

(** Five sub-agents resumed and answered one after the other. *)
Definition events_in_turn : list (nat * WorkerEvent) :=
  [(0, Resume); (0, Reply (answer "module" 2000));
   (0, Resume); (0, Reply (answer "exports" 1000));
   (0, Resume); (0, Reply outage);
   (0, Resume); (0, Reply (answer "risks" 700));
   (0, Resume); (0, Reply (answer "summary" 500))]%nat.

End Reference.

(** * Specification vocabulary *)

(** [c] started in a world satisfying [P] ends normally with [Q] or
    throws with [E]. *)
Definition triple {A} (P : World -> Prop) (c : M A)
  (Q : A -> World -> Prop) (E : JsThrown -> World -> Prop) : Prop :=
  forall w, P w ->
    match c w with
    | (Normal a, w') => Q a w'
    | (Throw e, w') => E e w'
    end.

(** A computation that cannot throw and keeps an invariant. *)
Definition keeps {A} (I : World -> Prop) (c : M A) : Prop :=
  triple I c (fun _ w => I w) (fun _ _ => False).

(** A computation that keeps an invariant, also when it throws. *)
Definition maintains {A} (I : World -> Prop) (c : M A) : Prop :=
  triple I c (fun _ w => I w) (fun _ w => I w).

(** [c] keeps the invariant [I], whether it returns or throws; what it
    returns satisfies [Q]; it may throw only if [E] holds. *)
Definition spec {A} (I : World -> Prop) (Q : A -> Prop) (E : Prop) (c : M A) : Prop :=
  triple I c (fun a w => I w /\ Q a) (fun _ w => I w /\ E).

(** No condition on the result. *)
Definition any {A} : A -> Prop := fun _ => True.

(** The configurations of the two accounts. *)
Definition configs (w : World) : AccountConfig * AccountConfig :=
  (config (acct1 (manager w)), config (acct2 (manager w))).

(** An invariant that only reads the observations and the account
    configurations: the bookkeeping of the engine does not disturb it. *)
Definition steady (I : World -> Prop) : Prop :=
  forall w w', observed w = observed w' -> configs w = configs w' -> I w -> I w'.

(** An invariant that only reads the account configurations. *)
Definition about_configs (I : World -> Prop) : Prop :=
  forall w w', configs w = configs w' -> I w -> I w'.

(** The account is rate limited at time [now]: at least [rateLimit]
    recorded requests are younger than sixty seconds. *)
Definition limited_at (now : Z) (a : Account) : bool :=
  bool_decide (rateLimit (config a) <= Z.of_nat (length (recent now (requestTimestamps a)))).

Definition pruned (now : Z) (a : Account) : Account :=
  {| config := config a; stats := stats a;
     requestTimestamps := recent now (requestTimestamps a) |}.

Definition tick (w : World) : World :=
  {| manager := manager w; ticks := S (ticks w); minted := minted w;
     database := database w; activeSubAgents := activeSubAgents w;
     observed := observed w |}.

(** The in-flight counters are not negative. *)
Definition in_flight_ok (w : World) : Prop :=
  forall accountId, 0 <= activeRequests (stats (accounts_get accountId (manager w))).

(** Round robin is the policy and [k] selections have been made. *)
Definition round_robin_at (k : nat) (w : World) : Prop :=
  strategy (manager w) = round_robin /\ currentAccountIndex (manager w) = Z.of_nat k.

(** Invariants that the bookkeeping which does not select preserves. *)
Definition stable (I : World -> Prop) : Prop :=
  (forall w, I w -> I (tick w))
  /\ (forall w accountId now, I w ->
        I (set_manager
             (accounts_set accountId (pruned now (accounts_get accountId (manager w)))
                (manager w)) w)).

(** The public operations of the account manager, as a caller issues them. *)
Inductive ManagerCall : Type :=
| call_selectAccount
| call_getClient (accountId : option AccountId)
| call_completeRequest (accountId : AccountId) (tokensUsed : Z) (cost : Q)
| call_waitForAvailability_test
| call_getHealthStatus
| call_setStrategy (s : Strategy).

Definition sets_strategy (c : ManagerCall) : bool :=
  match c with call_setStrategy _ => true | _ => false end.

(** The backend list of [selectRoundRobin]. *)
Definition accounts : list AccountId := [account1; account2].

Section Specification.
Context {RT : Runtime} {DB : Persistence}.

(** One call; the result lists the accounts chosen by [selectAccount]
    during the call. *)
Definition perform (c : ManagerCall) : M (list AccountId) :=
  match c with
  | call_selectAccount => let* a := selectAccount in ret [a]
  | call_getClient None => let* a := getClient None in ret [a]
  | call_getClient (Some a) => let* _ := getClient (Some a) in ret []
  | call_completeRequest a tokensUsed cost =>
      let* _ := completeRequest a tokensUsed cost in ret []
  | call_waitForAvailability_test => let* _ := bothRateLimited in ret []
  | call_getHealthStatus => let* _ := getHealthStatus in ret []
  | call_setStrategy s => let* _ := setStrategy s in ret []
  end.

Fixpoint perform_all (calls : list ManagerCall) : M (list AccountId) :=
  match calls with
  | [] => ret []
  | c :: rest =>
      let* chosen := perform c in
      let* later := perform_all rest in
      ret (chosen ++ later)%list
  end.

(** What a stretch of calls started after [k] selections has chosen: the
    accounts at positions [k], [k + 1], ... of the cycle. *)
Definition cycle_from (k : nat) (chosen : list AccountId) : Prop :=
  forall n a, chosen !! n = Some a -> accounts !! ((k + n) mod length accounts)%nat = Some a.

Definition selects_in_cycle (k : nat) (c : M (list AccountId)) : Prop :=
  triple (round_robin_at k) c
    (fun chosen w => round_robin_at (k + length chosen) w /\ cycle_from k chosen)
    (fun _ _ => False).

(** The persistence layer accepts every row. *)
Definition accepts_all : Prop := forall rows c, db_fault rows c = None.

(** The persistence layer accepts every status update. *)
Definition accepts_status_updates : Prop :=
  forall rows id status result, db_fault rows (updateAgentStatus id status result) = None.

(** The persistence layer accepts every agent registration. *)
Definition accepts_registrations : Prop :=
  forall rows id type parent_id account status task created_at,
    db_fault rows (saveAgent id type parent_id account status task created_at) = None.

(** What makes a backend call fail for its caller: the call is rejected,
    or the response lacks its [choices]. *)
Definition failure_of (o : ChatOutcome) : option JsThrown :=
  match o with
  | Rejected e => Some e
  | Resolved r =>
      match first_content r with
      | Throw e => Some e
      | Normal _ => None
      end
  end.

(** The text that [decomposeTask] hands to [JSON.parse]. *)
Definition decomposition_text (r : ChatResponse) : Completion string :=
  match first_content r with
  | Normal found => Normal (str_or found "[]")
  | Throw e => Throw e
  end.

(** The answers from which [decomposeTask] gets no sub-task list: the call
    failed, or the content (an absent or empty content counting as the text
    of an empty array) is not JSON, is JSON but not an array, or is an array
    with a [null] entry. *)
Inductive unusable : ChatOutcome -> Prop :=
| failed_call o e : failure_of o = Some e -> unusable o
| invalid_json r found e :
    first_content r = Normal found ->
    JSON_parse (str_or found "[]") = Throw e ->
    unusable (Resolved r)
| not_an_array r found v :
    first_content r = Normal found ->
    JSON_parse (str_or found "[]") = Normal v ->
    (forall items, v <> JArr items) ->
    unusable (Resolved r)
| null_entry r found items :
    first_content r = Normal found ->
    JSON_parse (str_or found "[]") = Normal (JArr items) ->
    JNull ∈ items \/ JUndefined ∈ items ->
    unusable (Resolved r).

(** The sub-agent works on sub-task [t], or has produced its result. *)
Definition tracks (t : SubAgentTask.t) (wk : Worker) : Prop :=
  match wk with
  | Done r => SubAgentResult.taskId r = SubAgentTask.id t
  | _ => worker_task wk = Some t
  end.

Definition is_done (wk : Worker) : bool :=
  match wk with Done _ => true | _ => false end.

(** The sub-tasks whose sub-agent, at the same position, has produced its
    result. *)
Fixpoint done_tasks (ts : list SubAgentTask.t) (wks : list Worker) : list SubAgentTask.t :=
  match ts, wks with
  | t :: ts', wk :: wks' =>
      if is_done wk then t :: done_tasks ts' wks' else done_tasks ts' wks'
  | _, _ => []
  end.

Definition obs_task (o : Obs) : SubAgentTask.t :=
  match o with Spawned t | Settled t => t end.

(** The sub-tasks whose sub-agent has settled, according to the
    observations. *)
Fixpoint settled_tasks (observations : list Obs) : list SubAgentTask.t :=
  match observations with
  | [] => []
  | Settled t :: rest => t :: settled_tasks rest
  | Spawned _ :: rest => settled_tasks rest
  end.

Definition not_simple (t : SubAgentTask.t) : bool := negb (is_simple t).

(** In the observations [new] (latest first): whenever a sub-agent is
    spawned for a sub-task that is not simple, the sub-agents settled
    before it for simple sub-tasks are those of all the simple sub-tasks of
    [subTasks]. *)
Definition simple_first (subTasks : list SubAgentTask.t) (new : list Obs) : Prop :=
  forall later t earlier,
    new = (later ++ Spawned t :: earlier)%list ->
    is_simple t = false ->
    List.filter is_simple (settled_tasks earlier) ≡ₚ List.filter is_simple subTasks.

(** What is known of [executeAdaptive] after some events: the
    observations made so far are [after ++ before], [before] being those of
    the parallel stretch over the simple sub-tasks [simple], [after] those
    of the loop over the other sub-tasks [complex]. *)
Definition adaptive_state (simple complex : list SubAgentTask.t)
  (before after : list Obs) (x : Completion Execution) : Prop :=
  match x with
  | Normal (Pending (InAdaptiveSimple promises complexTasks)) =>
      after = [] /\ complexTasks = complex
      /\ Forall2 tracks simple promises
      /\ settled_tasks before ≡ₚ done_tasks simple promises
  | Normal (Pending (InAdaptiveComplex simpleResults complexResults current rest)) =>
      settled_tasks before ≡ₚ simple
      /\ map SubAgentResult.taskId simpleResults = map SubAgentTask.id simple
      /\ exists finished t,
           complex = (finished ++ t :: rest)%list
           /\ worker_task current = Some t
           /\ map SubAgentResult.taskId complexResults = map SubAgentTask.id finished
  | Normal (Pending _) => False
  | Normal (Fulfilled results) =>
      settled_tasks before ≡ₚ simple
      /\ map SubAgentResult.taskId results
         = (map SubAgentTask.id simple ++ map SubAgentTask.id complex)%list
  | Throw _ => after = [] \/ settled_tasks before ≡ₚ simple
  end.

Definition adaptive_inv (subTasks : list SubAgentTask.t) (start : list Obs)
  (st : Completion Execution * World) : Prop :=
  exists before after,
    observed st.2 = (after ++ before ++ start)%list
    /\ Forall (fun o => is_simple (obs_task o) = true) before
    /\ Forall (fun o => is_simple (obs_task o) = false) after
    /\ adaptive_state (List.filter is_simple subTasks) (List.filter not_simple subTasks)
         before after st.1.

(** The sum of [tokensUsed] over the results. *)
Fixpoint sum_tokens (rs : list SubAgentResult.t) : Z :=
  match rs with
  | [] => 0
  | r :: rest => SubAgentResult.tokensUsed r + sum_tokens rest
  end.

(** The sum of [cost] over the results. *)
Fixpoint sum_cost (rs : list SubAgentResult.t) : Q :=
  match rs with
  | [] => 0%Q
  | r :: rest => (SubAgentResult.cost r + sum_cost rest)%Q
  end.

(** The totals of a task result are the sums over its sub-results. *)
Definition accounted (r : TaskResult.t) : Prop :=
  TaskResult.tokensUsed r = sum_tokens (TaskResult.subResults r)
  /\ (TaskResult.cost r == sum_cost (TaskResult.subResults r))%Q.

(** A condition on the phases of [executeTask]: [R] on a suspended
    strategy, [P] on a returned result, [F] on a rejection. *)
Definition phase_spec (R : Running -> Prop) (P : TaskResult.t -> Prop) (F : Prop)
  (ph : Phase) : Prop :=
  match ph with
  | Executing r => R r
  | Returned r => P r
  | Failed _ => F
  | Decomposing _ | Aggregating _ _ => True
  end.

Definition pending_with (R : Running -> Prop) (x : Execution) : Prop :=
  match x with
  | Pending r => R r
  | Fulfilled _ => True
  end.

Definition returned_with (P : TaskResult.t -> Prop) : Phase -> Prop :=
  phase_spec (fun _ => True) P True.

(** How far a sub-agent is from its result: the number of suspensions
    still ahead of it, at most. *)
Definition stage (wk : Worker) : nat :=
  match wk with
  | Sleeping _ _ => 3
  | Ready _ _ => 2
  | Calling _ _ _ _ => 1
  | Done _ => 0
  end.

(** The event that moves a suspended sub-agent on. *)
Definition moves_on (ev : WorkerEvent) (wk : Worker) : bool :=
  match wk, ev with
  | Ready _ _, Resume => true
  | Calling _ _ _ _, Reply _ => true
  | _, _ => false
  end.

Fixpoint work_list (wks : list Worker) : nat :=
  match wks with
  | [] => 0
  | wk :: rest => stage wk + work_list rest
  end.

(** A bound on the suspensions ahead of a strategy; a sub-task not yet
    spawned counts for four. *)
Definition work (r : Running) : nat :=
  match r with
  | InParallel promises => work_list promises
  | InSequential _ current rest => stage current + 4 * length rest
  | InAdaptiveSimple promises complexTasks =>
      work_list promises + 4 * length complexTasks
  | InAdaptiveComplex _ _ current rest => stage current + 4 * length rest
  end.

Definition work_left (x : Execution) : nat :=
  match x with
  | Pending r => 1 + work r
  | Fulfilled _ => 0
  end.

(** A bound on the suspensions ahead of [executeTask] once the
    decomposition is in. *)
Definition effort (ph : Phase) : nat :=
  match ph with
  | Decomposing _ => 0
  | Executing r => 2 + work r
  | Aggregating _ _ => 1
  | Returned _ | Failed _ => 0
  end.

(** The sub-agent that an event for position [i] reaches. *)
Definition reached (r : Running) (i : nat) : option Worker :=
  match r with
  | InParallel promises | InAdaptiveSimple promises _ => promises !! i
  | InSequential _ current _ | InAdaptiveComplex _ _ current _ => Some current
  end.

(** The suspended strategy with the sub-agent at position [i] replaced. *)
Definition with_worker (r : Running) (i : nat) (wk : Worker) : Running :=
  match r with
  | InParallel promises => InParallel (<[i:=wk]> promises)
  | InSequential results _ rest => InSequential results wk rest
  | InAdaptiveSimple promises complexTasks =>
      InAdaptiveSimple (<[i:=wk]> promises) complexTasks
  | InAdaptiveComplex simpleResults complexResults _ rest =>
      InAdaptiveComplex simpleResults complexResults wk rest
  end.

(** A suspended strategy waits for some sub-agent. *)
Definition waiting (r : Running) : Prop :=
  match r with
  | InParallel promises | InAdaptiveSimple promises _ => Promise_all promises = None
  | InSequential _ current _ | InAdaptiveComplex _ _ current _ => is_done current = false
  end.

Definition waiting_if_pending (x : Execution) : Prop :=
  match x with
  | Pending r => waiting r
  | Fulfilled _ => True
  end.

Definition waiting_if_executing (ph : Phase) : Prop :=
  match ph with
  | Executing r => waiting r
  | _ => True
  end.

(** Some account may serve requests at all. *)
Definition positive_limit (w : World) : Prop :=
  exists accountId, 0 < rateLimit (config (accounts_get accountId (manager w))).

(** What the [catch] block of [executeTask] returns for the exception [e]
    when its clock reading is [finished]. *)
Definition failure_result (task : Task.t) (startTime : Z) (e : JsThrown) (finished : Z)
  : TaskResult.t :=
  {| TaskResult.taskId := Task.id task;
     TaskResult.success := false;
     TaskResult.result := errorMsg e;
     TaskResult.subResults := [];
     TaskResult.tokensUsed := 0;
     TaskResult.cost := 0%Q;
     TaskResult.duration := finished - startTime |}.

Definition not_failed (ph : Phase) : Prop :=
  match ph with
  | Failed _ => False
  | _ => True
  end.

Definition succeeded (r : TaskResult.t) : Prop := TaskResult.success r = true.

(** The two ways [executeTask] ends: through its [return] with
    [success: true], or through its [catch] block for some exception. *)
Definition outcome (task : Task.t) (r : TaskResult.t) : Prop :=
  succeeded r
  \/ exists startTime e finished, r = failure_result task startTime e finished.

(** A computation that cannot throw. *)
Definition safe {A} (c : M A) : Prop := keeps (fun _ => True) c.

(** The fall-back of [decomposeTask_reply]: one sub-task made from the
    task, with a new id. *)
Definition falls_back (task : Task.t) (r : Completion (list SubAgentTask.t) * World) : Prop :=
  exists id w', r = (Normal [fallback_subTask task id], w').

(** A strategy resumed by an event for its [i]-th sub-agent; nothing
    happens once it has its results or has thrown. *)
Definition strategy_react (self : SuperAgent.t) (st : Completion Execution * World)
  (ev : nat * WorkerEvent) : Completion Execution * World :=
  match st with
  | (Normal (Pending suspended), w) => strategy_step self ev.1 ev.2 suspended w
  | _ => st
  end.

Definition strategy_run (self : SuperAgent.t) (evs : list (nat * WorkerEvent))
  (st : Completion Execution * World) : Completion Execution * World :=
  fold_left (strategy_react self) evs st.

(** The clock passes every instant for good. *)
Definition clock_diverges : Prop :=
  forall t, exists j, forall k, (j <= k)%nat -> t < clock k.

(** From the [j]-th clock reading on, every recorded request is older than
    sixty seconds. *)
Definition stale_from (j : nat) (w : World) : Prop :=
  forall k accountId ts,
    (j <= k)%nat ->
    ts ∈ requestTimestamps (accounts_get accountId (manager w)) ->
    ts <= clock k - 60000.

(** What a strategy does once the sub-agent at position [i] has been
    resumed and stands at [wk']: the rest of [strategy_step]. *)
Definition after_worker (self : SuperAgent.t) (r : Running) (i : nat) (wk' : Worker)
  : M Execution :=
  match r with
  | InParallel promises =>
      let promises' := <[i:=wk']> promises in
      ret (await_all promises' (InParallel promises'))
  | InSequential results _ rest =>
      match wk' with
      | Done result => sequential_loop self (results ++ [result]) rest
      | _ => ret (Pending (InSequential results wk' rest))
      end
  | InAdaptiveSimple promises complexTasks =>
      let promises' := <[i:=wk']> promises in
      match Promise_all promises' with
      | Some simpleResults => adaptive_loop self simpleResults [] complexTasks
      | None => ret (Pending (InAdaptiveSimple promises' complexTasks))
      end
  | InAdaptiveComplex simpleResults complexResults _ rest =>
      match wk' with
      | Done result => adaptive_loop self simpleResults (complexResults ++ [result]) rest
      | _ => ret (Pending (InAdaptiveComplex simpleResults complexResults wk' rest))
      end
  end.

(** The decomposition is over and [executeTask] has not been rejected. *)
Definition under_way (ph : Phase) : Prop :=
  match ph with
  | Decomposing _ | Failed _ => False
  | _ => True
  end.

End Specification.

(** ** Vocabulary for the books of the account manager *)

(** The number of [getClient] calls among [calls]. *)
Fixpoint acquired (calls : list ManagerCall) : Z :=
  match calls with
  | [] => 0
  | call_getClient _ :: rest => 1 + acquired rest
  | _ :: rest => acquired rest
  end.

(** The tokens handed to [completeRequest] by [calls], in total. *)
Fixpoint released_tokens (calls : list ManagerCall) : Z :=
  match calls with
  | [] => 0
  | call_completeRequest _ tokensUsed _ :: rest => tokensUsed + released_tokens rest
  | _ :: rest => released_tokens rest
  end.

(** The cost handed to [completeRequest] by [calls], in total. *)
Fixpoint released_cost (calls : list ManagerCall) : Q :=
  match calls with
  | [] => 0%Q
  | call_completeRequest _ _ cost :: rest => (cost + released_cost rest)%Q
  | _ :: rest => released_cost rest
  end.

(** The manager with another policy and another round-robin counter. *)
Definition with_policy (s : Strategy) (k : Z) (w : World) : World :=
  set_manager
    {| acct1 := acct1 (manager w); acct2 := acct2 (manager w);
       strategy := s; currentAccountIndex := k |} w.

(** Invariants about the books of the accounts: they read neither the
    clock, nor the policy, nor the round-robin counter, and pruning the
    timestamps does not disturb them. *)
Definition books (I : World -> Prop) : Prop :=
  stable I /\ forall w s k, I w -> I (with_policy s k w).

(** What [getClient] writes for the account it has selected: the
    timestamp [pushed] and the new counters, [used] being the second clock
    reading. *)
Definition acquire (accountId : AccountId) (pushed used : Z) (w : World) : World :=
  let account := accounts_get accountId (manager w) in
  set_manager
    (accounts_set accountId
       {| config := config account;
          stats := {| totalRequests := totalRequests (stats account) + 1;
                      totalTokens := totalTokens (stats account);
                      totalCost := totalCost (stats account);
                      activeRequests := activeRequests (stats account) + 1;
                      lastUsed := used |};
          requestTimestamps := requestTimestamps account ++ [pushed] |}
       (manager w)) w.

(** The books of the two accounts: [n] requests, [t] tokens and the cost
    [q] in total; per account, the in-flight counter lies between zero and
    the number of requests, which also bounds the recorded timestamps. *)
Definition booked (n t : Z) (q : Q) (w : World) : Prop :=
  let s1 := stats (acct1 (manager w)) in
  let s2 := stats (acct2 (manager w)) in
  totalRequests s1 + totalRequests s2 = n
  /\ totalTokens s1 + totalTokens s2 = t
  /\ (totalCost s1 + totalCost s2 == q)%Q
  /\ forall accountId,
       let a := accounts_get accountId (manager w) in
       0 <= activeRequests (stats a) <= totalRequests (stats a)
       /\ Z.of_nat (length (requestTimestamps a)) <= totalRequests (stats a).

(** The statistics and the configurations of the two accounts are those of
    [w0]. *)
Definition same_books (w0 w : World) : Prop :=
  forall accountId,
    stats (accounts_get accountId (manager w)) = stats (accounts_get accountId (manager w0))
    /\ config (accounts_get accountId (manager w))
       = config (accounts_get accountId (manager w0)).

(** The other account. *)
Definition other (accountId : AccountId) : AccountId :=
  match accountId with account1 => account2 | account2 => account1 end.

(** The world with other concurrency bounds for the two accounts. *)
Definition with_maxConcurrent (n1 n2 : Z) (w : World) : World :=
  let bound n (a : Account) :=
    {| config := {| apiKey := apiKey (config a); baseURL := baseURL (config a);
                    name := name (config a); maxConcurrent := n;
                    rateLimit := rateLimit (config a) |};
       stats := stats a;
       requestTimestamps := requestTimestamps a |} in
  set_manager
    {| acct1 := bound n1 (acct1 (manager w)); acct2 := bound n2 (acct2 (manager w));
       strategy := strategy (manager w);
       currentAccountIndex := currentAccountIndex (manager w) |} w.

(** A computation that neither reads nor changes what [f] rewrites: it
    gives the same result after [f], and [f] of its final world. *)
Definition blind_to {A} (f : World -> World) (c : M A) : Prop :=
  forall w, c (f w) = ((c w).1, f (c w).2).

Section Clocks.
Context {RT : Runtime}.

(** The clock never goes back. *)
Definition clock_monotone : Prop :=
  forall j k, (j <= k)%nat -> clock j <= clock k.

End Clocks.

(** What [getHealthStatus] reports as [h] for the account [a], checked at
    time [now]. *)
Definition reports (h : Health) (a : Account) (now : Z) : Prop :=
  inFlight h = activeRequests (stats a)
  /\ rateLimitRemaining h
     = rateLimit (config a) - Z.of_nat (length (recent now (requestTimestamps a)))
  /\ (available h = true
      <-> 0 < rateLimitRemaining h /\ inFlight h < maxConcurrent (config a)).

(** No account allows any request. *)
Definition no_limit (w : World) : Prop :=
  forall accountId, rateLimit (config (accounts_get accountId (manager w))) <= 0.

Section Sub_agents.
Context {RT : Runtime} {DB : Persistence}.

(** A sub-agent resumed by the events [evs], in order. *)
Fixpoint execute_run (evs : list WorkerEvent) (wk : Worker) : M Worker :=
  match evs with
  | [] => ret wk
  | ev :: rest => let* wk' := execute_step ev wk in execute_run rest wk'
  end.

End Sub_agents.

(** ** Vocabulary for the parallel and the sequential strategy *)

(** The observations of sub-agents that ran one after the other for the
    sub-tasks [ts], in that order (latest first). *)
Definition in_turn (ts : list SubAgentTask.t) : list Obs :=
  rev (concat (map (fun t => [Spawned t; Settled t]) ts)).

(** What is known of [executeParallel] after some events: every sub-agent
    was spawned, in the order of the sub-tasks, before any of them settled;
    [settles] lists the sub-tasks whose sub-agent has settled. *)
Definition parallel_inv (subTasks : list SubAgentTask.t) (start : list Obs)
  (st : Completion Execution * World) : Prop :=
  exists settles,
    observed st.2 = (map Settled settles ++ rev (map Spawned subTasks) ++ start)%list
    /\ match st.1 with
       | Normal (Pending (InParallel promises)) =>
           Forall2 tracks subTasks promises
           /\ settles ≡ₚ done_tasks subTasks promises
       | Normal (Pending _) => False
       | Normal (Fulfilled results) =>
           settles ≡ₚ subTasks
           /\ map SubAgentResult.taskId results = map SubAgentTask.id subTasks
       | Throw _ => True
       end.

(** What is known of [executeSequential] after some events: the sub-tasks
    [finished] have been worked on in turn, and at most the next one is
    under way. *)
Definition sequential_inv (subTasks : list SubAgentTask.t) (start : list Obs)
  (st : Completion Execution * World) : Prop :=
  match st.1 with
  | Normal (Pending (InSequential results current rest)) =>
      exists finished t,
        subTasks = (finished ++ t :: rest)%list
        /\ worker_task current = Some t
        /\ map SubAgentResult.taskId results = map SubAgentTask.id finished
        /\ observed st.2 = (Spawned t :: in_turn finished ++ start)%list
  | Normal (Pending _) => False
  | Normal (Fulfilled results) =>
      map SubAgentResult.taskId results = map SubAgentTask.id subTasks
      /\ observed st.2 = (in_turn subTasks ++ start)%list
  | Throw _ =>
      exists finished rest,
        subTasks = (finished ++ rest)%list
        /\ observed st.2 = (in_turn finished ++ start)%list
  end.

(** ** Vocabulary for invariants of a running [executeTask] *)

(** The sub-agent sleeps in [waitForAvailability]. *)
Definition asleep (wk : Worker) : Prop :=
  match wk with
  | Sleeping _ _ => True
  | _ => False
  end.

(** Every sub-agent of the suspended strategy is asleep and none has
    produced a result. *)
Definition all_asleep (r : Running) : Prop :=
  match r with
  | InParallel promises | InAdaptiveSimple promises _ =>
      Forall asleep promises /\ promises <> []
  | InSequential results current _ => results = [] /\ asleep current
  | InAdaptiveComplex simpleResults complexResults current _ =>
      simpleResults = [] /\ complexResults = [] /\ asleep current
  end.

(** No sub-agent has produced, or will produce, a result. *)
Definition starved (ph : Phase) : Prop :=
  match ph with
  | Decomposing _ | Failed _ => True
  | Executing r => all_asleep r
  | Aggregating subResults _ => subResults = []
  | Returned r => TaskResult.subResults r = []
  end.

Definition starved_execution (x : Execution) : Prop :=
  match x with
  | Pending r => all_asleep r
  | Fulfilled results => results = []
  end.

(** The sub-agents a suspended strategy waits for. *)
Definition workers (r : Running) : list Worker :=
  match r with
  | InParallel promises | InAdaptiveSimple promises _ => promises
  | InSequential _ current _ | InAdaptiveComplex _ _ current _ => [current]
  end.

(** Every entry of [activeSubAgents] belongs to a sub-agent among [wks]
    that has not settled. *)
Definition covered (wks : list Worker) (w : World) : Prop :=
  forall id, is_Some (activeSubAgents w !! id) ->
    exists wk t, wk ∈ wks /\ worker_task wk = Some t /\ SubAgentTask.id t = id.

Definition covered_execution (x : Execution) (w : World) : Prop :=
  match x with
  | Pending r => covered (workers r) w
  | Fulfilled _ => activeSubAgents w = ∅
  end.

(** The entries of [activeSubAgents] at each phase of [executeTask]. *)
Definition registered (ph : Phase) (w : World) : Prop :=
  match ph with
  | Decomposing _ | Aggregating _ _ => activeSubAgents w = ∅
  | Executing r => covered (workers r) w
  | Returned r => TaskResult.success r = true -> activeSubAgents w = ∅
  | Failed _ => True
  end.

(** A computation that leaves [activeSubAgents] alone. *)
Definition frame {A} (c : M A) : Prop :=
  forall w, activeSubAgents (c w).2 = activeSubAgents w.

(** The status that the persistence layer is told for a result. *)
Definition status_of (success : bool) : string :=
  if success then "completed" else "failed".

(** The last row written is the final status of the super-agent [self],
    and it agrees with the returned result. *)
Definition status_recorded (self : SuperAgent.t) (ph : Phase) (w : World) : Prop :=
  match ph with
  | Returned r =>
      exists rows,
        database w
        = updateAgentStatus (SuperAgent.id self) (status_of (TaskResult.success r))
            (TaskResult.result r) :: rows
  | _ => True
  end.

Definition not_returned (ph : Phase) : Prop :=
  match ph with
  | Returned _ => False
  | _ => True
  end.

(** ** Vocabulary for the requests of a task *)

(** The requests counted by the two accounts together. *)
Definition requests (w : World) : Z :=
  totalRequests (stats (acct1 (manager w))) + totalRequests (stats (acct2 (manager w))).

(** A computation that makes no request. *)
Definition quiet {A} (c : M A) : Prop :=
  forall w, requests (c w).2 = requests w.

(** Whether the sub-agent has acquired its account. *)
Definition acquired_one (wk : Worker) : Z :=
  match wk with
  | Calling _ _ _ _ | Done _ => 1
  | _ => 0
  end.

Fixpoint acquired_all (wks : list Worker) : Z :=
  match wks with
  | [] => 0
  | wk :: rest => acquired_one wk + acquired_all rest
  end.

(** The requests made so far by the sub-agents of a suspended strategy. *)
Definition asked_by (r : Running) : Z :=
  match r with
  | InParallel promises | InAdaptiveSimple promises _ => acquired_all promises
  | InSequential results current _ =>
      Z.of_nat (length results) + acquired_one current
  | InAdaptiveComplex simpleResults complexResults current _ =>
      Z.of_nat (length simpleResults) + Z.of_nat (length complexResults)
      + acquired_one current
  end.

Definition asked_execution (x : Execution) : Z :=
  match x with
  | Pending r => asked_by r
  | Fulfilled results => Z.of_nat (length results)
  end.

(** The requests counted at each phase of an [executeTask] that started
    with [n] requests counted: one for the decomposition, one per sub-agent
    that has acquired its account, one for the synthesis. *)
Definition asked (n : Z) (ph : Phase) (w : World) : Prop :=
  match ph with
  | Decomposing _ => requests w = n + 1
  | Executing r => requests w = n + 1 + asked_by r
  | Aggregating subResults _ => requests w = n + 2 + Z.of_nat (length subResults)
  | Returned r =>
      TaskResult.success r = true ->
      requests w = n + 2 + Z.of_nat (length (TaskResult.subResults r))
  | Failed _ => True
  end.

(** ** Vocabulary for the rows written *)

(** A computation that only writes rows satisfying [P]. *)
Definition writes {A} (P : DbCall -> Prop) (c : M A) : Prop :=
  forall w, exists new, database (c w).2 = (new ++ database w)%list /\ Forall P new.

(** A row that is not part of the history kept by the super-agent: neither
    a conversation row of its own (one without a sub-agent) nor a
    document. *)
Definition no_history (row : DbCall) : Prop :=
  match row with
  | saveConversation _ _ None _ _ _ _ _ => False
  | saveDocument _ _ _ _ _ _ _ _ => False
  | _ => True
  end.

(** * Properties *)

(** ** Rules for computations *)

Lemma triple_ret {A} (P : World -> Prop) (a : A) Q E :
  (forall w, P w -> Q a w) -> triple P (ret a) Q E.
Proof. intros H w Hw. simpl. auto. Qed.

Lemma triple_throw {A} (P : World -> Prop) e (Q : A -> World -> Prop) E :
  (forall w, P w -> E e w) -> triple P (throw e) Q E.
Proof. intros H w Hw. simpl. auto. Qed.

Lemma triple_lift {A} (P : World -> Prop) (c : Completion A) Q E :
  (forall w, P w -> match c with Normal a => Q a w | Throw e => E e w end) ->
  triple P (lift c) Q E.
Proof. intros H w Hw. unfold lift. destruct c; apply (H w Hw). Qed.

Lemma triple_bind {A B} (P : World -> Prop) (c : M A) (k : A -> M B)
  (R : A -> World -> Prop) Q E :
  triple P c R E -> (forall a, triple (R a) (k a) Q E) -> triple P (bind c k) Q E.
Proof.
  intros Hc Hk w Hw. unfold bind. specialize (Hc w Hw).
  destruct (c w) as [[a|e] w']; [apply (Hk a w' Hc) | exact Hc].
Qed.

Lemma triple_try {A} (P : World -> Prop) (c : M A) (h : JsThrown -> M A)
  (R : JsThrown -> World -> Prop) Q E :
  triple P c Q R -> (forall e, triple (R e) (h e) Q E) -> triple P (try_catch c h) Q E.
Proof.
  intros Hc Hh w Hw. unfold try_catch. specialize (Hc w Hw).
  destruct (c w) as [[a|e] w']; [exact Hc | apply (Hh e w' Hc)].
Qed.

Lemma triple_weaken {A} (P P' : World -> Prop) (c : M A)
  (Q Q' : A -> World -> Prop) (E E' : JsThrown -> World -> Prop) :
  triple P' c Q' E' ->
  (forall w, P w -> P' w) ->
  (forall a w, Q' a w -> Q a w) ->
  (forall e w, E' e w -> E e w) ->
  triple P c Q E.
Proof.
  intros Hc HP HQ HE w Hw. specialize (Hc w (HP w Hw)).
  destruct (c w) as [[a|e] w']; auto.
Qed.

Lemma keeps_maintains {A} (I : World -> Prop) (c : M A) : keeps I c -> maintains I c.
Proof. intros H. eapply triple_weaken; [exact H | auto..]. intros e w []. Qed.

Lemma keeps_ret {A} (I : World -> Prop) (a : A) : keeps I (ret a).
Proof. apply triple_ret. auto. Qed.

Lemma keeps_bind {A B} (I : World -> Prop) (c : M A) (k : A -> M B) :
  keeps I c -> (forall a, keeps I (k a)) -> keeps I (bind c k).
Proof. intros Hc Hk. eapply triple_bind; [exact Hc | exact Hk]. Qed.

Lemma maintains_ret {A} (I : World -> Prop) (a : A) : maintains I (ret a).
Proof. apply triple_ret. auto. Qed.

Lemma maintains_throw {A} (I : World -> Prop) e : maintains I (@throw A e).
Proof. apply triple_throw. auto. Qed.

Lemma maintains_lift {A} (I : World -> Prop) (c : Completion A) : maintains I (lift c).
Proof. apply triple_lift. destruct c; auto. Qed.

Lemma maintains_bind {A B} (I : World -> Prop) (c : M A) (k : A -> M B) :
  maintains I c -> (forall a, maintains I (k a)) -> maintains I (bind c k).
Proof. intros Hc Hk. eapply triple_bind; [exact Hc | exact Hk]. Qed.

Lemma maintains_try {A} (I : World -> Prop) (c : M A) (h : JsThrown -> M A) :
  maintains I c -> (forall e, maintains I (h e)) -> maintains I (try_catch c h).
Proof. intros Hc Hh. eapply triple_try; [exact Hc | exact Hh]. Qed.

Lemma keeps_if {A} (I : World -> Prop) (b : bool) (c1 c2 : M A) :
  keeps I c1 -> keeps I c2 -> keeps I (if b then c1 else c2).
Proof. destruct b; auto. Qed.

Lemma maintains_if {A} (I : World -> Prop) (b : bool) (c1 c2 : M A) :
  maintains I c1 -> maintains I c2 -> maintains I (if b then c1 else c2).
Proof. destruct b; auto. Qed.

Create HintDb keep discriminated.
#[export] Hint Resolve keeps_ret keeps_bind keeps_if : keep.
Create HintDb maintain discriminated.
#[export] Hint Resolve maintains_ret maintains_throw maintains_lift maintains_bind
  maintains_try maintains_if : maintain.

Lemma spec_ret {A} I (Q : A -> Prop) E a : Q a -> spec I Q E (ret a).
Proof. intros H. apply triple_ret. auto. Qed.

Lemma spec_throw {A} I (Q : A -> Prop) e : spec I Q True (throw e).
Proof. apply triple_throw. auto. Qed.

Lemma spec_lift_any {A} I (c : Completion A) : spec I any True (lift c).
Proof. apply triple_lift. destruct c; unfold any; auto. Qed.

Lemma spec_bind {A B} I (Q : B -> Prop) E (c : M A) (k : A -> M B) :
  spec I any E c -> (forall a, spec I Q E (k a)) -> spec I Q E (bind c k).
Proof.
  intros Hc Hk. eapply triple_bind; [exact Hc|]. intros a w [Hw _]. apply (Hk a w Hw).
Qed.

(** The same, keeping what is known of the intermediate result. *)
Lemma spec_bind_with {A B} I (R : A -> Prop) (Q : B -> Prop) E (c : M A) (k : A -> M B) :
  spec I R E c -> (forall a, R a -> spec I Q E (k a)) -> spec I Q E (bind c k).
Proof.
  intros Hc Hk. eapply triple_bind; [exact Hc|]. intros a w [Hw Ha]. apply (Hk a Ha w Hw).
Qed.

Lemma spec_try {A} I (Q : A -> Prop) E (c : M A) (h : JsThrown -> M A) :
  spec I Q True c -> (forall e, spec I Q E (h e)) -> spec I Q E (try_catch c h).
Proof.
  intros Hc Hh. eapply triple_try; [exact Hc|]. intros e w [Hw _]. apply (Hh e w Hw).
Qed.

Lemma spec_if {A} I (Q : A -> Prop) E (b : bool) (c1 c2 : M A) :
  spec I Q E c1 -> spec I Q E c2 -> spec I Q E (if b then c1 else c2).
Proof. destruct b; auto. Qed.

Lemma spec_weaken {A} I (Q Q' : A -> Prop) (E E' : Prop) (c : M A) :
  spec I Q' E' c -> (forall a, Q' a -> Q a) -> (E' -> E) -> spec I Q E c.
Proof.
  intros Hc HQ HE. eapply triple_weaken; [exact Hc | auto | |]; simpl; intros; intuition.
Qed.

Lemma spec_any {A} I (Q : A -> Prop) E (c : M A) : spec I Q E c -> spec I any E c.
Proof. intros H. eapply spec_weaken; [exact H | unfold any; auto | auto]. Qed.

Lemma spec_may_throw {A} I (Q : A -> Prop) E (c : M A) : spec I Q E c -> spec I Q True c.
Proof. intros H. eapply spec_weaken; [exact H | auto | auto]. Qed.

Lemma keeps_spec {A} I (c : M A) : keeps I c -> spec I any False c.
Proof.
  intros H. eapply triple_weaken; [exact H | auto | |]; simpl; unfold any; intuition.
Qed.

Lemma spec_keeps {A} I (Q : A -> Prop) (c : M A) : spec I Q False c -> keeps I c.
Proof.
  intros H. eapply triple_weaken; [exact H | auto | |]; simpl; intuition.
Qed.

(** What a computation that cannot throw returns. *)
Lemma spec_run {A} (Q : A -> Prop) (c : M A) w :
  spec (fun _ => True) Q False c -> exists a w', c w = (Normal a, w') /\ Q a.
Proof.
  intros H. specialize (H w I). destruct (c w) as [[a|e] w']; [|tauto].
  exists a, w'. tauto.
Qed.

(** ** The account manager *)

Section Manager_facts.
Context {RT : Runtime}.

Lemma isRateLimited_eq accountId w :
  isRateLimited accountId w =
  (Normal (limited_at (clock (ticks w)) (accounts_get accountId (manager w))),
   set_manager
     (accounts_set accountId
        (pruned (clock (ticks w)) (accounts_get accountId (manager w))) (manager w))
     (tick w)).
Proof. reflexivity. Qed.

Lemma recent_length now timestamps :
  (length (recent now timestamps) <= length timestamps)%nat.
Proof. apply length_filter. Qed.

Lemma recent_recent_length now earlier timestamps :
  (length (recent now (recent earlier timestamps)) <= length (recent now timestamps))%nat.
Proof.
  unfold recent. induction timestamps as [|ts l IH]; [reflexivity|].
  rewrite (filter_cons (fun ts => earlier - 60000 < ts)).
  rewrite (filter_cons (fun ts => now - 60000 < ts) ts l).
  destruct (decide (earlier - 60000 < ts)), (decide (now - 60000 < ts));
    rewrite ?(filter_cons (fun ts => now - 60000 < ts)); repeat case_decide;
    simpl; lia.
Qed.

Lemma limited_at_pruned now earlier a :
  limited_at now (pruned earlier a) = true -> limited_at now a = true.
Proof.
  unfold limited_at, pruned. simpl. rewrite !bool_decide_eq_true. intros H.
  pose proof (recent_recent_length now earlier (requestTimestamps a)). lia.
Qed.

Lemma free_at_pruned now earlier a :
  limited_at now a = false -> limited_at now (pruned earlier a) = false.
Proof.
  intros H. destruct (limited_at now (pruned earlier a)) eqn:E; [|reflexivity].
  apply limited_at_pruned in E. congruence.
Qed.

(** The rate-limit override shared by [selectLeastLoaded] and
    [selectCostOptimized]. *)
Lemma override_picks_free (rest : M AccountId) w limited free :
  limited <> free ->
  (forall k, (k < 3)%nat ->
     limited_at (clock (ticks w + k)) (accounts_get limited (manager w)) = true) ->
  (forall k, (k < 3)%nat ->
     limited_at (clock (ticks w + k)) (accounts_get free (manager w)) = false) ->
  ((let* c1 := and_not (isRateLimited account1) (isRateLimited account2) in
    if c1 then ret account2 else
    let* c2 := and_not (isRateLimited account2) (isRateLimited account1) in
    if c2 then ret account1 else rest) w).1 = Normal free.
Proof.
  intros Hne Hl Hf.
  pose proof (Hl 0%nat ltac:(lia)) as Hl0. pose proof (Hl 1%nat ltac:(lia)) as Hl1.
  pose proof (Hf 0%nat ltac:(lia)) as Hf0. pose proof (Hf 1%nat ltac:(lia)) as Hf1.
  pose proof (Hf 2%nat ltac:(lia)) as Hf2.
  rewrite Nat.add_0_r in Hl0, Hf0.
  replace (ticks w + 1)%nat with (S (ticks w)) in Hl1, Hf1 by lia.
  replace (ticks w + 2)%nat with (S (S (ticks w))) in Hf2 by lia.
  destruct limited, free; try congruence; cbn [accounts_get] in *.
  - unfold bind at 1. unfold and_not at 1. unfold bind at 1.
    rewrite isRateLimited_eq. cbn [accounts_get]. rewrite Hl0. unfold bind at 1.
    rewrite isRateLimited_eq. cbn. rewrite Hf1. reflexivity.
  - unfold bind at 1. unfold and_not at 1. unfold bind at 1.
    rewrite isRateLimited_eq. cbn [accounts_get]. rewrite Hf0.
    unfold ret at 1. cbv beta iota.
    unfold bind at 1. unfold and_not at 1. unfold bind at 1.
    rewrite isRateLimited_eq. cbn. rewrite Hl1. unfold bind at 1.
    rewrite isRateLimited_eq. cbn.
    rewrite (free_at_pruned _ _ _ Hf2). reflexivity.
Qed.

(** C6. [isRateLimited] answers true exactly when the number of recorded
    request timestamps strictly younger than sixty seconds reaches the
    account's [rateLimit], and leaves exactly those timestamps recorded;
    under the least-loaded and the cost-optimized policy, when one account
    is rate limited and the other is not, [selectAccount] returns the one
    that is not, whatever the load and the cost. *)
Theorem rate_limit_check_and_override :
  (forall accountId w,
     let now := clock (ticks w) in
     let account := accounts_get accountId (manager w) in
     let within := filter (fun ts => now - 60000 < ts) (requestTimestamps account) in
     exists b w',
       isRateLimited accountId w = (Normal b, w')
       /\ (b = true <-> rateLimit (config account) <= Z.of_nat (length within))
       /\ requestTimestamps (accounts_get accountId (manager w')) = within)
  /\ (forall w limited free,
        strategy (manager w) = least_loaded \/ strategy (manager w) = cost_optimized ->
        limited <> free ->
        (forall k, (k < 3)%nat ->
           limited_at (clock (ticks w + k)) (accounts_get limited (manager w)) = true) ->
        (forall k, (k < 3)%nat ->
           limited_at (clock (ticks w + k)) (accounts_get free (manager w)) = false) ->
        (selectAccount w).1 = Normal free).
Proof.
  split.
  - intros accountId w now account within. eexists _, _.
    split; [apply isRateLimited_eq|]. split.
    + unfold limited_at. apply bool_decide_eq_true.
    + destruct accountId; reflexivity.
  - intros w limited free Hs Hne Hl Hf.
    unfold selectAccount, bind, get_manager.
    destruct Hs as [Hs|Hs]; rewrite Hs.
    + apply (override_picks_free _ w limited free Hne Hl Hf).
    + apply (override_picks_free _ w limited free Hne Hl Hf).
Qed.

(** *** Books that only the account manager writes *)

Lemma in_flight_ok_stable : stable in_flight_ok.
Proof.
  split; [intros w H; exact H|].
  intros w accountId now H j. specialize (H j).
  destruct accountId, j; exact H.
Qed.

Lemma round_robin_at_stable k : stable (round_robin_at k).
Proof.
  split; [intros w H; exact H|].
  intros w accountId now H. destruct accountId; exact H.
Qed.

Lemma keeps_isRateLimited I accountId : stable I -> keeps I (isRateLimited accountId).
Proof.
  intros [Ht Hp] w Hw. rewrite isRateLimited_eq.
  apply (Hp (tick w) accountId (clock (ticks w))), Ht, Hw.
Qed.

Lemma keeps_and_not I (a b : M bool) : keeps I a -> keeps I b -> keeps I (and_not a b).
Proof. intros Ha Hb. unfold and_not. eauto 10 with keep. Qed.

Lemma keeps_get_manager I : keeps I get_manager.
Proof. intros w Hw. exact Hw. Qed.

Lemma keeps_bothRateLimited I : stable I -> keeps I bothRateLimited.
Proof.
  intros H. unfold bothRateLimited.
  auto using keeps_isRateLimited with keep.
Qed.

Lemma keeps_getHealthStatus I : stable I -> keeps I getHealthStatus.
Proof.
  intros H. unfold getHealthStatus.
  auto 10 using keeps_isRateLimited, keeps_get_manager with keep.
Qed.

Lemma keeps_selectLeastLoaded I : stable I -> keeps I selectLeastLoaded.
Proof.
  intros H. unfold selectLeastLoaded.
  apply keeps_bind; [auto using keeps_and_not, keeps_isRateLimited|].
  intros c1. apply keeps_if; [auto with keep|].
  apply keeps_bind; [auto using keeps_and_not, keeps_isRateLimited|].
  intros c2. apply keeps_if; [auto with keep|].
  auto using keeps_get_manager with keep.
Qed.

Lemma keeps_selectCostOptimized I : stable I -> keeps I selectCostOptimized.
Proof.
  intros H. unfold selectCostOptimized.
  apply keeps_bind; [auto using keeps_and_not, keeps_isRateLimited|].
  intros c1. apply keeps_if; [auto with keep|].
  apply keeps_bind; [auto using keeps_and_not, keeps_isRateLimited|].
  intros c2. apply keeps_if; [auto with keep|].
  auto using keeps_get_manager with keep.
Qed.

(** *** The in-flight counters *)

Lemma keeps_in_flight_selectAccount : keeps in_flight_ok selectAccount.
Proof.
  intros w Hw. unfold selectAccount, bind, get_manager.
  destruct (strategy (manager w)).
  - intros j. specialize (Hw j). destruct j; exact Hw.
  - apply (keeps_selectLeastLoaded _ in_flight_ok_stable w Hw).
  - apply (keeps_selectCostOptimized _ in_flight_ok_stable w Hw).
  - exact Hw.
Qed.

Lemma keeps_in_flight_getClient accountId : keeps in_flight_ok (getClient accountId).
Proof.
  unfold getClient. apply keeps_bind.
  - destruct accountId; [apply keeps_ret | apply keeps_in_flight_selectAccount].
  - intros selected w Hw j. specialize (Hw j).
    destruct selected, j; simpl in *; lia.
Qed.

Lemma keeps_in_flight_completeRequest accountId tokensUsed cost :
  keeps in_flight_ok (completeRequest accountId tokensUsed cost).
Proof.
  intros w Hw j. specialize (Hw j).
  destruct accountId, j; simpl in *; lia.
Qed.

Lemma keeps_in_flight_setStrategy s : keeps in_flight_ok (setStrategy s).
Proof. intros w Hw j. specialize (Hw j). destruct j; exact Hw. Qed.

Lemma keeps_in_flight_perform {DB : Persistence} c : keeps in_flight_ok (perform c).
Proof.
  destruct c as [|[a|]| | | |]; simpl;
    eauto using keeps_in_flight_selectAccount, keeps_in_flight_getClient,
      keeps_in_flight_completeRequest, keeps_in_flight_setStrategy,
      keeps_bothRateLimited, keeps_getHealthStatus, in_flight_ok_stable with keep.
Qed.

Lemma keeps_in_flight_perform_all {DB : Persistence} calls :
  keeps in_flight_ok (perform_all calls).
Proof.
  induction calls as [|c rest IH]; simpl;
    eauto using keeps_in_flight_perform with keep.
Qed.

(** C7. Whatever sequence of operations is issued to a new account
    manager, the in-flight counter of each account is not negative
    afterwards (hence at every point of the sequence); [completeRequest]
    decrements the counter of its account, stopping at zero, and adds the
    given tokens and cost to the account's totals. *)
Theorem active_requests_never_negative {DB : Persistence} :
  (forall c1 c2 s calls w accountId,
     let w' := (perform_all calls (set_manager (new_AccountManager c1 c2 s) w)).2 in
     0 <= activeRequests (stats (accounts_get accountId (manager w'))))
  /\ (forall accountId tokensUsed cost w,
        let before := stats (accounts_get accountId (manager w)) in
        let after :=
          stats (accounts_get accountId
                   (manager (completeRequest accountId tokensUsed cost w).2)) in
        activeRequests after = Z.max 0 (activeRequests before - 1)
        /\ 0 <= activeRequests after
        /\ totalTokens after = totalTokens before + tokensUsed
        /\ totalCost after = (totalCost before + cost)%Q).
Proof.
  split.
  - intros c1 c2 s calls w accountId w'.
    pose proof (keeps_in_flight_perform_all calls
                  (set_manager (new_AccountManager c1 c2 s) w)) as H.
    subst w'. destruct (perform_all calls _) as [[chosen|e] w'].
    + apply H. intros j. destruct j; simpl; lia.
    + exfalso. apply H. intros j. destruct j; simpl; lia.
  - intros accountId tokensUsed cost w. destruct accountId; simpl; repeat split; lia.
Qed.

(** *** Round robin *)

Lemma position_of_index (k : nat) :
  accounts !! (k mod length accounts)%nat
  = Some (if Z.eqb (Z.of_nat k mod 2) 0 then account1 else account2).
Proof.
  change (length accounts) with 2%nat.
  replace (Z.of_nat k mod 2) with (Z.of_nat (k mod 2)) by (rewrite Nat2Z.inj_mod; reflexivity).
  pose proof (Nat.mod_upper_bound k 2 ltac:(lia)) as Hlt.
  destruct (k mod 2)%nat as [|[|r]] eqn:E; [reflexivity | reflexivity | lia].
Qed.

Lemma cycle_from_nil k : cycle_from k [].
Proof. intros n a H. rewrite lookup_nil in H. discriminate. Qed.

Lemma cycle_from_app k chosen later :
  cycle_from k chosen -> cycle_from (k + length chosen) later ->
  cycle_from k (chosen ++ later).
Proof.
  intros H1 H2 n a H. destruct (decide (n < length chosen)%nat) as [Hlt|Hge].
  - rewrite lookup_app_l in H by exact Hlt. apply (H1 n a H).
  - rewrite lookup_app_r in H by lia.
    specialize (H2 _ _ H).
    replace (k + length chosen + (n - length chosen))%nat with (k + n)%nat in H2 by lia.
    exact H2.
Qed.

Lemma selects_nothing k {A} (c : M A) :
  keeps (round_robin_at k) c -> selects_in_cycle k (let* _ := c in ret []).
Proof.
  intros H. eapply triple_bind; [exact H|]. intros ?. apply triple_ret.
  intros w Hw. simpl. rewrite Nat.add_0_r. split; [exact Hw | apply cycle_from_nil].
Qed.

Lemma selectAccount_in_cycle k :
  triple (round_robin_at k) selectAccount
    (fun a w => round_robin_at (k + 1) w /\ accounts !! (k mod length accounts)%nat = Some a)
    (fun _ _ => False).
Proof.
  intros w [Hs Hk]. unfold selectAccount, bind, get_manager. rewrite Hs.
  unfold selectRoundRobin, bind, get_manager, put_manager, ret. cbn. rewrite Hk.
  split; [split; [exact Hs | cbn; lia]|].
  apply position_of_index.
Qed.

Lemma cycle_from_singleton k a :
  accounts !! (k mod length accounts)%nat = Some a -> cycle_from k [a].
Proof.
  intros H n b Hn. destruct n as [|n]; [|rewrite lookup_cons, lookup_nil in Hn; discriminate].
  simpl in Hn. rewrite Nat.add_0_r. congruence.
Qed.

Lemma keeps_round_robin_getClient_tail k selected :
  keeps (round_robin_at k)
    (let* account := get_account selected in
     let* pushed := Date_now in
     let* used := Date_now in
     let* _ := put_account selected
       {| config := config account;
          stats := {| totalRequests := totalRequests (stats account) + 1;
                      totalTokens := totalTokens (stats account);
                      totalCost := totalCost (stats account);
                      activeRequests := activeRequests (stats account) + 1;
                      lastUsed := used |};
          requestTimestamps := requestTimestamps account ++ [pushed] |} in
     ret selected).
Proof. intros w Hw. destruct selected; exact Hw. Qed.

Lemma keeps_round_robin_completeRequest k accountId tokensUsed cost :
  keeps (round_robin_at k) (completeRequest accountId tokensUsed cost).
Proof. intros w Hw. destruct accountId; exact Hw. Qed.

Lemma perform_in_cycle {DB : Persistence} k c :
  sets_strategy c = false -> selects_in_cycle k (perform c).
Proof.
  destruct c as [|[a|]| | | |]; simpl; intros Hc; try discriminate.
  - eapply triple_bind; [apply selectAccount_in_cycle|].
    intros a. apply triple_ret. intros w [Hw Ha].
    split; [exact Hw | apply cycle_from_singleton, Ha].
  - apply selects_nothing. unfold getClient.
    apply keeps_bind; [apply keeps_ret|].
    intros selected. apply keeps_round_robin_getClient_tail.
  - unfold getClient.
    eapply triple_bind;
      [eapply triple_bind; [apply selectAccount_in_cycle|]|].
    + intros selected w [Hw Ha].
      instantiate (1 := fun a w => round_robin_at (k + 1) w
                                   /\ accounts !! (k mod length accounts)%nat = Some a).
      destruct selected; split; solve [exact Hw | exact Ha].
    + intros a. apply triple_ret. intros w [Hw Ha].
      split; [exact Hw | apply cycle_from_singleton, Ha].
  - apply selects_nothing, keeps_round_robin_completeRequest.
  - apply selects_nothing, keeps_bothRateLimited, round_robin_at_stable.
  - apply selects_nothing, keeps_getHealthStatus, round_robin_at_stable.
Qed.

Lemma perform_all_in_cycle {DB : Persistence} calls : forall k,
  forallb (fun c => negb (sets_strategy c)) calls = true ->
  selects_in_cycle k (perform_all calls).
Proof.
  induction calls as [|c rest IH]; intros k Hcalls; simpl.
  - apply triple_ret. intros w Hw. simpl. rewrite Nat.add_0_r.
    split; [exact Hw | apply cycle_from_nil].
  - simpl in Hcalls. apply andb_prop in Hcalls as [Hc Hrest].
    apply negb_true_iff in Hc.
    eapply triple_bind; [apply (perform_in_cycle k c Hc)|].
    intros chosen. simpl.
    intros w [Hw Hchosen]. unfold bind.
    pose proof (IH (k + length chosen)%nat Hrest w Hw) as H.
    destruct (perform_all rest w) as [[later|e] w']; [|exact H].
    destruct H as [Hw' Hlater]. simpl. split.
    + rewrite length_app, Nat.add_assoc. exact Hw'.
    + apply cycle_from_app; assumption.
Qed.

(** C8. Under the round-robin policy the selections cycle through the
    account list: whatever operations (other than a change of policy) are
    issued to a new account manager, and whatever load, rate-limit and cost
    state they produce, the [n]-th selection made by [selectAccount],
    counting from zero, is the account at position [n] modulo the number of
    accounts. *)
Theorem round_robin_cycles {DB : Persistence} c1 c2 calls w :
  forallb (fun c => negb (sets_strategy c)) calls = true ->
  exists chosen w',
    perform_all calls (set_manager (new_AccountManager c1 c2 round_robin) w)
    = (Normal chosen, w')
    /\ forall n a, chosen !! n = Some a ->
         accounts !! (n mod length accounts)%nat = Some a.
Proof.
  intros Hcalls.
  pose proof (perform_all_in_cycle calls 0 Hcalls
                (set_manager (new_AccountManager c1 c2 round_robin) w)) as H.
  destruct (perform_all calls _) as [[chosen|e] w'].
  - exists chosen, w'. split; [reflexivity|]. apply H. split; reflexivity.
  - exfalso. apply H. split; reflexivity.
Qed.

End Manager_facts.

(** ** The engine *)

Section Engine_facts.
Context {RT : Runtime} {DB : Persistence}.

Lemma safe_run {A} (c : M A) w : safe c -> exists a w', c w = (Normal a, w').
Proof.
  intros H. specialize (H w I). destruct (c w) as [[a|e] w']; [eauto | contradiction].
Qed.

Lemma safe_try {A} (c : M A) (h : JsThrown -> M A) :
  (forall e, safe (h e)) -> safe (try_catch c h).
Proof.
  intros Hh w _. unfold try_catch. destruct (c w) as [[a|e] w']; [exact I|].
  apply (Hh e w' I).
Qed.

Lemma safe_ret {A} (a : A) : safe (ret a).
Proof. apply keeps_ret. Qed.

Lemma safe_bind {A B} (c : M A) (k : A -> M B) :
  safe c -> (forall a, safe (k a)) -> safe (bind c k).
Proof. apply keeps_bind. Qed.

Lemma safe_if {A} (b : bool) (c1 c2 : M A) :
  safe c1 -> safe c2 -> safe (if b then c1 else c2).
Proof. apply keeps_if. Qed.

Lemma safe_Date_now : safe Date_now.
Proof. intros w _. exact I. Qed.

Lemma safe_uuidv4 : safe uuidv4.
Proof. intros w _. exact I. Qed.

Lemma safe_observe o : safe (observe o).
Proof. intros w _. exact I. Qed.

Lemma safe_update_active f : safe (update_active f).
Proof. intros w _. exact I. Qed.

Lemma stable_True : stable (fun _ => True).
Proof. split; auto. Qed.

Lemma safe_selectAccount : safe selectAccount.
Proof.
  intros w _. unfold selectAccount, bind, get_manager.
  destruct (strategy (manager w)); try exact I.
  - apply (keeps_selectLeastLoaded _ stable_True w I).
  - apply (keeps_selectCostOptimized _ stable_True w I).
Qed.

Lemma safe_getClient accountId : safe (getClient accountId).
Proof.
  unfold getClient. apply keeps_bind.
  - destruct accountId; [apply keeps_ret | apply safe_selectAccount].
  - intros selected w _. exact I.
Qed.

Lemma safe_completeRequest accountId tokensUsed cost :
  safe (completeRequest accountId tokensUsed cost).
Proof. intros w _. exact I. Qed.

Lemma safe_bothRateLimited : safe bothRateLimited.
Proof. apply keeps_bothRateLimited, stable_True. Qed.

Lemma safe_status_update id status result :
  accepts_status_updates -> safe (db_call (updateAgentStatus id status result)).
Proof. intros H w _. unfold db_call. rewrite H. exact I. Qed.

Lemma safe_registration id type parent_id account status task created_at :
  accepts_registrations ->
  safe (db_call (saveAgent id type parent_id account status task created_at)).
Proof. intros H w _. unfold db_call. rewrite H. exact I. Qed.

Lemma safe_db_call c : accepts_all -> safe (db_call c).
Proof. intros H w _. unfold db_call. rewrite H. exact I. Qed.

Create HintDb safety discriminated.
#[local] Hint Resolve safe_ret safe_bind safe_if safe_try safe_Date_now safe_uuidv4
  safe_observe safe_update_active safe_getClient safe_completeRequest
  safe_bothRateLimited safe_status_update safe_registration safe_db_call : safety.

(** *** The sub-agent *)

Lemma safe_execute_catch agent startTime accountId error :
  accepts_status_updates -> safe (execute_catch agent startTime accountId error).
Proof. intros H. unfold execute_catch. auto 10 with safety. Qed.

Lemma safe_execute_poll agent startTime : safe (execute_poll agent startTime).
Proof.
  unfold execute_poll. auto with safety.
Qed.

Lemma safe_execute_acquire agent startTime :
  accepts_status_updates -> accepts_registrations ->
  safe (execute_acquire agent startTime).
Proof.
  intros Hs Hr. unfold execute_acquire.
  auto 10 using safe_execute_catch with safety.
Qed.

Lemma safe_execute_reply agent startTime accountId model o :
  accepts_status_updates -> safe (execute_reply agent startTime accountId model o).
Proof. intros Hs. apply safe_try. intros e. apply safe_execute_catch, Hs. Qed.

Lemma safe_execute_step ev wk :
  accepts_status_updates -> accepts_registrations -> safe (execute_step ev wk).
Proof.
  intros Hs Hr. destruct wk, ev; simpl;
    auto using safe_execute_poll, safe_execute_acquire, safe_execute_reply with safety.
Qed.

Lemma execute_reply_failed agent startTime accountId model o e w :
  failure_of o = Some e ->
  execute_reply agent startTime accountId model o w
  = execute_catch agent startTime accountId e w.
Proof.
  intros Ho. unfold execute_reply, try_catch, bind at 1.
  destruct o as [e'|r]; simpl in Ho.
  - injection Ho as ->. reflexivity.
  - cbn [awaited ret]. unfold bind at 1, lift at 1.
    destruct (first_content r) as [found|e']; [discriminate|].
    injection Ho as ->. reflexivity.
Qed.


(** *** decomposeTask *)

Lemma js_get_throws st key :
  st = JNull \/ st = JUndefined -> exists e, js_get st key = Throw e.
Proof. intros [->| ->]; simpl; eauto. Qed.

Lemma js_get_normal st key :
  st <> JNull -> st <> JUndefined -> exists v, js_get st key = Normal v.
Proof. destruct st; simpl; intros; try congruence; eauto. Qed.

Lemma map_subTasks_null task items : forall index w,
  JNull ∈ items \/ JUndefined ∈ items ->
  exists e w', map_subTasks task index items w = (Throw e, w').
Proof.
  induction items as [|st rest IH]; intros index w Hbad.
  - destruct Hbad as [H|H]; apply elem_of_nil in H; contradiction.
  - simpl. unfold bind at 1. simpl.
    assert ((st = JNull \/ st = JUndefined) \/ (st <> JNull /\ st <> JUndefined))
      as [Hst|[H1 H2]] by (destruct st; auto; right; split; discriminate).
    + destruct (js_get_throws st "description" Hst) as [e He].
      unfold bind at 1, lift at 1. rewrite He. eauto.
    + destruct (js_get_normal st "description" H1 H2) as [d Hd].
      destruct (js_get_normal st "priority" H1 H2) as [p Hp].
      destruct (js_get_normal st "estimatedComplexity" H1 H2) as [c Hc].
      unfold bind at 1, lift at 1. rewrite Hd.
      unfold bind at 1, lift at 1. rewrite Hp.
      unfold bind at 1, lift at 1. rewrite Hc.
      unfold bind at 1.
      assert (JNull ∈ rest \/ JUndefined ∈ rest) as Hrest.
      { destruct Hbad as [H|H]; apply elem_of_cons in H as [H|H];
          solve [congruence | auto]. }
      edestruct (IH (S index)) as (e & w' & ->); [exact Hrest|]. eauto.
Qed.

Lemma map_subTasks_length task items : forall index w subTasks w',
  map_subTasks task index items w = (Normal subTasks, w') ->
  length subTasks = length items.
Proof.
  induction items as [|st rest IH]; intros index w subTasks w' H; simpl in H.
  - injection H as <- _. reflexivity.
  - unfold bind at 1 in H. simpl in H.
    unfold bind at 1, lift at 1 in H. destruct (js_get st "description"); [|discriminate].
    unfold bind at 1, lift at 1 in H. destruct (js_get st "priority"); [|discriminate].
    unfold bind at 1, lift at 1 in H.
    destruct (js_get st "estimatedComplexity"); [|discriminate].
    unfold bind at 1 in H.
    destruct (map_subTasks task (S index) rest _) as [[l|e] w''] eqn:E; [|discriminate].
    injection H as <- _. simpl. f_equal. eapply IH, E.
Qed.

Lemma decomposeTask_reply_unusable task accountId o w :
  unusable o -> falls_back task (decomposeTask_reply task accountId o w).
Proof.
  intros Ho. unfold falls_back, decomposeTask_reply, try_catch.
  destruct Ho as [o e Ho|r found e Hf Hp|r found v Hf Hp Hv|r found items Hf Hp Hbad].
  - destruct o as [e'|r]; simpl in Ho.
    + simpl. eauto.
    + unfold bind at 1. cbn [awaited ret]. unfold bind at 1. cbn [completeRequest].
      destruct (completeRequest accountId _ _ w) as [[[]|e'] w1]; [|simpl; eauto].
      unfold bind at 1, lift at 1.
      destruct (first_content r) as [found|e']; [discriminate|]. simpl. eauto.
  - unfold bind at 1. cbn [awaited ret]. unfold bind at 1.
    destruct (completeRequest accountId _ _ w) as [[[]|e'] w1]; [|simpl; eauto].
    unfold bind at 1, lift at 1. rewrite Hf.
    unfold bind at 1, lift at 1. rewrite Hp. simpl. eauto.
  - unfold bind at 1. cbn [awaited ret]. unfold bind at 1.
    destruct (completeRequest accountId _ _ w) as [[[]|e'] w1]; [|simpl; eauto].
    unfold bind at 1, lift at 1. rewrite Hf.
    unfold bind at 1, lift at 1. rewrite Hp.
    destruct v; simpl; eauto. exfalso. eapply Hv. reflexivity.
  - unfold bind at 1. cbn [awaited ret]. unfold bind at 1.
    destruct (completeRequest accountId _ _ w) as [[[]|e'] w1]; [|simpl; eauto].
    unfold bind at 1, lift at 1. rewrite Hf.
    unfold bind at 1, lift at 1. rewrite Hp. cbn [subTasksData_map].
    destruct (map_subTasks_null task items 0 w1 Hbad) as (e & w2 & ->).
    simpl. eauto.
Qed.

(** *** Invariants over the observations *)

Section Observed.
Variable I : World -> Prop.
Hypothesis about : steady I.

Ltac undisturbed Hw := split; [eapply about; [| |exact Hw]; reflexivity | exact Logic.I].

Lemma spec_Date_now E : spec I any E Date_now.
Proof. intros w Hw. undisturbed Hw. Qed.

Lemma spec_uuidv4 E : spec I any E uuidv4.
Proof. intros w Hw. undisturbed Hw. Qed.

Lemma spec_update_active E f : spec I any E (update_active f).
Proof. intros w Hw. undisturbed Hw. Qed.

Lemma spec_get_manager E : spec I any E get_manager.
Proof. intros w Hw. split; [exact Hw | exact Logic.I]. Qed.

Hint Resolve spec_ret spec_bind spec_if spec_try spec_throw spec_lift_any
  spec_Date_now spec_uuidv4 spec_update_active spec_get_manager : core.
Hint Unfold any : core.

Lemma spec_isRateLimited E accountId : spec I any E (isRateLimited accountId).
Proof. intros w Hw. rewrite isRateLimited_eq. destruct accountId; undisturbed Hw. Qed.

Hint Resolve spec_isRateLimited : core.

Lemma spec_and_not E a b : spec I any E a -> spec I any E b -> spec I any E (and_not a b).
Proof. intros Ha Hb. unfold and_not. auto 10. Qed.

Hint Resolve spec_and_not : core.

Lemma spec_bothRateLimited E : spec I any E bothRateLimited.
Proof. unfold bothRateLimited. auto 10. Qed.

Lemma spec_selectRoundRobin E : spec I any E selectRoundRobin.
Proof. intros w Hw. undisturbed Hw. Qed.

Lemma spec_selectAccount E : spec I any E selectAccount.
Proof.
  unfold selectAccount. apply spec_bind; [auto|]. intros m.
  destruct (strategy m); [| | |auto].
  - apply spec_selectRoundRobin.
  - unfold selectLeastLoaded. auto 20.
  - unfold selectCostOptimized. auto 20.
Qed.

Hint Resolve spec_selectAccount spec_bothRateLimited : core.

Lemma spec_getClient E accountId : spec I any E (getClient accountId).
Proof.
  unfold getClient. apply spec_bind; [destruct accountId; auto|].
  intros selected w Hw. destruct selected; undisturbed Hw.
Qed.

Lemma spec_completeRequest E accountId tokensUsed cost :
  spec I any E (completeRequest accountId tokensUsed cost).
Proof. intros w Hw. destruct accountId; undisturbed Hw. Qed.

Lemma spec_db_call E c : E \/ accepts_all -> spec I any E (db_call c).
Proof.
  intros HE w Hw. unfold db_call. destruct (db_fault (database w) c) eqn:Hc.
  - split; [exact Hw|]. destruct HE as [HE|HE]; [exact HE|].
    rewrite HE in Hc. discriminate.
  - undisturbed Hw.
Qed.

Lemma spec_db_call_may c : spec I any True (db_call c).
Proof.
  intros w Hw. unfold db_call. destruct (db_fault (database w) c).
  - split; [exact Hw | exact Logic.I].
  - undisturbed Hw.
Qed.

Hint Resolve spec_getClient spec_completeRequest spec_db_call spec_db_call_may : core.


(** *** The sub-agent keeps its sub-task *)

Lemma spec_execute_catch E agent startTime accountId error t :
  E \/ accepts_all ->
  SubAgent.task agent = t ->
  spec I (fun r => SubAgentResult.taskId r = SubAgentTask.id t) E
    (execute_catch agent startTime accountId error).
Proof.
  intros HE <-. unfold execute_catch. auto 10.
Qed.

Lemma spec_execute_poll E agent startTime :
  spec I (fun wk => worker_task wk = Some (SubAgent.task agent)) E
    (execute_poll agent startTime).
Proof.
  unfold execute_poll. apply spec_bind; [auto|]. intros [|]; apply spec_ret; reflexivity.
Qed.

Lemma spec_execute_acquire E agent startTime :
  E \/ accepts_all ->
  spec I (tracks (SubAgent.task agent)) E (execute_acquire agent startTime).
Proof.
  intros HE. unfold execute_acquire.
  apply spec_bind; [auto|]. intros accountId.
  apply spec_bind; [auto|]. intros created.
  apply spec_bind; [auto|]. intros ?.
  apply spec_try.
  - apply spec_bind; [auto|]. intros cid.
    apply spec_bind; [auto|]. intros stamp.
    apply spec_bind; [auto|]. intros ?.
    apply spec_ret. reflexivity.
  - intros e. eapply spec_bind_with; [apply spec_execute_catch; [exact HE | reflexivity]|].
    intros r Hr. apply spec_ret. exact Hr.
Qed.

Lemma spec_awaited o : spec I any True (awaited o).
Proof. destruct o; simpl; auto. Qed.

Lemma spec_execute_reply E agent startTime accountId model o :
  E \/ accepts_all ->
  spec I (fun r => SubAgentResult.taskId r = SubAgentTask.id (SubAgent.task agent)) E
    (execute_reply agent startTime accountId model o).
Proof.
  intros HE. unfold execute_reply. apply spec_try.
  - apply spec_bind; [apply spec_awaited|]. intros response.
    apply spec_bind; [auto|]. intros content.
    apply spec_bind; [auto|]. intros ?.
    apply spec_bind; [auto|]. intros cid.
    apply spec_bind; [auto|]. intros stamp.
    apply spec_bind; [auto|]. intros ?.
    apply spec_bind; [auto|]. intros ?.
    apply spec_bind; [auto|]. intros finished.
    apply spec_ret. reflexivity.
  - intros e. apply spec_execute_catch; [exact HE | reflexivity].
Qed.

Lemma spec_execute_step E ev wk t :
  E \/ accepts_all -> tracks t wk -> spec I (tracks t) E (execute_step ev wk).
Proof.
  intros HE Ht. destruct wk as [agent st|agent st|agent st acct model|r]; simpl in Ht.
  - injection Ht as <-. destruct ev; simpl; try (apply spec_ret; reflexivity).
    eapply spec_weaken; [apply (spec_execute_poll E) | | auto].
    intros [] H; solve [exact H | discriminate].
  - injection Ht as <-. destruct ev; simpl; try (apply spec_ret; reflexivity).
    apply spec_execute_acquire, HE.
  - injection Ht as <-. destruct ev; simpl; try (apply spec_ret; reflexivity).
    eapply spec_bind_with; [apply spec_execute_reply, HE|].
    intros r Hr. apply spec_ret. exact Hr.
  - destruct ev; apply spec_ret; exact Ht.
Qed.

Lemma spec_execute_begin E agent :
  spec I (fun wk => worker_task wk = Some (SubAgent.task agent)) E (execute_begin agent).
Proof.
  unfold execute_begin. apply spec_bind; [auto|]. intros startTime.
  apply spec_execute_poll.
Qed.

End Observed.

Lemma steady_observed tr : steady (fun w => observed w = tr).
Proof. intros w w' H _ Hw. congruence. Qed.

Lemma steady_True : steady (fun _ => True).
Proof. intros w w' _ _ _. exact I. Qed.

Lemma about_configs_steady I : about_configs I -> steady I.
Proof. intros H w w' _ Hc. apply (H w w' Hc). Qed.

Lemma worker_task_tracks t wk : worker_task wk = Some t -> tracks t wk.
Proof. destruct wk; simpl; intros H; solve [exact H | discriminate]. Qed.

Lemma worker_task_not_done t wk : worker_task wk = Some t -> is_done wk = false.
Proof. destruct wk; simpl; intros H; solve [reflexivity | discriminate]. Qed.

(** *** Spawning and resuming sub-agents *)

Lemma spawnSubAgent_observed self t tr :
  triple (fun w => observed w = tr) (spawnSubAgent self t)
    (fun wk w => observed w = Spawned t :: tr /\ worker_task wk = Some t)
    (fun _ _ => False).
Proof.
  unfold spawnSubAgent.
  eapply triple_bind with (R := fun _ w => observed w = Spawned t :: tr).
  - intros w Hw. simpl. rewrite Hw. reflexivity.
  - intros ?.
    pose proof (steady_observed (Spawned t :: tr)) as Ha.
    eapply triple_weaken with (E' := fun _ w => observed w = Spawned t :: tr /\ False);
      [|intros w H; exact H|intros wk w H; exact H|intros e w [_ []]].
    apply spec_bind; [apply spec_uuidv4, Ha|]. intros id.
    apply spec_bind; [apply spec_update_active, Ha|]. intros ?.
    apply (spec_execute_begin _ Ha).
Qed.

Lemma spawn_each_observed self ts : forall tr,
  triple (fun w => observed w = tr) (spawn_each self ts)
    (fun wks w => observed w = (rev (map Spawned ts) ++ tr)%list
                  /\ Forall2 (fun t wk => worker_task wk = Some t) ts wks)
    (fun _ _ => False).
Proof.
  induction ts as [|t rest IH]; intros tr; simpl.
  - apply triple_ret. intros w Hw. split; [exact Hw | constructor].
  - eapply triple_bind; [apply spawnSubAgent_observed|].
    intros wk w [Hw Hwk]. unfold bind.
    pose proof (IH (Spawned t :: tr) w Hw) as H.
    destruct (spawn_each self rest w) as [[wks|e] w']; [|exact H].
    destruct H as [Hw' Hwks]. simpl. split.
    + rewrite Hw', <- app_assoc. reflexivity.
    + constructor; assumption.
Qed.

Lemma spawned_step_observed E ev wk t tr :
  E \/ accepts_all -> tracks t wk ->
  triple (fun w => observed w = tr) (spawned_step ev wk)
    (fun wk' w =>
       (tracks t wk' /\ (is_done wk = true -> is_done wk' = true))
       /\ observed w = (if is_done wk' && negb (is_done wk) then Settled t :: tr else tr))
    (fun _ w => E /\ is_done wk = false /\ observed w = Settled t :: tr).
Proof.
  intros HE Ht. unfold spawned_step.
  destruct (worker_task wk) as [t'|] eqn:Hwk.
  - assert (t' = t) as ->.
    { destruct wk; simpl in *; congruence. }
    pose proof (worker_task_not_done _ _ Hwk) as Hnd. rewrite Hnd.
    eapply triple_try with (R := fun _ w => E /\ observed w = tr).
    + eapply triple_bind with (R := fun wk' w => observed w = tr /\ tracks t wk').
      * eapply triple_weaken;
          [apply (spec_execute_step _ (steady_observed tr) E ev wk t HE Ht)
          |intros w H; exact H|intros a w H; exact H
          |intros e w [H1 H2]; split; assumption].
      * intros wk' w [Hw Hwk']. destruct wk' as [| | |r]; simpl;
          (split; [split; [exact Hwk' | congruence] | rewrite ?Hw; reflexivity]).
    + intros e w [He Hw]. simpl. rewrite Hw. auto.
  - destruct wk; try discriminate. apply triple_ret. intros w Hw.
    simpl. split; [split; [exact Ht | reflexivity] | exact Hw].
Qed.

(** *** Promise.all and the bookkeeping of settled sub-agents *)

Lemma Promise_all_done ts wks : forall rs,
  Forall2 tracks ts wks -> Promise_all wks = Some rs ->
  done_tasks ts wks = ts
  /\ map SubAgentResult.taskId rs = map SubAgentTask.id ts.
Proof.
  intros rs H. revert rs. induction H as [|t wk ts wks Ht _ IH]; intros rs Hall.
  - injection Hall as <-. split; reflexivity.
  - simpl in Hall. destruct wk as [| | |r]; try discriminate.
    destruct (Promise_all wks) as [rs'|]; [|discriminate].
    injection Hall as <-. destruct (IH rs' eq_refl) as [H1 H2].
    simpl in *. rewrite H1, H2, Ht. split; reflexivity.
Qed.

Lemma done_tasks_pending ts wks :
  Forall2 (fun t wk => worker_task wk = Some t) ts wks -> done_tasks ts wks = [].
Proof.
  induction 1 as [|t wk ts wks Ht _ IH]; [reflexivity|].
  simpl. rewrite (worker_task_not_done _ _ Ht). exact IH.
Qed.

Lemma done_tasks_insert ts wks : forall i t wk wk',
  length ts = length wks ->
  ts !! i = Some t -> wks !! i = Some wk ->
  done_tasks ts (<[i:=wk']> wks)
  ≡ₚ (if is_done wk' && negb (is_done wk) then t :: done_tasks ts wks
      else if is_done wk && negb (is_done wk') then done_tasks ts (<[i:=wk']> wks)
      else done_tasks ts wks).
Proof.
  revert wks. induction ts as [|t0 ts IH]; intros wks i t wk wk' Hlen Ht Hwk.
  - rewrite lookup_nil in Ht. discriminate.
  - destruct wks as [|wk0 wks]; [discriminate|]. destruct i as [|i]; simpl in *.
    + injection Ht as ->. injection Hwk as ->.
      destruct (is_done wk'), (is_done wk); reflexivity.
    + specialize (IH wks i t wk wk' ltac:(lia) Ht Hwk).
      destruct (is_done wk' && negb (is_done wk)) eqn:E1;
        [|destruct (is_done wk && negb (is_done wk')) eqn:E2];
        destruct (is_done wk0); rewrite ?IH; try reflexivity.
      apply Permutation_swap.
Qed.

Lemma Forall2_tracks_insert ts wks i t wk' :
  Forall2 tracks ts wks -> ts !! i = Some t -> tracks t wk' ->
  Forall2 tracks ts (<[i:=wk']> wks).
Proof.
  intros H Ht Hwk'. rewrite <- (list_insert_id ts i t Ht).
  apply Forall2_insert; assumption.
Qed.

Lemma settled_tasks_app l1 l2 :
  settled_tasks (l1 ++ l2) = (settled_tasks l1 ++ settled_tasks l2)%list.
Proof.
  induction l1 as [|[t|t] l1 IH]; simpl; [reflexivity | exact IH | rewrite IH; reflexivity].
Qed.

Lemma settled_tasks_all (P : SubAgentTask.t -> Prop) l :
  Forall (fun o => P (obs_task o)) l -> Forall P (settled_tasks l).
Proof.
  induction 1 as [|[t|t] l Ho _ IH]; simpl; [constructor | exact IH | constructor; assumption].
Qed.

Lemma filter_all {A} (f : A -> bool) l : Forall (fun x => f x = true) l -> List.filter f l = l.
Proof. induction 1 as [|x l Hx _ IH]; simpl; [reflexivity | rewrite Hx, IH; reflexivity]. Qed.

Lemma filter_none {A} (f : A -> bool) l : Forall (fun x => f x = false) l -> List.filter f l = [].
Proof. induction 1 as [|x l Hx _ IH]; simpl; [reflexivity | rewrite Hx, IH; reflexivity]. Qed.

Lemma filter_holds {A} (f : A -> bool) l : Forall (fun x => f x = true) (List.filter f l).
Proof.
  induction l as [|x l IH]; simpl; [constructor|].
  destruct (f x) eqn:E; [constructor; assumption | exact IH].
Qed.

Lemma Forall_spawned (P : SubAgentTask.t -> Prop) ts :
  Forall P ts -> Forall (fun o => P (obs_task o)) (rev (map Spawned ts)).
Proof.
  intros H. apply Forall_forall. intros o Ho.
  apply list_elem_of_In, in_rev, in_map_iff in Ho as (t & <- & Ht).
  rewrite Forall_forall in H. apply H, list_elem_of_In, Ht.
Qed.

Lemma settled_tasks_spawned ts : settled_tasks (rev (map Spawned ts)) = [].
Proof.
  induction ts as [|t ts IH]; [reflexivity|].
  simpl. rewrite settled_tasks_app, IH. reflexivity.
Qed.

(** *** The adaptive strategy *)

Lemma not_simple_filter subTasks t :
  t ∈ List.filter not_simple subTasks -> is_simple t = false.
Proof.
  intros H. apply list_elem_of_In, filter_In in H as [_ H].
  unfold not_simple in H. apply negb_true_iff in H. exact H.
Qed.

Lemma simple_filter subTasks t :
  t ∈ List.filter is_simple subTasks -> is_simple t = true.
Proof. intros H. apply list_elem_of_In, filter_In in H as [_ H]. exact H. Qed.

Lemma adaptive_loop_inv self subTasks start before after sr cr finished rest w :
  observed w = (after ++ before ++ start)%list ->
  Forall (fun o => is_simple (obs_task o) = true) before ->
  Forall (fun o => is_simple (obs_task o) = false) after ->
  settled_tasks before ≡ₚ List.filter is_simple subTasks ->
  map SubAgentResult.taskId sr = map SubAgentTask.id (List.filter is_simple subTasks) ->
  List.filter not_simple subTasks = (finished ++ rest)%list ->
  map SubAgentResult.taskId cr = map SubAgentTask.id finished ->
  adaptive_inv subTasks start (adaptive_loop self sr cr rest w).
Proof.
  intros Hw Hb Ha Hs Hsr Hc Hcr. destruct rest as [|t rest]; simpl.
  - exists before, after. simpl. repeat split; try assumption.
    rewrite app_nil_r in Hc. rewrite Hc, map_app, Hsr, Hcr. reflexivity.
  - pose proof (spawnSubAgent_observed self t _ w eq_refl) as H.
    unfold bind. destruct (spawnSubAgent self t w) as [[wk|e] w']; [|contradiction].
    destruct H as [Hw' Hwk]. exists before, (Spawned t :: after). simpl.
    split; [rewrite Hw', Hw; reflexivity|]. split; [exact Hb|]. split.
    + constructor; [|exact Ha]. simpl. apply (not_simple_filter subTasks).
      rewrite Hc. apply elem_of_app. right. left.
    + split; [exact Hs|]. split; [exact Hsr|]. exists finished, t. auto.
Qed.

Lemma executeAdaptive_inv self subTasks w :
  adaptive_inv subTasks (observed w) (executeAdaptive self subTasks w).
Proof.
  unfold executeAdaptive.
  pose proof (spawn_each_observed self (List.filter is_simple subTasks) _ w eq_refl) as H.
  unfold bind.
  destruct (spawn_each self (List.filter is_simple subTasks) w) as [[promises|e] w'];
    [|contradiction].
  destruct H as [Hw' Hp].
  assert (Forall2 tracks (List.filter is_simple subTasks) promises) as Ht.
  { eapply Forall2_impl; [exact Hp|]. intros t wk. apply worker_task_tracks. }
  assert (Forall (fun o => is_simple (obs_task o) = true)
            (rev (map Spawned (List.filter is_simple subTasks)))) as Hb.
  { apply (Forall_spawned (fun t => is_simple t = true)), filter_holds. }
  destruct (Promise_all promises) as [simpleResults|] eqn:Hall.
  - destruct (Promise_all_done _ _ _ Ht Hall) as [Hd Hr].
    rewrite (done_tasks_pending _ _ Hp) in Hd.
    eapply (adaptive_loop_inv self subTasks (observed w)
              (rev (map Spawned (List.filter is_simple subTasks))) [] _ _ []).
    + exact Hw'.
    + exact Hb.
    + constructor.
    + rewrite settled_tasks_spawned, <- Hd. reflexivity.
    + exact Hr.
    + reflexivity.
    + reflexivity.
  - exists (rev (map Spawned (List.filter is_simple subTasks))), []. simpl.
    split; [exact Hw'|]. split; [exact Hb|]. split; [constructor|].
    split; [reflexivity|]. split; [reflexivity|]. split; [exact Ht|].
    rewrite settled_tasks_spawned, (done_tasks_pending _ _ Hp). reflexivity.
Qed.

Lemma strategy_react_inv self subTasks start st ev :
  adaptive_inv subTasks start st -> adaptive_inv subTasks start (strategy_react self st ev).
Proof.
  intros (before & after & Hw & Hb & Ha & Hst). destruct ev as [i ev].
  destruct st as [[[suspended|results]|e] w]; simpl in Hw, Hst;
    try (exists before, after; auto; fail).
  destruct suspended as [|
                         |promises complexTasks
                         |simpleResults complexResults current rest];
    try contradiction; cbn [strategy_react strategy_step fst snd].
  - destruct Hst as (-> & -> & Ht & Hs). simpl in Hw.
    destruct (promises !! i) as [wk|] eqn:Hwk.
    2:{ exists before, []. simpl. auto 10. }
    destruct (Forall2_lookup_r _ _ _ _ _ Ht Hwk) as (t & Hti & Htwk).
    assert (is_simple t = true) as Hsimple.
    { apply (simple_filter subTasks), list_elem_of_lookup. eauto. }
    pose proof (spawned_step_observed True ev wk t _ (or_introl Logic.I) Htwk w eq_refl)
      as H.
    unfold bind. destruct (spawned_step ev wk w) as [[wk'|e] w'].
    2:{ destruct H as (_ & _ & Hw'). exists (Settled t :: before), []. simpl.
        split; [rewrite Hw', Hw; reflexivity|]. split; [|auto].
        constructor; [exact Hsimple | exact Hb]. }
    destruct H as [[Htwk' Hstay] Hw'].
    pose proof (Forall2_tracks_insert _ _ _ _ _ Ht Hti Htwk') as Ht'.
    pose proof (done_tasks_insert _ _ _ _ _ wk' (Forall2_length _ _ _ Ht) Hti Hwk) as Hd.
    assert (exists before',
              observed w' = (before' ++ start)%list
              /\ Forall (fun o => is_simple (obs_task o) = true) before'
              /\ settled_tasks before' ≡ₚ
                   done_tasks (List.filter is_simple subTasks) (<[i:=wk']> promises))
      as (before' & Hw'' & Hb' & Hs').
    { destruct (is_done wk' && negb (is_done wk)) eqn:E1.
      - exists (Settled t :: before). rewrite Hw', Hw. split; [reflexivity|].
        split; [constructor; assumption|]. simpl. rewrite Hd, Hs. reflexivity.
      - exists before. rewrite Hw', Hw. split; [reflexivity|]. split; [exact Hb|].
        destruct (is_done wk && negb (is_done wk')) eqn:E2; [|rewrite Hd; exact Hs].
        apply andb_prop in E2 as [E2 E3]. apply negb_true_iff in E3.
        rewrite (Hstay E2) in E3. discriminate. }
    destruct (Promise_all (<[i:=wk']> promises)) as [simpleResults|] eqn:Hall.
    + destruct (Promise_all_done _ _ _ Ht' Hall) as [Hdone Hr].
      eapply (adaptive_loop_inv self subTasks start before' [] _ _ []);
        try eassumption; try reflexivity; try constructor.
      rewrite Hs', Hdone. reflexivity.
    + exists before', []. simpl. auto 10.
  - destruct Hst as (Hs & Hsr & finished & t & Hc & Hcur & Hcr).
    assert (is_simple t = false) as Hcomplex.
    { apply (not_simple_filter subTasks). rewrite Hc. apply elem_of_app. right. left. }
    pose proof (spawned_step_observed True ev current t _ (or_introl Logic.I)
                  (worker_task_tracks _ _ Hcur) w eq_refl) as H.
    unfold bind. destruct (spawned_step ev current w) as [[wk'|e] w'].
    2:{ destruct H as (_ & _ & Hw'). exists before, (Settled t :: after). simpl.
        split; [rewrite Hw', Hw; reflexivity|]. split; [exact Hb|].
        split; [constructor; assumption | auto]. }
    destruct H as [[Htwk' _] Hw']. rewrite (worker_task_not_done _ _ Hcur) in Hw'.
    destruct wk' as [agent st|agent st|agent st acct model|result];
      simpl in Hw', Htwk';
      try (exists before, after; simpl; split; [rewrite Hw', Hw; reflexivity|];
           split; [exact Hb|]; split; [exact Ha|]; split; [exact Hs|];
           split; [exact Hsr|]; exists finished, t; auto; fail).
    eapply (adaptive_loop_inv self subTasks start before (Settled t :: after) _ _
              (finished ++ [t])).
    + rewrite Hw', Hw. reflexivity.
    + exact Hb.
    + constructor; assumption.
    + exact Hs.
    + exact Hsr.
    + rewrite Hc, <- app_assoc. reflexivity.
    + rewrite !map_app, Hcr. simpl. rewrite Htwk'. reflexivity.
Qed.

Lemma strategy_run_inv self subTasks start evs : forall st,
  adaptive_inv subTasks start st -> adaptive_inv subTasks start (strategy_run self evs st).
Proof.
  induction evs as [|ev evs IH]; intros st H; [exact H|].
  apply IH, strategy_react_inv, H.
Qed.

Lemma adaptive_inv_simple_first subTasks start st :
  adaptive_inv subTasks start st ->
  exists new, observed st.2 = (new ++ start)%list /\ simple_first subTasks new.
Proof.
  intros (before & after & Hw & Hb & Ha & Hst). exists (after ++ before)%list.
  split; [rewrite Hw, app_assoc; reflexivity|].
  intros later t earlier Hsplit Ht.
  apply app_eq_app in Hsplit as [l [[H1 H2]|[H1 H2]]].
  2:{ exfalso. rewrite H2 in Hb. apply Forall_app in Hb as [_ Hb].
      apply Forall_cons in Hb as [Hb _]. simpl in Hb. congruence. }
  destruct l as [|o mid]; simpl in H2.
  { exfalso. rewrite <- H2 in Hb. apply Forall_cons in Hb as [Hb _].
    simpl in Hb. congruence. }
  injection H2 as <- ->. subst after.
  assert (settled_tasks before ≡ₚ List.filter is_simple subTasks) as Hs.
  { destruct st as [[[[]|results]|e] w]; simpl in Hst; try contradiction.
    - destruct Hst as [Hnil _]. destruct later; discriminate.
    - apply Hst.
    - apply Hst.
    - destruct Hst as [Hnil|Hst]; [destruct later; discriminate | exact Hst]. }
  apply Forall_app in Ha as [_ Ha]. apply Forall_cons in Ha as [_ Ha].
  rewrite settled_tasks_app, List.filter_app.
  rewrite (filter_none is_simple (settled_tasks mid)),
    (filter_all is_simple (settled_tasks before)).
  - exact Hs.
  - apply (settled_tasks_all (fun t => is_simple t = true)), Hb.
  - apply (settled_tasks_all (fun t => is_simple t = false)), Ha.
Qed.


(** *** The account configurations never change *)

Section Configs.
Variable I : World -> Prop.
Hypothesis about : about_configs I.

Lemma steady_I : steady I.
Proof. exact (about_configs_steady I about). Qed.

Lemma spec_observe E o : spec I any E (observe o).
Proof. intros w Hw. split; [eapply about; [|exact Hw]; reflexivity | exact Logic.I]. Qed.

Hint Resolve spec_ret spec_bind spec_if spec_try spec_throw spec_lift_any spec_observe : core.
Hint Extern 1 (spec I any _ Date_now) => apply (spec_Date_now I steady_I) : core.
Hint Extern 1 (spec I any _ uuidv4) => apply (spec_uuidv4 I steady_I) : core.
Hint Extern 1 (spec I any _ (update_active _)) => apply (spec_update_active I steady_I) : core.
Hint Extern 1 (spec I any _ (getClient _)) => apply (spec_getClient I steady_I) : core.
Hint Extern 1 (spec I any _ (completeRequest _ _ _)) =>
  apply (spec_completeRequest I steady_I) : core.
Hint Extern 1 (spec I any _ bothRateLimited) => apply (spec_bothRateLimited I steady_I) : core.
Hint Extern 1 (spec I any True (db_call _)) => apply (spec_db_call_may I steady_I) : core.
Hint Extern 1 (spec I any True (awaited _)) => apply (spec_awaited I) : core.
Hint Unfold any : core.

Lemma spec_try_rethrow {A} (Q : A -> Prop) E (c : M A) (h : M unit) :
  spec I Q E c -> spec I any False h ->
  spec I Q E (try_catch c (fun e => let* _ := h in throw e)).
Proof.
  intros Hc Hh w Hw. specialize (Hc w Hw). unfold try_catch.
  destruct (c w) as [[a|e] w']; [exact Hc|]. destruct Hc as [Hw' HE].
  specialize (Hh w' Hw'). unfold bind. destruct (h w') as [[[]|e'] w'']; simpl; tauto.
Qed.

Section May_throw.
Variable E : Prop.
Hypothesis throws : E \/ accepts_all.

Hint Extern 1 (spec I any E (db_call _)) => apply (spec_db_call I steady_I E _ throws) : core.

Lemma configs_execute_catch agent startTime accountId e :
  spec I any E (execute_catch agent startTime accountId e).
Proof. unfold execute_catch. auto 20. Qed.

Hint Resolve configs_execute_catch : core.

Lemma configs_execute_step ev wk : spec I any E (execute_step ev wk).
Proof.
  destruct wk as [agent st|agent st|agent st acct model|r], ev; simpl; auto.
  - unfold execute_poll. auto.
  - unfold execute_acquire. auto 20.
  - unfold execute_reply. apply spec_bind; [|auto]. apply spec_try; [|auto]. auto 30.
Qed.

Lemma configs_spawnSubAgent self t : spec I any E (spawnSubAgent self t).
Proof. unfold spawnSubAgent, execute_begin, execute_poll. auto 20. Qed.

Hint Resolve configs_execute_step configs_spawnSubAgent : core.

Lemma configs_spawn_each self ts : spec I any E (spawn_each self ts).
Proof. induction ts as [|t ts IH]; simpl; auto. Qed.

Lemma configs_spawned_step ev wk : spec I any E (spawned_step ev wk).
Proof.
  unfold spawned_step. destruct (worker_task wk); [|auto].
  apply spec_try_rethrow; [|auto 10].
  apply spec_bind; [auto|]. intros [| | |r]; auto 10.
Qed.

Lemma configs_sequential_loop self results rest :
  spec I any E (sequential_loop self results rest).
Proof. destruct rest; simpl; auto. Qed.

Lemma configs_adaptive_loop self sr cr rest : spec I any E (adaptive_loop self sr cr rest).
Proof. destruct rest; simpl; auto. Qed.

Hint Resolve configs_spawn_each configs_spawned_step configs_sequential_loop
  configs_adaptive_loop : core.

Lemma configs_execute_by_strategy self subTasks :
  spec I any E (execute_by_strategy self subTasks).
Proof.
  unfold execute_by_strategy.
  destruct (SuperAgentConfig.strategy (SuperAgent.config self)).
  - unfold executeParallel. auto.
  - unfold executeSequential. auto.
  - unfold executeAdaptive. apply spec_bind; [auto|]. intros promises.
    destruct (Promise_all promises); auto.
Qed.

Lemma configs_strategy_step self i ev r : spec I any E (strategy_step self i ev r).
Proof.
  destruct r as [promises|results current rest|promises complexTasks|sr cr current rest];
    simpl.
  - destruct (promises !! i); auto.
  - apply spec_bind; [auto|]. intros [| | |result]; auto.
  - destruct (promises !! i); [|auto]. apply spec_bind; [auto|]. intros wk'.
    destruct (Promise_all _); auto.
  - apply spec_bind; [auto|]. intros [| | |result]; auto.
Qed.

Lemma configs_continue_with x : spec I any E (continue_with x).
Proof. destruct x; simpl; unfold aggregateResults_begin; auto. Qed.

Lemma configs_map_subTasks task items : forall index,
  spec I any True (map_subTasks task index items).
Proof. induction items as [|st rest IH]; intros index; simpl; auto 20. Qed.

Lemma configs_decomposeTask_reply task accountId o :
  spec I any E (decomposeTask_reply task accountId o).
Proof.
  unfold decomposeTask_reply. apply spec_try; [|auto].
  apply spec_bind; [auto|]. intros response.
  apply spec_bind; [auto|]. intros ?.
  apply spec_bind; [auto|]. intros found.
  apply spec_bind; [auto|]. intros subTasksData.
  destruct subTasksData; simpl; auto. apply configs_map_subTasks.
Qed.

Lemma configs_aggregateResults_reply subResults accountId o :
  spec I any E (aggregateResults_reply subResults accountId o).
Proof. unfold aggregateResults_reply. apply spec_try; [|auto]. auto 20. Qed.

Lemma configs_executeTask_finish self task startTime subResults finalResult :
  spec I any E (executeTask_finish self task startTime subResults finalResult).
Proof. unfold executeTask_finish, when. auto 30. Qed.

Lemma configs_executeTask_catch self task startTime e :
  spec I any E (executeTask_catch self task startTime e).
Proof. unfold executeTask_catch. auto 10. Qed.

End May_throw.

Lemma configs_in_try self task startTime body :
  spec I any True body -> spec I any True (in_try self task startTime body).
Proof.
  intros H. unfold in_try. apply spec_try; [exact H|]. intros e.
  apply spec_bind; [apply (configs_executeTask_catch True (or_introl Logic.I))|].
  auto.
Qed.

Lemma configs_executeTask_step self task startTime ev ph :
  spec I any True (executeTask_step self task startTime ev ph).
Proof.
  pose proof (or_introl Logic.I : True \/ accepts_all) as HT.
  destruct ph, ev; simpl; auto; apply configs_in_try.
  - apply spec_bind; [apply (configs_decomposeTask_reply True)|]. intros subTasks.
    apply spec_bind; [apply (configs_execute_by_strategy True)|]. intros x.
    apply (configs_continue_with True).
  - apply spec_bind; [apply (configs_strategy_step True HT)|]. intros x.
    apply (configs_continue_with True).
  - apply spec_bind; [apply (configs_aggregateResults_reply True)|].
    intros finalResult.
    apply spec_bind; [apply (configs_executeTask_finish True HT)|]. auto.
Qed.

Lemma configs_react self task c ev : I (world c) -> I (world (react self task c ev)).
Proof.
  intros Hc. unfold react.
  pose proof (configs_executeTask_step self task (startTime c) ev (phase c) (world c) Hc)
    as H.
  destruct (executeTask_step _ _ _ _ _ _) as [[ph|e] w']; simpl; apply H.
Qed.

Lemma configs_executeTask self task w : I w -> I (world (executeTask self task w)).
Proof.
  intros Hw. unfold executeTask.
  assert (spec I any True (executeTask_begin self task)) as H.
  { unfold executeTask_begin, when, decomposeTask_begin.
    apply spec_bind; [auto|]. intros startTime.
    apply spec_bind; [|auto]. apply configs_in_try. auto 20. }
  specialize (H w Hw).
  destruct (executeTask_begin self task w) as [[[st ph]|e] w']; simpl; apply H.
Qed.

End Configs.

(** *** executeTask: the totals *)

Lemma spec_trivial {A} (c : M A) : spec (fun _ => True) any True c.
Proof. intros w _. destruct (c w) as [[a|e] w']; unfold any; auto. Qed.

Lemma fold_left_tokens rs : forall a,
  fold_left (fun sum r => sum + SubAgentResult.tokensUsed r) rs a = a + sum_tokens rs.
Proof.
  induction rs as [|r rs IH]; intros a; simpl; [lia|]. rewrite IH. lia.
Qed.

Lemma fold_left_cost rs : forall a,
  (fold_left (fun sum r => sum + SubAgentResult.cost r) rs a == a + sum_cost rs)%Q.
Proof.
  induction rs as [|r rs IH]; intros a; simpl.
  - rewrite Qplus_0_r. reflexivity.
  - rewrite IH. rewrite Qplus_assoc. reflexivity.
Qed.

Lemma spec_executeTask_catch self task startTime error :
  spec (fun _ => True)
    (fun r => accounted r /\ TaskResult.success r = false
              /\ TaskResult.result r = errorMsg error)
    True (executeTask_catch self task startTime error).
Proof.
  unfold executeTask_catch.
  apply spec_bind; [apply spec_trivial|]. intros ?.
  apply spec_bind; [apply spec_trivial|]. intros finished.
  apply spec_ret. repeat split; reflexivity.
Qed.

Lemma spec_executeTask_finish self task startTime subResults finalResult :
  spec (fun _ => True)
    (fun r => accounted r /\ TaskResult.success r = true
              /\ TaskResult.result r = finalResult
              /\ TaskResult.subResults r = subResults)
    True (executeTask_finish self task startTime subResults finalResult).
Proof.
  unfold executeTask_finish.
  apply spec_bind; [apply spec_trivial|]. intros finished.
  apply spec_bind; [apply spec_trivial|]. intros ?.
  apply spec_bind; [apply spec_trivial|]. intros ?.
  apply spec_ret. split; [|auto]. split; simpl.
  - apply fold_left_tokens.
  - rewrite fold_left_cost, Qplus_0_l. reflexivity.
Qed.

Section Phases.
Variable R : Running -> Prop.
Variable P : TaskResult.t -> Prop.
Variable F : Prop.
Variable self : SuperAgent.t.
Variable task : Task.t.

(** [E] tells whether the stretches of the [try] block may throw; if they
    may, the [catch] block has to establish [P]. *)
Variable E : Prop.
Hypothesis caught :
  E -> forall startTime e,
         spec (fun _ => True) P True (executeTask_catch self task startTime e).
Hypothesis finished :
  forall startTime subResults finalResult,
    spec (fun _ => True) P E (executeTask_finish self task startTime subResults finalResult).
Hypothesis started :
  forall subTasks,
    spec (fun _ => True) (pending_with R) E (execute_by_strategy self subTasks).
Hypothesis resumed :
  forall i ev r,
    R r -> spec (fun _ => True) (pending_with R) E (strategy_step self i ev r).
Hypothesis decomposed :
  forall accountId o, spec (fun _ => True) any E (decomposeTask_reply task accountId o).
Hypothesis aggregated :
  forall subResults accountId o,
    spec (fun _ => True) any E (aggregateResults_reply subResults accountId o).
Hypothesis throws : E \/ accepts_all.

Lemma spec_in_try startTime body :
  spec (fun _ => True) (phase_spec R P F) E body ->
  spec (fun _ => True) (phase_spec R P F) E (in_try self task startTime body).
Proof.
  intros Hb w _. specialize (Hb w I). unfold in_try, try_catch.
  destruct (body w) as [[ph|e] w']; [exact Hb|].
  destruct Hb as [_ HE]. unfold bind.
  pose proof (caught HE startTime e w' I) as Hc.
  destruct (executeTask_catch self task startTime e w') as [[r|e'] w'']; simpl.
  - split; [exact I | apply Hc].
  - split; [exact I | exact HE].
Qed.

Lemma spec_continue_with x :
  pending_with R x -> spec (fun _ => True) (phase_spec R P F) E (continue_with x).
Proof.
  intros Hx. destruct x; simpl; [apply spec_ret; exact Hx|].
  unfold aggregateResults_begin.
  apply spec_bind; [apply (spec_getClient _ steady_True E)|].
  intros a. apply spec_ret. exact I.
Qed.

Lemma spec_executeTask_step startTime ev ph :
  phase_spec R P F ph ->
  spec (fun _ => True) (phase_spec R P F) E (executeTask_step self task startTime ev ph).
Proof.
  intros Hph. destruct ph, ev; simpl; try (apply spec_ret; exact Hph).
  - apply spec_in_try.
    apply spec_bind; [apply decomposed|]. intros subTasks.
    eapply spec_bind_with; [apply started|]. intros x Hx. apply spec_continue_with, Hx.
  - apply spec_in_try.
    eapply spec_bind_with; [apply resumed, Hph|]. intros x Hx.
    apply spec_continue_with, Hx.
  - apply spec_in_try.
    apply spec_bind; [apply aggregated|]. intros finalResult.
    eapply spec_bind_with; [apply finished|]. intros r Hr. apply spec_ret. exact Hr.
Qed.

Lemma phase_spec_executeTask w :
  (E -> F) -> phase_spec R P F (phase (executeTask self task w)).
Proof.
  intros HF. unfold executeTask, executeTask_begin, bind at 1. simpl.
  set (w1 := {| manager := manager w; ticks := S (ticks w) |}).
  unfold bind at 1.
  match goal with
  | |- context [in_try ?s ?t ?st ?body w1] =>
      pose proof (spec_in_try st body) as H
  end.
  match type of H with
  | ?A -> _ => assert A as HA; [|specialize (H HA w1 I)]
  end.
  - apply spec_bind.
    + unfold when. destruct (SuperAgentConfig.saveHistory _); [|apply spec_ret; exact I].
      apply spec_bind; [apply (spec_uuidv4 _ steady_True)|]. intros cid.
      apply spec_bind; [apply (spec_Date_now _ steady_True)|]. intros stamp.
      apply (spec_db_call _ steady_True), throws.
    + intros ?. unfold decomposeTask_begin.
      apply spec_bind;
        [apply (spec_getClient _ steady_True E)|].
      intros ?. apply spec_ret. exact I.
  - destruct (in_try _ _ _ _ w1) as [[ph|e] w2]; simpl; [apply H | apply HF, H].
Qed.

Lemma phase_spec_react c ev :
  (E -> F) ->
  phase_spec R P F (phase c) -> phase_spec R P F (phase (react self task c ev)).
Proof.
  intros HF Hph. unfold react.
  pose proof (spec_executeTask_step (startTime c) ev (phase c) Hph (world c) I) as H.
  destruct (executeTask_step _ _ _ _ _ _) as [[ph|e] w']; simpl; [apply H | apply HF, H].
Qed.

Lemma phase_spec_run evs : forall c,
  (E -> F) ->
  phase_spec R P F (phase c) -> phase_spec R P F (phase (run self task evs c)).
Proof.
  induction evs as [|ev evs IH]; intros c HF Hph; [exact Hph|].
  simpl. apply IH; [exact HF|]. apply phase_spec_react; assumption.
Qed.

End Phases.

(** C3. Whenever [executeTask] has returned, the [tokensUsed] of its
    result is the sum of the [tokensUsed] of its [subResults], and its
    [cost] the sum of their [cost]. *)
Theorem totals_are_sums self task w evs r :
  phase (run self task evs (executeTask self task w)) = Returned r ->
  TaskResult.tokensUsed r = sum_tokens (TaskResult.subResults r)
  /\ (TaskResult.cost r == sum_cost (TaskResult.subResults r))%Q.
Proof.
  intros H.
  assert (forall startTime e,
            spec (fun _ => True) accounted True
              (executeTask_catch self task startTime e)) as Hcatch.
  { intros startTime e. eapply spec_weaken; [apply spec_executeTask_catch | | auto].
    intros a Ha. apply Ha. }
  assert (forall startTime subResults finalResult,
            spec (fun _ => True) accounted True
              (executeTask_finish self task startTime subResults finalResult)) as Hfinish.
  { intros startTime subResults finalResult.
    eapply spec_weaken; [apply spec_executeTask_finish | | auto].
    intros a Ha. apply Ha. }
  assert (forall subTasks,
            spec (fun _ => True) (pending_with (fun _ => True)) True
              (execute_by_strategy self subTasks)) as Hstart.
  { intros subTasks. eapply spec_weaken; [apply spec_trivial | | auto].
    intros []; intros; exact I. }
  assert (forall i ev r0, True ->
            spec (fun _ => True) (pending_with (fun _ => True)) True
              (strategy_step self i ev r0)) as Hresume.
  { intros i ev r0 _. eapply spec_weaken; [apply spec_trivial | | auto].
    intros []; intros; exact I. }
  pose proof (phase_spec_run (fun _ => True) accounted True self task True
                (fun _ => Hcatch) Hfinish Hstart Hresume
                (fun _ _ => spec_trivial _) (fun _ _ _ => spec_trivial _)
                evs (executeTask self task w) (fun _ => I)) as Hr.
  rewrite H in Hr. apply Hr.
  apply (phase_spec_executeTask (fun _ => True) accounted True self task True
           (fun _ => Hcatch) (or_introl I) w (fun _ => I)).
Qed.

(** *** executeTask: the fall-backs *)

Lemma spawnSubAgent_pending self t w :
  exists wk w', spawnSubAgent self t w = (Normal wk, w') /\ is_done wk = false.
Proof.
  pose proof (spawnSubAgent_observed self t _ w eq_refl) as H.
  destruct (spawnSubAgent self t w) as [[wk|e] w']; [|contradiction].
  exists wk, w'. split; [reflexivity|]. apply (worker_task_not_done t), H.
Qed.

Lemma Promise_all_pending wk wks : is_done wk = false -> Promise_all (wk :: wks) = None.
Proof. destruct wk; simpl; intros H; solve [reflexivity | discriminate]. Qed.

Lemma execute_by_strategy_single self t w :
  exists suspended w', execute_by_strategy self [t] w = (Normal (Pending suspended), w').
Proof.
  unfold execute_by_strategy.
  destruct (SuperAgentConfig.strategy (SuperAgent.config self)).
  - unfold executeParallel. simpl. unfold bind.
    destruct (spawnSubAgent_pending self t w) as (wk & w' & -> & Hwk). simpl.
    unfold await_all. rewrite (Promise_all_pending _ _ Hwk). eauto.
  - unfold executeSequential. simpl. unfold bind.
    destruct (spawnSubAgent_pending self t w) as (wk & w' & -> & Hwk). simpl. eauto.
  - unfold executeAdaptive. simpl. destruct (is_simple t); simpl; unfold bind.
    + destruct (spawnSubAgent_pending self t w) as (wk & w' & -> & Hwk). simpl.
      destruct wk; try discriminate; simpl; eauto.
    + simpl. destruct (spawnSubAgent_pending self t w) as (wk & w' & -> & Hwk).
      simpl. eauto.
Qed.

Lemma decomposeTask_reply_resolved task accountId r w :
  decomposeTask_reply task accountId (Resolved r) w
  = try_catch
      (let* _ := completeRequest accountId (usage_tokens r)
                   (estimateCost (usage_tokens r)) in
       let* content := lift (decomposition_text r) in
       let* subTasksData := lift (JSON_parse content) in
       subTasksData_map task subTasksData)
      (fun _ => let* id := uuidv4 in ret [fallback_subTask task id]) w.
Proof.
  unfold decomposeTask_reply, try_catch, decomposition_text.
  unfold bind at 1. cbn [awaited ret]. unfold bind at 1 5, lift at 1 3.
  destruct (completeRequest accountId _ _ w) as [[[]|e] w1]; [|reflexivity].
  unfold bind at 1 4. destruct (first_content r) as [found|e]; reflexivity.
Qed.

(** C2, as the code has it.  When the answer to the decomposition request
    is unusable (the call failed, or the content is not JSON, not an array,
    or an array with a null entry), [decomposeTask] returns exactly one
    sub-task, which has the task's description and complexity and priority
    1, and [executeTask] goes on to execute it; an absent or empty content
    is not a failure: it is read as the text of the empty array. *)
Theorem decomposition_falls_back task accountId w :
  (forall o,
     unusable o ->
     (exists subTask w',
        decomposeTask_reply task accountId o w = (Normal [subTask], w')
        /\ SubAgentTask.description subTask = JStr (Task.description task)
        /\ SubAgentTask.complexity subTask = JStr (Task.complexity task)
        /\ SubAgentTask.priority subTask = JNum 1
        /\ SubAgentTask.parentTaskId subTask = Task.id task)
     /\ (forall self startTime,
           exists suspended,
             phase (react self task
                      {| startTime := startTime; phase := Decomposing accountId;
                         world := w |} (Backend o))
             = Executing suspended))
  /\ (forall r,
        first_content r = Normal None \/ first_content r = Normal (Some "") ->
        decomposeTask_reply task accountId (Resolved r) w
        = decomposeTask_reply task accountId
            (Resolved {| choices := Some [Some "[]"]; total_tokens := total_tokens r |}) w).
Proof.
  split.
  - intros o Ho.
    destruct (decomposeTask_reply_unusable task accountId o w Ho) as (id & w' & Hd).
    split.
    + exists (fallback_subTask task id), w'. rewrite Hd. repeat split; reflexivity.
    + intros self startTime. unfold react. simpl. unfold in_try, try_catch, bind at 1.
      rewrite Hd. unfold bind at 1.
      destruct (execute_by_strategy_single self (fallback_subTask task id) w')
        as (suspended & w'' & ->).
      simpl. eauto.
  - intros r Hr. rewrite !decomposeTask_reply_resolved.
    unfold decomposition_text. cbn [first_content choices].
    unfold usage_tokens. cbn [total_tokens].
    destruct Hr as [-> | ->]; reflexivity.
Qed.

Lemma aggregateResults_reply_failed subResults accountId o e w :
  failure_of o = Some e ->
  exists w', aggregateResults_reply subResults accountId o w
             = (Normal (subResultsText subResults), w').
Proof.
  intros Ho. unfold aggregateResults_reply, try_catch, bind at 1.
  destruct o as [e'|r]; simpl in Ho.
  - simpl. eauto.
  - cbn [awaited ret]. unfold bind at 1.
    destruct (completeRequest accountId _ _ w) as [[[]|e'] w1]; [|simpl; eauto].
    unfold bind at 1, lift at 1.
    destruct (first_content r) as [found|e']; [discriminate|]. simpl. eauto.
Qed.

Lemma executeTask_finish_returns self task startTime subResults finalResult w :
  accepts_all ->
  exists r w',
    executeTask_finish self task startTime subResults finalResult w = (Normal r, w')
    /\ TaskResult.success r = true
    /\ TaskResult.result r = finalResult
    /\ TaskResult.subResults r = subResults.
Proof.
  intros Hdb.
  assert (spec (fun _ => True)
            (fun r => TaskResult.success r = true
                      /\ TaskResult.result r = finalResult
                      /\ TaskResult.subResults r = subResults)
            False (executeTask_finish self task startTime subResults finalResult)) as H.
  { pose proof steady_True as Ha. unfold executeTask_finish.
    apply spec_bind; [apply spec_Date_now, Ha|]. intros finished.
    apply spec_bind.
    - unfold when. apply spec_if; [|apply spec_ret; exact I].
      apply spec_bind; [apply spec_uuidv4, Ha|]. intros cid.
      apply spec_bind; [apply spec_Date_now, Ha|]. intros stamp.
      apply spec_bind; [apply spec_db_call; auto|]. intros ?.
      apply spec_bind; [apply spec_uuidv4, Ha|]. intros did.
      apply spec_bind; [apply spec_Date_now, Ha|]. intros created.
      apply spec_db_call; auto.
    - intros ?. apply spec_bind; [apply spec_db_call; auto|]. intros ?.
      apply spec_ret. auto. }
  destruct (spec_run _ _ w H) as (r & w' & Hr & HQ). eauto.
Qed.


(** *** executeTask: the outer boundary *)

Lemma in_try_normal self task startTime body w ph w' :
  body w = (Normal ph, w') -> in_try self task startTime body w = (Normal ph, w').
Proof. intros H. unfold in_try, try_catch. rewrite H. reflexivity. Qed.

Lemma in_try_throw self task startTime body w e w' :
  accepts_status_updates ->
  body w = (Throw e, w') ->
  exists w'',
    in_try self task startTime body w
    = (Normal (Returned (failure_result task startTime e (clock (ticks w')))), w'').
Proof.
  intros Hs H. unfold in_try, try_catch. rewrite H.
  unfold bind at 1, executeTask_catch, bind at 1, db_call. rewrite Hs.
  eexists. reflexivity.
Qed.

Lemma safe_in_try self task startTime body :
  accepts_status_updates -> safe (in_try self task startTime body).
Proof.
  intros Hs w _. destruct (body w) as [[ph|e] w'] eqn:Hb.
  - rewrite (in_try_normal _ _ _ _ _ _ _ Hb). exact I.
  - destruct (in_try_throw self task startTime _ _ _ _ Hs Hb) as [w'' ->]. exact I.
Qed.

Lemma safe_executeTask_step self task startTime ev ph :
  accepts_status_updates -> safe (executeTask_step self task startTime ev ph).
Proof. intros Hs. destruct ph, ev; simpl; auto using safe_in_try, safe_ret. Qed.

Lemma spec_anything {A} (Q : A -> Prop) (c : M A) :
  (forall a, Q a) -> spec (fun _ => True) Q True c.
Proof. intros H. eapply spec_weaken; [apply spec_trivial | auto | auto]. Qed.

Lemma pending_with_True x : pending_with (fun _ => True) x.
Proof. destruct x; exact I. Qed.

Lemma react_not_failed self task c ev :
  accepts_status_updates -> not_failed (phase c) ->
  not_failed (phase (react self task c ev)).
Proof.
  intros Hs Hc. unfold react.
  pose proof (safe_executeTask_step self task (startTime c) ev (phase c) Hs (world c) I)
    as Hsafe.
  assert (phase_spec (fun _ => True) (fun _ => True) False (phase c)) as Hph.
  { destruct (phase c); try exact I. contradiction. }
  pose proof (spec_executeTask_step (fun _ => True) (fun _ => True) False self task True
                (fun _ _ _ => spec_anything _ _ (fun _ => I))
                (fun _ _ _ => spec_anything _ _ (fun _ => I))
                (fun _ => spec_anything _ _ pending_with_True)
                (fun _ _ _ _ => spec_anything _ _ pending_with_True)
                (fun _ _ => spec_trivial _) (fun _ _ _ => spec_trivial _)
                (startTime c) ev (phase c) Hph (world c) I) as H.
  destruct (executeTask_step _ _ _ _ _ _) as [[ph|e] w']; [|contradiction].
  simpl. destruct H as [_ H]. destruct ph; try exact I. contradiction.
Qed.

Lemma executeTask_not_failed self task w :
  accepts_status_updates -> not_failed (phase (executeTask self task w)).
Proof.
  intros Hs. unfold executeTask.
  assert (spec (fun _ => True) (fun p => not_failed p.2) False
            (executeTask_begin self task)) as H.
  { unfold executeTask_begin.
    apply spec_bind; [apply (spec_Date_now _ steady_True)|]. intros startTime.
    eapply spec_bind_with with (R := not_failed).
    - intros w0 _.
      match goal with
      | |- context [in_try ?s ?t ?st ?body w0] =>
          pose proof (safe_in_try s t st body Hs w0 I) as Hsafe;
          pose proof (spec_in_try (fun _ => True) (fun _ => True) False s t True
                        (fun _ _ _ => spec_anything _ _ (fun _ => I)) st body) as Hv
      end.
      match type of Hv with
      | ?A -> _ => assert A as HA; [|specialize (Hv HA w0 I)]
      end.
      { apply spec_bind; [apply spec_trivial|]. intros ?.
        apply spec_bind; [apply spec_trivial|]. intros ?. apply spec_ret. exact I. }
      destruct (in_try _ _ _ _ w0) as [[ph|e] w1]; [|contradiction].
      split; [exact I|]. destruct Hv as [_ Hv]. destruct ph; try exact I. contradiction.
    - intros ph Hph. apply spec_ret. exact Hph. }
  specialize (H w I).
  destruct (executeTask_begin self task w) as [[[st ph]|e] w']; simpl in *; tauto.
Qed.

Lemma run_not_failed self task evs : forall c,
  accepts_status_updates -> not_failed (phase c) ->
  not_failed (phase (run self task evs c)).
Proof.
  induction evs as [|ev evs IH]; intros c Hs Hc; [exact Hc|].
  simpl. apply IH; [exact Hs|]. apply react_not_failed; assumption.
Qed.

Lemma about_configs_True : about_configs (fun _ => True).
Proof. intros w w' _ _. exact I. Qed.

Lemma spec_executeTask_finish_safe self task startTime subResults finalResult :
  accepts_all ->
  spec (fun _ => True) succeeded False
    (executeTask_finish self task startTime subResults finalResult).
Proof.
  intros Hdb. intros w _.
  destruct (executeTask_finish_returns self task startTime subResults finalResult w Hdb)
    as (r & w' & -> & Hr & _).
  split; [exact I | exact Hr].
Qed.

Lemma run_succeeded self task w evs :
  accepts_all ->
  phase_spec (fun _ => True) succeeded False
    (phase (run self task evs (executeTask self task w))).
Proof.
  intros Hdb.
  pose proof (or_intror Hdb : False \/ accepts_all) as HE.
  assert (forall subTasks,
            spec (fun _ => True) (pending_with (fun _ => True)) False
              (execute_by_strategy self subTasks)) as Hstart.
  { intros subTasks.
    eapply spec_weaken;
      [apply (configs_execute_by_strategy _ about_configs_True False)
      |intros; apply pending_with_True | auto]. }
  assert (forall i ev r, True ->
            spec (fun _ => True) (pending_with (fun _ => True)) False
              (strategy_step self i ev r)) as Hresume.
  { intros i ev r _.
    eapply spec_weaken;
      [apply (configs_strategy_step _ about_configs_True False HE)
      |intros; apply pending_with_True | auto]. }
  apply (phase_spec_run (fun _ => True) succeeded False self task False
           (fun H => match H with end)
           (fun st rs fr => spec_executeTask_finish_safe self task st rs fr Hdb)
           Hstart Hresume
           (configs_decomposeTask_reply _ about_configs_True False task)
           (configs_aggregateResults_reply _ about_configs_True False)
           evs _ (fun H => H)).
  apply (phase_spec_executeTask (fun _ => True) succeeded False self task False
           (fun H => match H with end) HE w (fun H => H)).
Qed.

Lemma outcome_executeTask_catch self task startTime e :
  spec (fun _ => True) (outcome task) True (executeTask_catch self task startTime e).
Proof.
  intros w _. unfold executeTask_catch, bind, db_call.
  destruct (db_fault (database w) _); simpl; [auto|].
  split; [exact I|]. right. eexists _, _, _. reflexivity.
Qed.

Lemma outcome_executeTask_finish self task startTime subResults finalResult :
  spec (fun _ => True) (outcome task) True
    (executeTask_finish self task startTime subResults finalResult).
Proof.
  pose proof steady_True as Ha.
  pose proof (or_introl I : True \/ accepts_all) as HE.
  unfold executeTask_finish.
  apply spec_bind; [apply spec_Date_now, Ha|]. intros finished.
  apply spec_bind.
  - unfold when. apply spec_if; [|apply spec_ret; exact I].
    apply spec_bind; [apply spec_uuidv4, Ha|]. intros cid.
    apply spec_bind; [apply spec_Date_now, Ha|]. intros stamp.
    apply spec_bind; [apply spec_db_call; auto|]. intros ?.
    apply spec_bind; [apply spec_uuidv4, Ha|]. intros did.
    apply spec_bind; [apply spec_Date_now, Ha|]. intros created.
    apply spec_db_call; auto.
  - intros ?. apply spec_bind; [apply spec_db_call; auto|]. intros ?.
    apply spec_ret. left. reflexivity.
Qed.

Lemma run_outcome self task w evs :
  returned_with (outcome task) (phase (run self task evs (executeTask self task w))).
Proof.
  pose proof (or_introl I : True \/ accepts_all) as HE.
  assert (forall subTasks,
            spec (fun _ => True) (pending_with (fun _ => True)) True
              (execute_by_strategy self subTasks)) as Hstart.
  { intros subTasks.
    eapply spec_weaken;
      [apply (configs_execute_by_strategy _ about_configs_True True)
      |intros; apply pending_with_True | auto]. }
  assert (forall i ev r, True ->
            spec (fun _ => True) (pending_with (fun _ => True)) True
              (strategy_step self i ev r)) as Hresume.
  { intros i ev r _.
    eapply spec_weaken;
      [apply (configs_strategy_step _ about_configs_True True HE)
      |intros; apply pending_with_True | auto]. }
  apply (phase_spec_run (fun _ => True) (outcome task) True self task True
           (fun _ st e => outcome_executeTask_catch self task st e)
           (outcome_executeTask_finish self task)
           Hstart Hresume
           (configs_decomposeTask_reply _ about_configs_True True task)
           (configs_aggregateResults_reply _ about_configs_True True)
           evs _ (fun H => H)).
  apply (phase_spec_executeTask (fun _ => True) (outcome task) True self task True
           (fun _ st e => outcome_executeTask_catch self task st e) HE w (fun H => H)).
Qed.

(** *** executeTask: it can always return *)

Lemma stage_bound wk : (stage wk <= 3)%nat.
Proof. destruct wk; simpl; lia. Qed.

Lemma Promise_all_None promises i wk :
  promises !! i = Some wk -> is_done wk = false -> Promise_all promises = None.
Proof.
  revert i. induction promises as [|p ps IH]; intros i Hi Hwk.
  - rewrite lookup_nil in Hi. discriminate.
  - destruct i as [|i]; simpl in Hi.
    + injection Hi as ->. apply Promise_all_pending, Hwk.
    + simpl. destruct p; try reflexivity. rewrite (IH i Hi Hwk). reflexivity.
Qed.

Lemma Promise_all_None_inv promises :
  Promise_all promises = None ->
  exists i wk, promises !! i = Some wk /\ is_done wk = false.
Proof.
  induction promises as [|p ps IH]; simpl; [discriminate|]. intros H.
  destruct (is_done p) eqn:Hp; [|exists 0%nat, p; auto].
  destruct p; try discriminate.
  destruct (Promise_all ps); [discriminate|].
  destruct (IH eq_refl) as (i & wk & Hi & Hwk). exists (S i), wk. auto.
Qed.

Lemma waiting_reached r :
  waiting r -> exists i wk, reached r i = Some wk /\ is_done wk = false.
Proof.
  destruct r; simpl; intros H;
    solve [apply Promise_all_None_inv, H | exists 0%nat; eauto].
Qed.

Lemma await_all_waiting promises suspended :
  (Promise_all promises = None -> waiting suspended) ->
  waiting_if_pending (await_all promises suspended).
Proof.
  intros H. unfold await_all. destruct (Promise_all promises); [exact I | apply H; reflexivity].
Qed.

Lemma spec_spawn_pending E self t :
  spec (fun _ => True) (fun wk => is_done wk = false) E (spawnSubAgent self t).
Proof.
  intros w _. destruct (spawnSubAgent_pending self t w) as (wk & w' & -> & Hwk). auto.
Qed.

Lemma spec_sequential_loop_waiting E self results rest :
  spec (fun _ => True) waiting_if_pending E (sequential_loop self results rest).
Proof.
  destruct rest; simpl; [apply spec_ret; exact I|].
  eapply spec_bind_with; [apply spec_spawn_pending|].
  intros wk Hwk. apply spec_ret. exact Hwk.
Qed.

Lemma spec_adaptive_loop_waiting E self sr cr rest :
  spec (fun _ => True) waiting_if_pending E (adaptive_loop self sr cr rest).
Proof.
  destruct rest; simpl; [apply spec_ret; exact I|].
  eapply spec_bind_with; [apply spec_spawn_pending|].
  intros wk Hwk. apply spec_ret. exact Hwk.
Qed.

Lemma spec_execute_by_strategy_waiting E self subTasks :
  spec (fun _ => True) waiting_if_pending E (execute_by_strategy self subTasks).
Proof.
  unfold execute_by_strategy.
  destruct (SuperAgentConfig.strategy (SuperAgent.config self)).
  - unfold executeParallel.
    apply spec_bind; [apply (configs_spawn_each _ about_configs_True)|].
    intros promises. apply spec_ret, await_all_waiting. auto.
  - apply spec_sequential_loop_waiting.
  - unfold executeAdaptive.
    apply spec_bind; [apply (configs_spawn_each _ about_configs_True)|].
    intros promises. destruct (Promise_all promises) eqn:Hp.
    + apply spec_adaptive_loop_waiting.
    + apply spec_ret. exact Hp.
Qed.

Lemma spec_strategy_step_waiting self i ev r :
  waiting r ->
  spec (fun _ => True) waiting_if_pending True (strategy_step self i ev r).
Proof.
  intros Hr.
  pose proof (configs_spawned_step _ about_configs_True True (or_introl I) ev) as Hs.
  destruct r as [promises|results current rest|promises complexTasks|sr cr current rest];
    simpl in *.
  - destruct (promises !! i); [|apply spec_ret; exact Hr].
    apply spec_bind; [apply Hs|]. intros wk'. apply spec_ret, await_all_waiting. auto.
  - apply spec_bind; [apply Hs|]. intros [| | |result];
      try (apply spec_ret; reflexivity). apply spec_sequential_loop_waiting.
  - destruct (promises !! i); [|apply spec_ret; exact Hr].
    apply spec_bind; [apply Hs|]. intros wk'.
    destruct (Promise_all (<[i:=wk']> promises)) eqn:Hp;
      [apply spec_adaptive_loop_waiting|].
    apply spec_ret. exact Hp.
  - apply spec_bind; [apply Hs|]. intros [| | |result];
      try (apply spec_ret; reflexivity). apply spec_adaptive_loop_waiting.
Qed.

Lemma run_waiting self task w evs :
  waiting_if_executing (phase (run self task evs (executeTask self task w))).
Proof.
  assert (forall ph, phase_spec waiting (fun _ => True) True ph -> waiting_if_executing ph)
    as Hto.
  { intros []; simpl; auto. }
  apply Hto.
  apply (phase_spec_run waiting (fun _ => True) True self task True
           (fun _ _ _ => spec_anything _ _ (fun _ => I))
           (fun _ _ _ => spec_anything _ _ (fun _ => I))
           (spec_execute_by_strategy_waiting True self)
           (spec_strategy_step_waiting self)
           (fun _ _ => spec_trivial _) (fun _ _ _ => spec_trivial _)
           evs _ (fun H => H)).
  apply (phase_spec_executeTask waiting (fun _ => True) True self task True
           (fun _ _ _ => spec_anything _ _ (fun _ => I)) (or_introl I) w (fun H => H)).
Qed.

Lemma strategy_step_reached self i ev r wk w :
  reached r i = Some wk ->
  strategy_step self i ev r w
  = match spawned_step ev wk w with
    | (Normal wk', w1) => after_worker self r i wk' w1
    | (Throw e, w1) => (Throw e, w1)
    end.
Proof.
  intros Hr. destruct r; simpl in *; try rewrite Hr; try injection Hr as ->;
    unfold bind; destruct (spawned_step ev wk w) as [[wk'|e] w1]; reflexivity.
Qed.

Lemma work_list_insert promises : forall i wk wk',
  promises !! i = Some wk ->
  (work_list (<[i:=wk']> promises) + stage wk = work_list promises + stage wk')%nat.
Proof.
  induction promises as [|p ps IH]; intros i wk wk' Hi.
  - rewrite lookup_nil in Hi. discriminate.
  - destruct i as [|i]; simpl in *.
    + injection Hi as ->. lia.
    + specialize (IH i wk wk' Hi). lia.
Qed.

Lemma with_worker_same r i wk : reached r i = Some wk -> with_worker r i wk = r.
Proof.
  destruct r; simpl; intros H; try (injection H as ->; reflexivity);
    rewrite (list_insert_id _ _ _ H); reflexivity.
Qed.

Lemma sequential_loop_work self results rest w :
  exists x w',
    sequential_loop self results rest w = (Normal x, w')
    /\ (work_left x <= 4 * length rest)%nat.
Proof.
  destruct rest as [|t rest]; simpl; [eexists _, _; split; [reflexivity | simpl; lia]|].
  unfold bind. destruct (spawnSubAgent_pending self t w) as (wk & w' & -> & _).
  eexists _, _. split; [reflexivity|]. simpl. pose proof (stage_bound wk). lia.
Qed.

Lemma adaptive_loop_work self sr cr rest w :
  exists x w',
    adaptive_loop self sr cr rest w = (Normal x, w')
    /\ (work_left x <= 4 * length rest)%nat.
Proof.
  destruct rest as [|t rest]; simpl; [eexists _, _; split; [reflexivity | simpl; lia]|].
  unfold bind. destruct (spawnSubAgent_pending self t w) as (wk & w' & -> & _).
  eexists _, _. split; [reflexivity|]. simpl. pose proof (stage_bound wk). lia.
Qed.

Lemma stage_not_done wk : is_done wk = false -> (1 <= stage wk)%nat.
Proof. destruct wk; simpl; intros; solve [lia | discriminate]. Qed.

Lemma after_worker_work self r i wk wk' w1 :
  reached r i = Some wk ->
  exists x w2,
    after_worker self r i wk' w1 = (Normal x, w2)
    /\ (work_left x + stage wk <= work_left (Pending r) + stage wk')%nat
    /\ (is_done wk' = false -> x = Pending (with_worker r i wk') /\ w2 = w1).
Proof.
  intros Hr.
  destruct r as [promises|results current rest|promises complexTasks|sr cr current rest];
    simpl in Hr |- *.
  - pose proof (work_list_insert promises i wk wk' Hr) as Hw.
    eexists _, _. split; [reflexivity|]. split.
    + unfold await_all. destruct (Promise_all _); simpl; lia.
    + intros Hwk'. unfold await_all.
      rewrite (Promise_all_None _ i wk'); [auto| |exact Hwk'].
      apply list_lookup_insert_eq. apply lookup_lt_is_Some. eauto.
  - injection Hr as ->. destruct wk' as [| | |result];
      try (eexists _, _; split; [reflexivity|]; split; [simpl; lia | auto]).
    destruct (sequential_loop_work self (results ++ [result]) rest w1)
      as (x & w2 & -> & Hx).
    eexists _, _. split; [reflexivity|]. split; [simpl; lia | discriminate].
  - pose proof (work_list_insert promises i wk wk' Hr) as Hw.
    destruct (Promise_all (<[i:=wk']> promises)) as [simpleResults|] eqn:Hp.
    + destruct (adaptive_loop_work self simpleResults [] complexTasks w1)
        as (x & w2 & -> & Hx).
      eexists _, _. split; [reflexivity|]. split; [simpl; lia|].
      intros Hwk'. rewrite (Promise_all_None _ i wk') in Hp; [discriminate| |exact Hwk'].
      apply list_lookup_insert_eq. apply lookup_lt_is_Some. eauto.
    + eexists _, _. split; [reflexivity|]. split; [simpl; lia | auto].
  - injection Hr as ->. destruct wk' as [| | |result];
      try (eexists _, _; split; [reflexivity|]; split; [simpl; lia | auto]).
    destruct (adaptive_loop_work self sr (cr ++ [result]) rest w1)
      as (x & w2 & -> & Hx).
    eexists _, _. split; [reflexivity|]. split; [simpl; lia | discriminate].
Qed.

Lemma continue_with_effort x w :
  exists ph w',
    continue_with x w = (Normal ph, w')
    /\ effort ph = (1 + work_left x)%nat
    /\ under_way ph
    /\ (forall r, x = Pending r -> ph = Executing r /\ w' = w).
Proof.
  destruct x as [r|results]; simpl.
  - eexists _, _. split; [reflexivity|]. split; [reflexivity|]. split; [exact I|].
    intros r0 H. injection H as <-. auto.
  - unfold bind, aggregateResults_begin.
    destruct (safe_run (getClient None) w (safe_getClient None)) as (a & w' & ->).
    eexists _, _. split; [reflexivity|]. split; [reflexivity|]. split; [exact I|].
    discriminate.
Qed.

(** What an event for a sub-agent that a strategy waits for does to the
    call. *)
Lemma react_reached self task c r i ev wk :
  accepts_status_updates ->
  phase c = Executing r -> reached r i = Some wk ->
  let c' := react self task c (ToWorker i ev) in
  match spawned_step ev wk (world c) with
  | (Throw e, w1) => exists result, phase c' = Returned result
  | (Normal wk', w1) =>
      (effort (phase c') + stage wk <= effort (phase c) + stage wk')%nat
      /\ under_way (phase c')
      /\ (is_done wk' = false ->
          c' = {| startTime := startTime c;
                  phase := Executing (with_worker r i wk');
                  world := w1 |})
  end.
Proof.
  intros Hs Hph Hr c'. subst c'. unfold react. rewrite Hph. simpl.
  destruct (spawned_step ev wk (world c)) as [[wk'|e] w1] eqn:Hstep.
  - destruct (after_worker_work self r i wk wk' w1 Hr) as (x & w2 & Ha & Hwork & Hsame).
    destruct (continue_with_effort x w2) as (ph & w3 & Hc & He & Hu & Hp).
    rewrite (in_try_normal _ _ _ _ _ ph w3).
    2:{ unfold bind. rewrite (strategy_step_reached _ _ _ _ _ _ Hr), Hstep, Ha.
        exact Hc. }
    simpl. split; [rewrite He; simpl in *; lia|]. split; [exact Hu|].
    intros Hwk'. destruct (Hsame Hwk') as [-> ->].
    destruct (Hp _ eq_refl) as [-> ->]. reflexivity.
  - edestruct (in_try_throw self task (startTime c)) as [w'' ->]; [exact Hs| |].
    + unfold bind. rewrite (strategy_step_reached _ _ _ _ _ _ Hr), Hstep. reflexivity.
    + simpl. eauto.
Qed.

Lemma execute_step_moves ev wk :
  spec (fun _ => True)
    (fun wk' => moves_on ev wk = true -> (stage wk' < stage wk)%nat)
    True (execute_step ev wk).
Proof.
  destruct wk as [agent st|agent st|agent st acct model|r], ev; simpl;
    try (apply spec_ret; discriminate).
  - apply spec_anything. discriminate.
  - unfold execute_acquire.
    apply spec_bind; [apply spec_trivial|]. intros accountId.
    apply spec_bind; [apply spec_trivial|]. intros created.
    apply spec_bind; [apply spec_trivial|]. intros ?.
    apply spec_try.
    + apply spec_bind; [apply spec_trivial|]. intros cid.
      apply spec_bind; [apply spec_trivial|]. intros stamp.
      apply spec_bind; [apply spec_trivial|]. intros ?.
      apply spec_ret. simpl. lia.
    + intros e. apply spec_bind; [apply spec_trivial|]. intros r.
      apply spec_ret. simpl. lia.
  - apply spec_bind; [apply spec_trivial|]. intros r. apply spec_ret. simpl. lia.
Qed.

Lemma spawned_step_moves ev wk w wk' w1 :
  spawned_step ev wk w = (Normal wk', w1) ->
  moves_on ev wk = true -> (stage wk' < stage wk)%nat.
Proof.
  intros Hstep.
  assert (spec (fun _ => True)
            (fun wk' => moves_on ev wk = true -> (stage wk' < stage wk)%nat)
            True (spawned_step ev wk)) as H.
  { unfold spawned_step. destruct (worker_task wk) eqn:Hwt.
    - apply (spec_try_rethrow (fun _ => True)).
      + eapply spec_bind_with; [apply execute_step_moves|].
        intros [| | |r] Hq; try (apply spec_ret; exact Hq).
        apply spec_bind; [apply spec_trivial|]. intros ?. apply spec_ret. exact Hq.
      + apply spec_bind; [apply (spec_update_active _ steady_True)|]. intros ?.
        apply (spec_observe _ about_configs_True).
    - apply spec_ret. destruct wk; try discriminate Hwt.
      destruct ev; discriminate. }
  specialize (H w I). rewrite Hstep in H. apply H.
Qed.

Lemma spawned_step_wake agent startTime w :
  exists limited w1,
    bothRateLimited w = (Normal limited, w1)
    /\ spawned_step Wake (Sleeping agent startTime) w
       = (Normal (if limited then Sleeping agent startTime else Ready agent startTime), w1).
Proof.
  destruct (safe_run bothRateLimited w safe_bothRateLimited) as (limited & w1 & Hb).
  exists limited, w1. split; [exact Hb|].
  unfold spawned_step, try_catch, bind at 1. simpl. unfold execute_poll, bind at 1.
  rewrite Hb. destruct limited; reflexivity.
Qed.

Lemma recent_stale now timestamps :
  (forall ts, ts ∈ timestamps -> ts <= now - 60000) -> recent now timestamps = [].
Proof.
  intros H. unfold recent. induction timestamps as [|ts l IH]; [reflexivity|].
  rewrite filter_cons. destruct (decide (now - 60000 < ts)) as [Hts|Hts].
  - specialize (H ts ltac:(left)). lia.
  - apply IH. intros ts' Hts'. apply H. right. exact Hts'.
Qed.

Lemma recent_subset now timestamps ts : ts ∈ recent now timestamps -> ts ∈ timestamps.
Proof. unfold recent. intros H. apply list_elem_of_filter in H. apply H. Qed.

Lemma stale_pruned j w accountId now :
  stale_from j w ->
  stale_from j
    (set_manager
       (accounts_set accountId (pruned now (accounts_get accountId (manager w)))
          (manager w)) (tick w)).
Proof.
  intros H k id ts Hk Hts. apply (H k id ts Hk).
  destruct accountId, id; simpl in *; solve [exact Hts | eapply recent_subset, Hts].
Qed.

Lemma free_when_stale j w accountId :
  stale_from j w -> (j <= ticks w)%nat ->
  0 < rateLimit (config (accounts_get accountId (manager w))) ->
  limited_at (clock (ticks w)) (accounts_get accountId (manager w)) = false.
Proof.
  intros Hst Hj Hpos. unfold limited_at. apply bool_decide_eq_false.
  rewrite recent_stale; [simpl; lia|].
  intros ts Hts. apply (Hst (ticks w) accountId ts Hj Hts).
Qed.

Lemma bothRateLimited_cases w :
  exists limited w',
    bothRateLimited w = (Normal limited, w')
    /\ (ticks w < ticks w')%nat
    /\ configs w' = configs w
    /\ (forall j, stale_from j w -> stale_from j w')
    /\ (forall j, stale_from j w -> (j <= ticks w)%nat -> positive_limit w ->
          limited = false).
Proof.
  unfold bothRateLimited, bind. rewrite isRateLimited_eq.
  set (w1 := set_manager _ (tick w)).
  destruct (limited_at (clock (ticks w)) (accounts_get account1 (manager w))) eqn:H1.
  - rewrite isRateLimited_eq. eexists _, _. split; [reflexivity|].
    split; [simpl; lia|]. split; [reflexivity|]. split.
    + intros j Hj. apply stale_pruned, stale_pruned, Hj.
    + intros j Hst Hj [[|] Hpos].
      * rewrite (free_when_stale j w account1 Hst Hj Hpos) in H1. discriminate.
      * apply (free_when_stale j w1 account2).
        -- apply stale_pruned, Hst.
        -- simpl. lia.
        -- exact Hpos.
  - eexists _, _. split; [reflexivity|].
    split; [simpl; lia|]. split; [reflexivity|]. split.
    + intros j Hj. apply stale_pruned, Hj.
    + reflexivity.
Qed.

Lemma run_app self task evs1 evs2 c :
  run self task (evs1 ++ evs2) c = run self task evs2 (run self task evs1 c).
Proof. apply fold_left_app. Qed.

Lemma about_configs_positive_limit : about_configs positive_limit.
Proof.
  intros w w' Hc [accountId H]. exists accountId.
  unfold configs in Hc. injection Hc as H1 H2.
  destruct accountId; simpl in *; congruence.
Qed.

Lemma configs_run (I : World -> Prop) self task evs :
  about_configs I -> forall c, I (world c) -> I (world (run self task evs c)).
Proof.
  intros HI. induction evs as [|ev evs IH]; intros c Hc; [exact Hc|].
  simpl. apply IH, configs_react; assumption.
Qed.

Lemma run_waiting_from self task evs c :
  waiting_if_executing (phase c) ->
  waiting_if_executing (phase (run self task evs c)).
Proof.
  intros Hc.
  assert (forall ph, phase_spec waiting (fun _ => True) True ph <-> waiting_if_executing ph)
    as Hto.
  { intros []; simpl; tauto. }
  apply Hto.
  apply (phase_spec_run waiting (fun _ => True) True self task True
           (fun _ _ _ => spec_anything _ _ (fun _ => I))
           (fun _ _ _ => spec_anything _ _ (fun _ => I))
           (spec_execute_by_strategy_waiting True self)
           (spec_strategy_step_waiting self)
           (fun _ _ => spec_trivial _) (fun _ _ _ => spec_trivial _)
           evs _ (fun H => H)).
  apply Hto, Hc.
Qed.

Lemma wake_loop self task j i agent started : forall n c r,
  accepts_status_updates ->
  phase c = Executing r -> reached r i = Some (Sleeping agent started) ->
  positive_limit (world c) -> stale_from j (world c) ->
  (j <= ticks (world c) + n)%nat ->
  exists m,
    let c' := run self task (repeat (ToWorker i Wake) m) c in
    (effort (phase c') < effort (phase c))%nat /\ under_way (phase c').
Proof.
  induction n as [|n IH]; intros c r Hs Hph Hr Hpos Hst Hj;
    destruct (spawned_step_wake agent started (world c)) as (limited & w1 & Hb & Hstep);
    destruct (bothRateLimited_cases (world c))
      as (limited' & w' & Hb' & Ht & Hc & Hst' & Hfree);
    rewrite Hb in Hb'; injection Hb' as <- <-;
    pose proof (react_reached self task c r i Wake _ Hs Hph Hr) as H;
    rewrite Hstep in H; simpl in H; destruct H as (He & Hu & Hsame).
  - assert (limited = false) as Hl by (apply (Hfree j); [exact Hst | lia | exact Hpos]).
    subst limited. exists 1%nat. simpl in *. split; [lia | exact Hu].
  - destruct limited.
    + specialize (Hsame eq_refl). rewrite (with_worker_same _ _ _ Hr) in Hsame.
      destruct (IH (react self task c (ToWorker i Wake)) r Hs) as (m & Hm & Hu').
      * rewrite Hsame. reflexivity.
      * exact Hr.
      * rewrite Hsame. simpl.
        apply (about_configs_positive_limit (world c)); [symmetry; exact Hc | exact Hpos].
      * rewrite Hsame. simpl. apply Hst', Hst.
      * rewrite Hsame. simpl. lia.
      * exists (S m). simpl in *. split; [|exact Hu'].
        rewrite Hsame in Hm at 2. simpl in Hm. rewrite Hph. simpl. exact Hm.
    + exists 1%nat. simpl in *. split; [lia | exact Hu].
Qed.

Lemma list_bound (l : list Z) : exists b, forall x, x ∈ l -> x <= b.
Proof.
  induction l as [|y l [b IH]]; [exists 0; intros x Hx; inversion Hx|].
  exists (Z.max y b). intros x Hx. apply elem_of_cons in Hx as [->|Hx]; [lia|].
  specialize (IH x Hx). lia.
Qed.

Lemma exists_stale w : clock_diverges -> exists j, stale_from j w.
Proof.
  intros Hclock.
  destruct (list_bound (requestTimestamps (acct1 (manager w)))) as [b1 H1].
  destruct (list_bound (requestTimestamps (acct2 (manager w)))) as [b2 H2].
  destruct (Hclock (Z.max b1 b2 + 60000)) as [j Hj]. exists j.
  intros k accountId ts Hk Hts. specialize (Hj k Hk).
  destruct accountId; simpl in Hts; [specialize (H1 ts Hts) | specialize (H2 ts Hts)]; lia.
Qed.

Lemma advance self task c r :
  accepts_status_updates -> clock_diverges ->
  phase c = Executing r -> waiting r -> positive_limit (world c) ->
  exists evs,
    let c' := run self task evs c in
    (effort (phase c') < effort (phase c))%nat /\ under_way (phase c').
Proof.
  intros Hs Hclock Hph Hw Hpos.
  destruct (waiting_reached r Hw) as (i & wk & Hr & Hnd).
  assert (forall ev,
            moves_on ev wk = true ->
            let c' := react self task c (ToWorker i ev) in
            (effort (phase c') < effort (phase c))%nat /\ under_way (phase c')) as Hmove.
  { intros ev Hev c'. subst c'.
    pose proof (react_reached self task c r i ev wk Hs Hph Hr) as H. simpl in H.
    destruct (spawned_step ev wk (world c)) as [[wk'|e] w1] eqn:Hstep.
    - destruct H as (He & Hu & _).
      pose proof (spawned_step_moves _ _ _ _ _ Hstep Hev). split; [lia | exact Hu].
    - destruct H as [result ->]. rewrite Hph. simpl. split; [lia | exact I]. }
  destruct wk as [agent st|agent st|agent st acct model|result]; [| | |discriminate].
  - destruct (exists_stale (world c) Hclock) as [j Hj].
    destruct (wake_loop self task j i agent st j c r Hs Hph Hr Hpos Hj ltac:(lia))
      as (m & Hm). eauto.
  - exists [ToWorker i Resume]. apply (Hmove Resume eq_refl).
  - exists [ToWorker i (Reply (Rejected (JsNonError JUndefined)))].
    apply (Hmove (Reply (Rejected (JsNonError JUndefined))) eq_refl).
Qed.

Lemma react_aggregating self task c subResults accountId o :
  accepts_status_updates ->
  phase c = Aggregating subResults accountId ->
  exists r, phase (react self task c (Backend o)) = Returned r.
Proof.
  intros Hs Hph. unfold react. rewrite Hph. simpl.
  match goal with
  | |- context [in_try ?s ?t ?st ?body (world c)] =>
      assert (spec (fun _ => True) (fun ph => exists r, ph = Returned r) True body) as Hv;
      [|destruct (body (world c)) as [[ph|e] w'] eqn:Hb]
  end.
  - apply spec_bind; [apply spec_trivial|]. intros finalResult.
    apply spec_bind; [apply spec_trivial|]. intros r. apply spec_ret. eauto.
  - specialize (Hv (world c) I). rewrite Hb in Hv. destruct Hv as [_ [r ->]].
    rewrite (in_try_normal _ _ _ _ _ _ _ Hb). simpl. eauto.
  - destruct (in_try_throw self task (startTime c) _ _ _ _ Hs Hb) as [w'' ->].
    simpl. eauto.
Qed.

Lemma react_decomposing self task c accountId o :
  accepts_status_updates ->
  phase c = Decomposing accountId ->
  under_way (phase (react self task c (Backend o))).
Proof.
  intros Hs Hph. unfold react. rewrite Hph. simpl.
  match goal with
  | |- context [in_try ?s ?t ?st ?body (world c)] =>
      assert (spec (fun _ => True) under_way True body) as Hv;
      [|destruct (body (world c)) as [[ph|e] w'] eqn:Hb]
  end.
  - apply spec_bind; [apply spec_trivial|]. intros subTasks.
    apply spec_bind; [apply spec_trivial|]. intros x.
    intros w _. destruct (continue_with_effort x w) as (ph & w' & -> & _ & Hu & _).
    auto.
  - specialize (Hv (world c) I). rewrite Hb in Hv.
    rewrite (in_try_normal _ _ _ _ _ _ _ Hb). simpl. apply Hv.
  - destruct (in_try_throw self task (startTime c) _ _ _ _ Hs Hb) as [w'' ->].
    exact I.
Qed.

Lemma finish_from self task :
  accepts_status_updates -> clock_diverges ->
  forall n c,
    (effort (phase c) <= n)%nat ->
    under_way (phase c) -> waiting_if_executing (phase c) -> positive_limit (world c) ->
    exists more r, phase (run self task more c) = Returned r.
Proof.
  intros Hs Hclock. induction n as [|n IH]; intros c He Hu Hw Hpos;
    destruct (phase c) as [a|r|subResults a|result|e] eqn:Hph; simpl in *;
    try contradiction; try lia;
    try (exists [], result; exact Hph).
  - destruct (advance self task c r Hs Hclock Hph Hw Hpos) as (evs & Hlt & Hu').
    simpl in Hlt. rewrite Hph in Hlt. simpl in Hlt.
    destruct (IH (run self task evs c)) as (more & result & Hr).
    + lia.
    + exact Hu'.
    + apply run_waiting_from. rewrite Hph. exact Hw.
    + apply configs_run; [apply about_configs_positive_limit | exact Hpos].
    + exists (evs ++ more)%list, result. rewrite run_app. exact Hr.
  - destruct (react_aggregating self task c subResults a
                (Rejected (JsNonError JUndefined)) Hs Hph) as [result Hr].
    exists [Backend (Rejected (JsNonError JUndefined))], result. exact Hr.
Qed.

Lemma can_return self task w evs :
  accepts_status_updates -> clock_diverges -> positive_limit w ->
  exists more r,
    phase (run self task (evs ++ more)%list (executeTask self task w)) = Returned r.
Proof.
  intros Hs Hclock Hpos.
  set (c := run self task evs (executeTask self task w)).
  assert (positive_limit (world c)) as Hpos'.
  { apply configs_run, configs_executeTask;
      [apply about_configs_positive_limit.. | exact Hpos]. }
  pose proof (run_waiting self task w evs) as Hw. fold c in Hw.
  pose proof (run_not_failed self task evs _ Hs (executeTask_not_failed self task w Hs))
    as Hnf. fold c in Hnf.
  destruct (phase c) as [a|r|subResults a|result|e] eqn:Hph.
  - pose proof (react_decomposing self task c a (Rejected (JsNonError JUndefined)) Hs Hph)
      as Hu.
    set (c1 := react self task c (Backend (Rejected (JsNonError JUndefined)))) in *.
    destruct (finish_from self task Hs Hclock (effort (phase c1)) c1 ltac:(lia) Hu)
      as (more & result & Hr).
    + apply (run_waiting_from self task [Backend (Rejected (JsNonError JUndefined))] c).
      rewrite Hph. exact I.
    + apply configs_react; [apply about_configs_positive_limit | exact Hpos'].
    + exists (Backend (Rejected (JsNonError JUndefined)) :: more), result.
      rewrite run_app. exact Hr.
  - destruct (finish_from self task Hs Hclock (effort (phase c)) c ltac:(lia))
      as (more & result & Hr); try (rewrite Hph; simpl; auto; fail); [exact Hpos'|].
    exists more, result. rewrite run_app. exact Hr.
  - destruct (finish_from self task Hs Hclock (effort (phase c)) c ltac:(lia))
      as (more & result & Hr); try (rewrite Hph; simpl; auto; fail); [exact Hpos'|].
    exists more, result. rewrite run_app. exact Hr.
  - exists [], result. rewrite app_nil_r. exact Hph.
  - contradiction.
Qed.


End Engine_facts.

(** * Further properties of the engine *)

(** ** The books of the account manager *)

Section Books_facts.
Context {RT : Runtime} {DB : Persistence}.

Lemma keeps_books_selectAccount I : books I -> keeps I selectAccount.
Proof.
  intros [Hst Hp] w Hw. unfold selectAccount, bind, get_manager.
  destruct (strategy (manager w)) eqn:Hs.
  - exact (Hp w (strategy (manager w)) (currentAccountIndex (manager w) + 1) Hw).
  - apply (keeps_selectLeastLoaded _ Hst w Hw).
  - apply (keeps_selectCostOptimized _ Hst w Hw).
  - exact Hw.
Qed.

Lemma getClient_acquires I sel w :
  books I -> I w ->
  exists a w1,
    I w1
    /\ (forall x, sel = Some x -> a = x)
    /\ getClient sel w
       = (Normal a, acquire a (clock (ticks w1)) (clock (S (ticks w1))) (tick (tick w1))).
Proof.
  intros HI Hw. unfold getClient. unfold bind at 1. destruct sel as [x|].
  - exists x, w. split; [exact Hw|].
    split; [congruence|]. destruct x; reflexivity.
  - pose proof (keeps_books_selectAccount I HI w Hw) as H.
    destruct (selectAccount w) as [[a|e] w0]; [|contradiction].
    exists a, w0. split; [exact H|].
    split; [discriminate|]. destruct a; reflexivity.
Qed.

Lemma triple_getClient I (J : AccountId -> World -> Prop) sel :
  books I ->
  (forall w a pushed used, I w -> J a (acquire a pushed used w)) ->
  triple I (getClient sel) J (fun _ _ => False).
Proof.
  intros HI HJ w Hw.
  destruct (getClient_acquires I sel w HI Hw) as (a & w1 & H1 & _ & ->).
  apply HJ, HI, HI, H1.
Qed.

Lemma books_booked n t q : books (booked n t q).
Proof.
  split; [split|].
  - intros w H. exact H.
  - intros w accountId now (Hn & Ht & Hq & Ha).
    split; [|split; [|split]].
    + destruct accountId; exact Hn.
    + destruct accountId; exact Ht.
    + destruct accountId; exact Hq.
    + intros j. specialize (Ha j).
      destruct accountId, j; simpl in *; try exact Ha;
        pose proof (recent_length now (requestTimestamps (acct1 (manager w))));
        pose proof (recent_length now (requestTimestamps (acct2 (manager w))));
        lia.
  - intros w s k (Hn & Ht & Hq & Ha). split; [|split; [|split]]; assumption.
Qed.

Lemma booked_acquire n t q a pushed used w :
  booked n t q w -> booked (n + 1) t q (acquire a pushed used w).
Proof.
  intros (Hn & Ht & Hq & Ha).
  pose proof (Ha account1) as H1. pose proof (Ha account2) as H2.
  split; [|split; [|split]].
  - destruct a; simpl in *; lia.
  - destruct a; exact Ht.
  - destruct a; exact Hq.
  - intros j. destruct a, j; simpl in *; rewrite ?length_app; simpl; lia.
Qed.

Lemma booked_completeRequest n t q a tokensUsed cost :
  triple (booked n t q) (completeRequest a tokensUsed cost)
    (fun _ => booked n (t + tokensUsed) (q + cost)%Q) (fun _ _ => False).
Proof.
  intros w (Hn & Ht & Hq & Ha).
  pose proof (Ha account1) as H1. pose proof (Ha account2) as H2.
  split; [|split; [|split]].
  - destruct a; exact Hn.
  - destruct a; simpl in *; lia.
  - destruct a; simpl in *; rewrite <- Hq; ring.
  - intros j. destruct a, j; simpl in *; lia.
Qed.

Lemma booked_eq n t q n' t' q' w :
  n = n' -> t = t' -> (q == q')%Q -> booked n t q w -> booked n' t' q' w.
Proof.
  intros -> -> Hq (Hn & Ht & Hc & Ha). split; [|split; [|split]]; try assumption.
  rewrite Hc. exact Hq.
Qed.

Lemma booked_perform n t q c :
  triple (booked n t q) (perform c)
    (fun _ => booked (n + acquired [c]) (t + released_tokens [c])
                (q + released_cost [c])%Q)
    (fun _ _ => False).
Proof.
  pose proof (books_booked n t q) as Hb.
  assert (forall w, booked n t q w -> booked (n + 0) (t + 0) (q + 0)%Q w) as Hsame.
  { intros w. apply booked_eq; [lia | lia | ring]. }
  assert (forall A (c : M A), keeps (booked n t q) c ->
            triple (booked n t q) (let* _ := c in ret [])
              (fun (_ : list AccountId) => booked (n + 0) (t + 0) (q + 0)%Q)
              (fun _ _ => False)) as Hkeep.
  { intros A c0 Hc w Hw. specialize (Hc w Hw). unfold bind.
    destruct (c0 w) as [[x|e] w']; [apply Hsame, Hc | exact Hc]. }
  destruct c as [|sel|a tokensUsed cost| | |s]; simpl.
  - intros w Hw. pose proof (keeps_books_selectAccount _ Hb w Hw) as H. unfold bind.
    destruct (selectAccount w) as [[x|e] w']; [apply Hsame, H | exact H].
  - assert (triple (booked n t q) (getClient sel)
              (fun _ => booked (n + 1) t q) (fun _ _ => False)) as H.
    { apply triple_getClient; [exact Hb|]. intros w a pushed used.
      apply booked_acquire. }
    assert (forall w, booked (n + 1) t q w ->
                      booked (n + (1 + 0)) (t + 0) (q + 0)%Q w) as Hone.
    { intros w. apply booked_eq; [lia | lia | ring]. }
    destruct sel as [a|]; intros w Hw; specialize (H w Hw); unfold bind;
      destruct (getClient _ w) as [[x|e] w']; solve [apply Hone, H | exact H].
  - intros w Hw. pose proof (booked_completeRequest n t q a tokensUsed cost w Hw) as H.
    unfold bind. destruct (completeRequest a tokensUsed cost w) as [[x|e] w'];
      [|exact H].
    revert H. apply booked_eq; [lia | lia | ring].
  - apply Hkeep, keeps_bothRateLimited, Hb.
  - apply Hkeep, keeps_getHealthStatus, Hb.
  - apply Hkeep. intros w Hw. exact (proj2 Hb w s _ Hw).
Qed.

Lemma booked_perform_all calls : forall n t q,
  triple (booked n t q) (perform_all calls)
    (fun _ => booked (n + acquired calls) (t + released_tokens calls)
                (q + released_cost calls)%Q)
    (fun _ _ => False).
Proof.
  induction calls as [|c rest IH]; intros n t q.
  - intros w. apply booked_eq; [simpl; lia | simpl; lia | simpl; ring].
  - intros w Hw. cbn [perform_all]. unfold bind at 1.
    pose proof (booked_perform n t q c w Hw) as H.
    destruct (perform c w) as [[chosen|e] w1]; [|exact H].
    unfold bind at 1.
    pose proof (IH _ _ _ w1 H) as H'.
    destruct (perform_all rest w1) as [[later|e] w2]; [|exact H'].
    revert H'. apply booked_eq.
    + destruct c; simpl; lia.
    + destruct c; simpl; lia.
    + destruct c; simpl; ring.
Qed.

Lemma booked_new c1 c2 s w :
  booked 0 0 0%Q (set_manager (new_AccountManager c1 c2 s) w).
Proof.
  split; [reflexivity|]. split; [reflexivity|]. split; [reflexivity|].
  intros j. destruct j; simpl; lia.
Qed.

Lemma perform_all_booked c1 c2 s calls w :
  exists chosen w',
    perform_all calls (set_manager (new_AccountManager c1 c2 s) w) = (Normal chosen, w')
    /\ booked (acquired calls) (released_tokens calls) (released_cost calls) w'.
Proof.
  pose proof (booked_perform_all calls 0 0 0%Q _ (booked_new c1 c2 s w)) as H.
  destruct (perform_all calls _) as [[chosen|e] w']; [|contradiction].
  exists chosen, w'. split; [reflexivity|].
  revert H. apply booked_eq; [lia | lia | ring].
Qed.

(** X1. Whatever operations are issued to a new account manager, the
    combined [totalRequests] that [getAllStats] reports afterwards is the
    number of [getClient] calls among them; the requests in flight, in total
    and per account, lie between zero and the number of requests made, and
    no account has more timestamps recorded than requests made. *)
Theorem requests_are_counted c1 c2 s calls w :
  exists chosen w' all,
    perform_all calls (set_manager (new_AccountManager c1 c2 s) w) = (Normal chosen, w')
    /\ getAllStats w' = (Normal all, w')
    /\ Combined.totalRequests (AllStats.combined all) = acquired calls
    /\ 0 <= Combined.activeRequests (AllStats.combined all) <= acquired calls
    /\ forall accountId,
         let a := accounts_get accountId (manager w') in
         0 <= activeRequests (stats a) <= totalRequests (stats a)
         /\ Z.of_nat (length (requestTimestamps a)) <= totalRequests (stats a).
Proof.
  destruct (perform_all_booked c1 c2 s calls w) as (chosen & w' & Hrun & Hn & _ & _ & Ha).
  exists chosen, w'. eexists. split; [exact Hrun|]. split; [reflexivity|].
  pose proof (Ha account1) as H1. pose proof (Ha account2) as H2.
  simpl in *. split; [exact Hn|]. split; [lia | exact Ha].
Qed.


Lemma books_same_books w0 : books (same_books w0).
Proof.
  split; [split|].
  - intros w H. exact H.
  - intros w accountId now H j. specialize (H j). destruct accountId, j; exact H.
  - intros w s k H j. specialize (H j). destruct j; exact H.
Qed.

(** X3. A request acquired with [getClient] and released with
    [completeRequest] leaves the in-flight counter of its account where it
    was (the counter not being negative), has counted one request, the
    tokens and the cost for that account, and has left the statistics of the
    other account alone. *)
Theorem acquire_then_release sel tokensUsed cost w :
  in_flight_ok w ->
  exists a w1 w2,
    getClient sel w = (Normal a, w1)
    /\ completeRequest a tokensUsed cost w1 = (Normal tt, w2)
    /\ (forall x, sel = Some x -> a = x)
    /\ (let before := stats (accounts_get a (manager w)) in
        let after := stats (accounts_get a (manager w2)) in
        activeRequests after = activeRequests before
        /\ totalRequests after = totalRequests before + 1
        /\ totalTokens after = totalTokens before + tokensUsed
        /\ totalCost after = (totalCost before + cost)%Q)
    /\ stats (accounts_get (other a) (manager w2))
       = stats (accounts_get (other a) (manager w)).
Proof.
  intros Hok.
  destruct (getClient_acquires (same_books w) sel w (books_same_books w))
    as (a & w1 & Hsame & Hsel & Hget).
  { intros j. split; reflexivity. }
  exists a. eexists _, _. split; [exact Hget|]. split; [reflexivity|].
  split; [exact Hsel|].
  pose proof (Hsame account1) as [H1 _]. pose proof (Hsame account2) as [H2 _].
  pose proof (Hok a) as Ha.
  destruct a; simpl in *; rewrite ?H1, ?H2; repeat split; lia.
Qed.

(** *** Selection when the rate limits do not decide *)

Lemma recent_recent now earlier timestamps :
  earlier <= now -> recent now (recent earlier timestamps) = recent now timestamps.
Proof.
  intros Hle. unfold recent. induction timestamps as [|ts l IH]; [reflexivity|].
  rewrite (filter_cons (fun ts => earlier - 60000 < ts)).
  rewrite (filter_cons (fun ts => now - 60000 < ts) ts l).
  destruct (decide (earlier - 60000 < ts)), (decide (now - 60000 < ts));
    rewrite ?(filter_cons (fun ts => now - 60000 < ts)); repeat case_decide;
    try lia; rewrite IH; reflexivity.
Qed.

Lemma limited_at_pruned_later now earlier a :
  earlier <= now -> limited_at now (pruned earlier a) = limited_at now a.
Proof.
  intros Hle. unfold limited_at, pruned. simpl. rewrite (recent_recent _ _ _ Hle).
  reflexivity.
Qed.

(** With the same rate-limit status for both accounts at the clock
    readings taken, the two checks of [selectLeastLoaded] and
    [selectCostOptimized] fall through; what follows runs with the
    statistics untouched. *)
Lemma equal_status_falls_through (rest : M AccountId) w b :
  clock_monotone ->
  (forall k accountId, (k < 4)%nat ->
     limited_at (clock (ticks w + k)) (accounts_get accountId (manager w)) = b) ->
  exists w',
    same_books w w'
    /\ (let* c1 := and_not (isRateLimited account1) (isRateLimited account2) in
        if c1 then ret account2 else
        let* c2 := and_not (isRateLimited account2) (isRateLimited account1) in
        if c2 then ret account1 else rest) w = rest w'.
Proof.
  intros Hmono Hb.
  pose proof (Hb 0%nat account1 ltac:(lia)) as H10.
  pose proof (Hb 1%nat account2 ltac:(lia)) as H21.
  pose proof (Hb 2%nat account2 ltac:(lia)) as H22.
  pose proof (Hb 3%nat account1 ltac:(lia)) as H13.
  rewrite Nat.add_0_r in H10.
  replace (ticks w + 1)%nat with (S (ticks w)) in H21 by lia.
  replace (ticks w + 2)%nat with (S (S (ticks w))) in H22 by lia.
  replace (ticks w + 3)%nat with (S (S (S (ticks w)))) in H13 by lia.
  cbn [accounts_get] in *.
  assert (clock (ticks w) <= clock (S (S (S (ticks w))))) as Hle1
    by (apply Hmono; lia).
  assert (clock (S (ticks w)) <= clock (S (S (ticks w)))) as Hle2
    by (apply Hmono; lia).
  destruct b.
  - eexists. split; cycle 1.
    + unfold bind at 1. unfold and_not at 1. unfold bind at 1.
      rewrite isRateLimited_eq. cbn [accounts_get]. rewrite H10. unfold bind at 1.
      rewrite isRateLimited_eq.
      cbn [accounts_get accounts_set manager set_manager tick ticks acct1 acct2].
      rewrite H21. unfold ret at 1. cbn [negb]. cbv beta iota.
      unfold bind at 1. unfold and_not at 1. unfold bind at 1.
      rewrite isRateLimited_eq.
      cbn [accounts_get accounts_set manager set_manager tick ticks acct1 acct2].
      rewrite (limited_at_pruned_later _ _ _ Hle2), H22. unfold bind at 1.
      rewrite isRateLimited_eq.
      cbn [accounts_get accounts_set manager set_manager tick ticks acct1 acct2].
      rewrite (limited_at_pruned_later _ _ _ Hle1), H13.
      unfold ret at 1. cbn [negb]. cbv beta iota. reflexivity.
    + intros j. destruct j; split; reflexivity.
  - eexists. split; cycle 1.
    + unfold bind at 1. unfold and_not at 1. unfold bind at 1.
      rewrite isRateLimited_eq. cbn [accounts_get]. rewrite H10.
      unfold ret at 1. cbv beta iota.
      unfold bind at 1. unfold and_not at 1. unfold bind at 1.
      rewrite isRateLimited_eq.
      cbn [accounts_get accounts_set manager set_manager tick ticks acct1 acct2].
      rewrite H21. reflexivity.
    + intros j. destruct j; split; reflexivity.
Qed.


(** *** The concurrency bound *)

Lemma blind_to_bind {A B} f (c : M A) (k : A -> M B) :
  blind_to f c -> (forall a, blind_to f (k a)) -> blind_to f (bind c k).
Proof.
  intros Hc Hk w. unfold bind. rewrite Hc.
  destruct (c w) as [[a|e] w1]; simpl; [apply Hk | reflexivity].
Qed.

Lemma blind_to_ret {A} f (a : A) : blind_to f (ret a).
Proof. intros w. reflexivity. Qed.

Lemma blind_to_if {A} f (b : bool) (c1 c2 : M A) :
  blind_to f c1 -> blind_to f c2 -> blind_to f (if b then c1 else c2).
Proof. destruct b; auto. Qed.

Section Bound.
Variables n1 n2 : Z.

Lemma blind_isRateLimited accountId :
  blind_to (with_maxConcurrent n1 n2) (isRateLimited accountId).
Proof. intros w. rewrite !isRateLimited_eq. destruct accountId; reflexivity. Qed.

Lemma blind_and_not (a b : M bool) :
  blind_to (with_maxConcurrent n1 n2) a -> blind_to (with_maxConcurrent n1 n2) b ->
  blind_to (with_maxConcurrent n1 n2) (and_not a b).
Proof.
  intros Ha Hb. unfold and_not. apply blind_to_bind; [exact Ha|].
  intros x. apply blind_to_if; [|apply blind_to_ret].
  apply blind_to_bind; [exact Hb|]. intros y. apply blind_to_ret.
Qed.

Lemma blind_checks (rest : M AccountId) :
  blind_to (with_maxConcurrent n1 n2) rest ->
  blind_to (with_maxConcurrent n1 n2)
    (let* c1 := and_not (isRateLimited account1) (isRateLimited account2) in
     if c1 then ret account2 else
     let* c2 := and_not (isRateLimited account2) (isRateLimited account1) in
     if c2 then ret account1 else rest).
Proof.
  intros Hrest.
  apply blind_to_bind; [apply blind_and_not; apply blind_isRateLimited|].
  intros c1. apply blind_to_if; [apply blind_to_ret|].
  apply blind_to_bind; [apply blind_and_not; apply blind_isRateLimited|].
  intros c2. apply blind_to_if; [apply blind_to_ret | exact Hrest].
Qed.

Lemma selectAccount_eq w :
  selectAccount w
  = match strategy (manager w) with
    | round_robin => selectRoundRobin w
    | least_loaded => selectLeastLoaded w
    | cost_optimized => selectCostOptimized w
    | other_strategy _ => ret account1 w
    end.
Proof. unfold selectAccount, bind, get_manager. destruct (strategy (manager w)); reflexivity. Qed.

Lemma blind_selectAccount : blind_to (with_maxConcurrent n1 n2) selectAccount.
Proof.
  intros w. rewrite !selectAccount_eq.
  change (strategy (manager (with_maxConcurrent n1 n2 w))) with (strategy (manager w)).
  destruct (strategy (manager w)).
  - reflexivity.
  - apply blind_checks. intros w0. reflexivity.
  - apply blind_checks. intros w0. reflexivity.
  - reflexivity.
Qed.

Lemma blind_getClient sel : blind_to (with_maxConcurrent n1 n2) (getClient sel).
Proof.
  unfold getClient. apply blind_to_bind.
  - destruct sel; [apply blind_to_ret | apply blind_selectAccount].
  - intros a w. destruct a; reflexivity.
Qed.

End Bound.

(** X5. The concurrency bound of an account is never enforced: with any
    other [maxConcurrent] for the two accounts, [selectAccount] and
    [getClient] choose the same account and write the same books, so an
    account at or above its bound is handed out like any other. *)
Theorem selection_ignores_maxConcurrent n1 n2 sel w :
  (selectAccount (with_maxConcurrent n1 n2 w)).1 = (selectAccount w).1
  /\ (getClient sel (with_maxConcurrent n1 n2 w)).1 = (getClient sel w).1
  /\ (getClient sel (with_maxConcurrent n1 n2 w)).2
     = with_maxConcurrent n1 n2 (getClient sel w).2.
Proof.
  rewrite blind_selectAccount, blind_getClient. auto.
Qed.

(** X6. What [getHealthStatus] reports for an account: the requests in
    flight, the rate limit less the number of requests recorded within the
    last sixty seconds, and as [available] whether that remainder is positive
    and the requests in flight are below [maxConcurrent]; the statistics are
    not touched. *)
Theorem health_status_is_consistent w :
  exists h1 h2 w',
    getHealthStatus w = (Normal (h1, h2), w')
    /\ same_books w w'
    /\ reports h1 (acct1 (manager w)) (clock (ticks w))
    /\ reports h2 (acct2 (manager w)) (clock (S (ticks w))).
Proof.
  unfold getHealthStatus. unfold bind at 1. rewrite isRateLimited_eq.
  unfold bind at 1. rewrite isRateLimited_eq.
  eexists _, _, _. split; [reflexivity|]. split.
  - intros j. destruct j; split; reflexivity.
  - split; (split; [reflexivity|]); (split; [reflexivity|]); simpl;
      unfold limited_at; rewrite andb_true_iff, negb_true_iff,
        bool_decide_eq_false, bool_decide_eq_true; simpl; lia.
Qed.

End Books_facts.

(** ** The sub-agent *)

Section Sub_agent_facts.
Context {RT : Runtime} {DB : Persistence}.

Lemma execute_reply_succeeds agent startTime accountId model r content w :
  accepts_all ->
  first_content r = Normal content ->
  let text := str_or content "No response" in
  let tokens := usage_tokens r in
  let cost := sub_estimateCost tokens model in
  exists cid stamp finished w',
    execute_reply agent startTime accountId model (Resolved r) w
    = (Normal {| SubAgentResult.taskId := SubAgentTask.id (SubAgent.task agent);
                 SubAgentResult.success := true;
                 SubAgentResult.result := text;
                 SubAgentResult.tokensUsed := tokens;
                 SubAgentResult.cost := cost;
                 SubAgentResult.account := accountId;
                 SubAgentResult.duration := finished - startTime;
                 SubAgentResult.error := None |}, w')
    /\ manager w' = manager (completeRequest accountId tokens cost w).2
    /\ database w'
       = updateAgentStatus (SubAgent.id agent) "completed" text
         :: saveConversation cid (SubAgent.superAgentId agent) (Some (SubAgent.id agent))
              accountId "assistant" text stamp (Some (tokens, cost))
         :: database w.
Proof.
  intros Hdb Hc text tokens cost.
  unfold execute_reply, try_catch. cbn [awaited]. unfold bind at 1. cbn [ret].
  unfold bind at 1, lift at 1. rewrite Hc. fold text tokens cost.
  unfold bind, db_call, uuidv4, Date_now, completeRequest, get_account, put_account,
    get_manager, put_manager, ret. simpl. rewrite !Hdb.
  eexists _, _, _, _. split; [reflexivity|]. split; reflexivity.
Qed.

(** X7. A sub-agent whose backend call has resolved with its [choices]
    returns the content (or 'No response' for an absent or empty one) with
    [success = true], the tokens of the response and their cost at the rate
    of its model; it has released its account with these tokens and this
    cost, and recorded the answer and its completion (the persistence layer
    accepting the rows). *)
Theorem sub_agent_success agent startTime accountId model r content w :
  accepts_all ->
  first_content r = Normal content ->
  let text := str_or content "No response" in
  let tokens := usage_tokens r in
  let cost := sub_estimateCost tokens model in
  exists cid stamp finished w',
    execute_reply agent startTime accountId model (Resolved r) w
    = (Normal {| SubAgentResult.taskId := SubAgentTask.id (SubAgent.task agent);
                 SubAgentResult.success := true;
                 SubAgentResult.result := text;
                 SubAgentResult.tokensUsed := tokens;
                 SubAgentResult.cost := cost;
                 SubAgentResult.account := accountId;
                 SubAgentResult.duration := finished - startTime;
                 SubAgentResult.error := None |}, w')
    /\ manager w' = manager (completeRequest accountId tokens cost w).2
    /\ database w'
       = updateAgentStatus (SubAgent.id agent) "completed" text
         :: saveConversation cid (SubAgent.superAgentId agent) (Some (SubAgent.id agent))
              accountId "assistant" text stamp (Some (tokens, cost))
         :: database w.
Proof. apply execute_reply_succeeds. Qed.

(** X8. When the backend call of a sub-agent has resolved with its
    [choices] but the persistence layer refuses the row of the answer, the
    [catch] block takes over: the result has [success = false], no tokens and
    no cost, and the refusal's message as its error, although the account has
    been charged the tokens and the cost of the response; and the request is
    released a second time. *)
Theorem refused_answer_releases_twice agent startTime accountId model r content e w :
  accepts_status_updates ->
  first_content r = Normal content ->
  let text := str_or content "No response" in
  let tokens := usage_tokens r in
  let cost := sub_estimateCost tokens model in
  db_fault (database w)
    (saveConversation (uuid_nth (minted w)) (SubAgent.superAgentId agent)
       (Some (SubAgent.id agent)) accountId "assistant" text (clock (ticks w))
       (Some (tokens, cost)))
  = Some e ->
  exists finished w',
    execute_reply agent startTime accountId model (Resolved r) w
    = (Normal {| SubAgentResult.taskId := SubAgentTask.id (SubAgent.task agent);
                 SubAgentResult.success := false;
                 SubAgentResult.result := "";
                 SubAgentResult.tokensUsed := 0;
                 SubAgentResult.cost := 0%Q;
                 SubAgentResult.account := accountId;
                 SubAgentResult.duration := finished - startTime;
                 SubAgentResult.error := Some (errorMsg e) |}, w')
    /\ manager w'
       = manager (completeRequest accountId 0 0%Q
                    (completeRequest accountId tokens cost w).2).2.
Proof.
  intros Hs Hc text tokens cost Hrow.
  unfold execute_reply, try_catch. cbn [awaited]. unfold bind at 1. cbn [ret].
  unfold bind at 1, lift at 1. rewrite Hc. fold text tokens cost.
  unfold bind at 1. cbn [completeRequest].
  set (w1 := (completeRequest accountId tokens cost w).2).
  assert (completeRequest accountId tokens cost w = (Normal tt, w1)) as -> by reflexivity.
  unfold bind at 1, uuidv4 at 1. unfold bind at 1, Date_now at 1.
  unfold bind at 1, db_call at 1. cbn [database minted ticks w1 snd completeRequest].
  change (database w1) with (database w). change (minted w1) with (minted w).
  change (ticks w1) with (ticks w). rewrite Hrow.
  unfold execute_catch, bind at 1, db_call. rewrite Hs.
  eexists _, _. split; reflexivity.
Qed.

Lemma rate_by_complexity complexity tokens :
  let cost := sub_estimateCost tokens (selectModel complexity) in
  (complexity = JStr "simple" -> cost == inject_Z tokens * (5 # 1000000))%Q
  /\ (complexity = JStr "complex" -> cost == inject_Z tokens * (15 # 1000000))%Q
  /\ (complexity <> JStr "simple" -> complexity <> JStr "complex" ->
      cost == inject_Z tokens * (8 # 1000000))%Q.
Proof.
  intros cost. subst cost. split; [|split].
  - intros ->. unfold sub_estimateCost. simpl. field.
  - intros ->. unfold sub_estimateCost. simpl. field.
  - intros H1 H2. unfold selectModel.
    assert (js_is_str complexity "simple" = false) as ->.
    { destruct complexity; try reflexivity. simpl.
      apply String.eqb_neq. congruence. }
    assert (js_is_str complexity "complex" = false) as ->.
    { destruct complexity; try reflexivity. simpl.
      apply String.eqb_neq. congruence. }
    destruct (js_is_str complexity "medium"); unfold sub_estimateCost; simpl; field.
Qed.

Lemma execute_acquire_calls agent startTime w :
  accepts_all ->
  exists accountId w',
    execute_acquire agent startTime w
    = (Normal (Calling agent startTime accountId
                 (selectModel (SubAgentTask.complexity (SubAgent.task agent)))), w').
Proof.
  intros Hdb. unfold execute_acquire. unfold bind at 1.
  destruct (safe_run (getClient None) w (safe_getClient None)) as (a & w1 & ->).
  unfold bind, try_catch, db_call, uuidv4, Date_now, ret. simpl. rewrite !Hdb.
  eauto.
Qed.


(** *** Waiting for an account *)

Lemma execute_run_wake agent startTime rest w :
  exists limited w1,
    bothRateLimited w = (Normal limited, w1)
    /\ execute_run (Wake :: rest) (Sleeping agent startTime) w
       = execute_run rest
           (if limited then Sleeping agent startTime else Ready agent startTime) w1.
Proof.
  destruct (bothRateLimited_cases w) as (limited & w1 & Hb & _).
  exists limited, w1. split; [exact Hb|].
  cbn [execute_run execute_step]. unfold bind at 1, execute_poll, bind at 1.
  rewrite Hb. reflexivity.
Qed.

Lemma wait_loop agent startTime j : forall n w,
  stale_from j w -> positive_limit w -> (j <= ticks w + n)%nat ->
  exists m w',
    execute_run (repeat Wake (S m)) (Sleeping agent startTime) w
    = (Normal (Ready agent startTime), w').
Proof.
  induction n as [|n IH]; intros w Hst Hpos Hj;
    destruct (bothRateLimited_cases w) as (limited & w1 & Hb & Ht & Hc & Hst' & Hfree).
  - assert (limited = false) as -> by (apply (Hfree j); [exact Hst | lia | exact Hpos]).
    exists 0%nat, w1. cbn [repeat].
    destruct (execute_run_wake agent startTime [] w) as (l & w2 & Hb' & ->).
    rewrite Hb in Hb'. injection Hb' as <- <-. reflexivity.
  - destruct limited.
    + destruct (IH w1) as (m & w' & Hm).
      * apply Hst', Hst.
      * apply (about_configs_positive_limit w); [symmetry; exact Hc | exact Hpos].
      * lia.
      * exists (S m), w'. change (repeat Wake (S (S m))) with (Wake :: repeat Wake (S m)).
        destruct (execute_run_wake agent startTime (repeat Wake (S m)) w)
          as (l & w2 & Hb' & ->).
        rewrite Hb in Hb'. injection Hb' as <- <-. exact Hm.
    + exists 0%nat, w1. cbn [repeat].
      destruct (execute_run_wake agent startTime [] w) as (l & w2 & Hb' & ->).
      rewrite Hb in Hb'. injection Hb' as <- <-. reflexivity.
Qed.

(** X10. [waitForAvailability] comes to an end: when the clock advances
    without bound and one account allows requests at all, a sub-agent that
    sleeps in it is through after finitely many polls, nothing else being
    requested in between. *)
Theorem waiting_ends agent startTime w :
  clock_diverges -> positive_limit w ->
  exists polls w',
    execute_run (repeat Wake polls) (Sleeping agent startTime) w
    = (Normal (Ready agent startTime), w').
Proof.
  intros Hclock Hpos. destruct (exists_stale w Hclock) as [j Hj].
  destruct (wait_loop agent startTime j j w Hj Hpos ltac:(lia)) as (m & w' & H).
  exists (S m), w'. exact H.
Qed.

Lemma about_configs_no_limit : about_configs no_limit.
Proof.
  intros w w' Hc H accountId. specialize (H accountId).
  unfold configs in Hc. injection Hc as H1 H2.
  destruct accountId; simpl in *; congruence.
Qed.

Lemma limited_without_limit now a : rateLimit (config a) <= 0 -> limited_at now a = true.
Proof. intros H. unfold limited_at. apply bool_decide_eq_true. lia. Qed.

Lemma bothRateLimited_no_limit w :
  no_limit w -> exists w', bothRateLimited w = (Normal true, w') /\ no_limit w'.
Proof.
  intros H. unfold bothRateLimited, bind. rewrite isRateLimited_eq.
  rewrite (limited_without_limit _ _ (H account1)). rewrite isRateLimited_eq.
  eexists. split.
  - f_equal. f_equal. apply limited_without_limit. exact (H account2).
  - intros j. specialize (H j). destruct j; exact H.
Qed.

Lemma execute_run_no_limit agent startTime evs : forall w,
  no_limit w ->
  exists w', execute_run evs (Sleeping agent startTime) w
             = (Normal (Sleeping agent startTime), w')
             /\ no_limit w'.
Proof.
  induction evs as [|ev evs IH]; intros w Hw; [exists w; split; [reflexivity | exact Hw]|].
  destruct ev; cbn [execute_run execute_step]; unfold bind at 1; cbn [ret];
    try (apply IH, Hw).
  unfold execute_poll, bind at 1.
  destruct (bothRateLimited_no_limit w Hw) as (w1 & -> & Hw1). cbn [ret].
  apply IH, Hw1.
Qed.

(** X11. With a rate limit of zero or less on both accounts a sub-agent
    never gets past [waitForAvailability]: whatever happens, it is still
    asleep there. *)
Theorem without_limit_asleep agent evs w :
  no_limit w ->
  exists startTime w',
    (let* wk := execute_begin agent in execute_run evs wk) w
    = (Normal (Sleeping agent startTime), w').
Proof.
  intros Hw. unfold bind at 1, execute_begin, bind at 1, Date_now.
  unfold execute_poll, bind at 1.
  destruct (bothRateLimited_no_limit (tick w)) as (w1 & Hb & Hw1).
  { intros j. specialize (Hw j). destruct j; exact Hw. }
  change (bothRateLimited (tick w) = (Normal true, w1)) in Hb.
  unfold tick in Hb. rewrite Hb. cbn [ret].
  destruct (execute_run_no_limit agent (clock (ticks w)) evs w1 Hw1) as (w' & -> & _).
  eauto.
Qed.

End Sub_agent_facts.

(** ** The super-agent: decomposition and synthesis *)

Section Super_agent_facts.
Context {RT : Runtime} {DB : Persistence}.

Lemma map_subTasks_entries task items : forall index w subTasks w',
  map_subTasks task index items w = (Normal subTasks, w') ->
  manager w' = manager w
  /\ minted w' = (minted w + length items)%nat
  /\ length subTasks = length items
  /\ forall i st t,
       items !! i = Some st -> subTasks !! i = Some t ->
       SubAgentTask.id t = uuid_nth (minted w + i)
       /\ SubAgentTask.parentTaskId t = Task.id task
       /\ SubAgentTask.context t = JUndefined
       /\ js_get st "description" = Normal (SubAgentTask.description t)
       /\ (exists p,
             js_get st "priority" = Normal p
             /\ SubAgentTask.priority t
                = if truthy p then p else JNum (inject_Z (Z.of_nat (index + i) + 1)))
       /\ (exists c,
             js_get st "estimatedComplexity" = Normal c
             /\ SubAgentTask.complexity t = if truthy c then c else JStr "medium").
Proof.
  induction items as [|st rest IH]; intros index w subTasks w' H; simpl in H.
  - injection H as <- <-. split; [reflexivity|]. split; [simpl; lia|].
    split; [reflexivity|].
    intros i st t Hi. rewrite lookup_nil in Hi. discriminate.
  - unfold bind at 1 in H. simpl in H.
    unfold bind at 1, lift at 1 in H.
    destruct (js_get st "description") as [d|] eqn:Hd; [|discriminate].
    unfold bind at 1, lift at 1 in H.
    destruct (js_get st "priority") as [p|] eqn:Hp; [|discriminate].
    unfold bind at 1, lift at 1 in H.
    destruct (js_get st "estimatedComplexity") as [c|] eqn:Hc; [|discriminate].
    unfold bind at 1 in H.
    destruct (map_subTasks task (S index) rest _) as [[l|e] w''] eqn:E; [|discriminate].
    injection H as <- <-.
    destruct (IH _ _ _ _ E) as (Hm & Hn & Hl & Hrest). simpl in Hm, Hn.
    split; [exact Hm|]. split; [simpl; lia|]. split; [simpl; lia|].
    intros [|i] st' t Hi Ht; simpl in Hi, Ht.
    + injection Hi as <-. injection Ht as <-. simpl.
      rewrite !Nat.add_0_r. unfold js_or. repeat split; eauto.
    + destruct (Hrest i st' t Hi Ht) as (H1 & H2 & H3 & H4 & H5 & H6).
      replace (minted w + S i)%nat with (S (minted w) + i)%nat by lia.
      replace (index + S i)%nat with (S index + i)%nat by lia.
      repeat split; assumption.
Qed.

Lemma map_subTasks_returns task items : forall index w,
  JNull ∉ items -> JUndefined ∉ items ->
  exists subTasks w', map_subTasks task index items w = (Normal subTasks, w').
Proof.
  induction items as [|st rest IH]; intros index w H1 H2; simpl; [eauto|].
  apply not_elem_of_cons in H1 as [H1 H1']. apply not_elem_of_cons in H2 as [H2 H2'].
  destruct (js_get_normal st "description") as [d Hd]; [congruence..|].
  destruct (js_get_normal st "priority") as [p Hp]; [congruence..|].
  destruct (js_get_normal st "estimatedComplexity") as [c Hc]; [congruence..|].
  unfold bind at 1. simpl.
  unfold bind at 1, lift at 1. rewrite Hd.
  unfold bind at 1, lift at 1. rewrite Hp.
  unfold bind at 1, lift at 1. rewrite Hc.
  unfold bind at 1.
  edestruct (IH (S index)) as (l & w' & ->); [exact H1' | exact H2'|]. eauto.
Qed.

(** How [decomposeTask] ends: with its fall-back, or with what the [map]
    over the parsed array gives, the account released. *)
Lemma decomposeTask_reply_released task accountId r w :
  decomposeTask_reply task accountId (Resolved r) w
  = try_catch
      (let* content := lift (decomposition_text r) in
       let* subTasksData := lift (JSON_parse content) in
       subTasksData_map task subTasksData)
      (fun _ => let* id := uuidv4 in ret [fallback_subTask task id])
      (completeRequest accountId (usage_tokens r) (estimateCost (usage_tokens r)) w).2.
Proof. rewrite decomposeTask_reply_resolved. reflexivity. Qed.

Lemma decomposeTask_reply_cases task accountId o w :
  falls_back task (decomposeTask_reply task accountId o w)
  \/ exists r found items subTasks w',
       o = Resolved r
       /\ first_content r = Normal found
       /\ JSON_parse (str_or found "[]") = Normal (JArr items)
       /\ map_subTasks task 0 items
            (completeRequest accountId (usage_tokens r)
               (estimateCost (usage_tokens r)) w).2
          = (Normal subTasks, w')
       /\ decomposeTask_reply task accountId o w = (Normal subTasks, w').
Proof.
  destruct o as [e|r].
  - left. unfold falls_back, decomposeTask_reply, try_catch. simpl. eauto.
  - rewrite decomposeTask_reply_released.
    set (w1 := (completeRequest accountId (usage_tokens r)
                  (estimateCost (usage_tokens r)) w).2).
    unfold try_catch, decomposition_text, bind, lift.
    destruct (first_content r) as [found|e] eqn:Hf;
      [|left; unfold falls_back; simpl; eauto].
    destruct (JSON_parse (str_or found "[]")) as [v|e] eqn:Hp;
      [|left; unfold falls_back; simpl; eauto].
    destruct v as [| | | | |items|]; try (left; unfold falls_back; simpl; eauto; fail).
    cbn [subTasksData_map].
    destruct (map_subTasks task 0 items w1) as [[subTasks|e] w'] eqn:Hm;
      [|left; unfold falls_back; simpl; eauto].
    right. exists r, found, items, subTasks, w'. auto.
Qed.

(** X12. From an answer whose content is the JSON text of an array
    without null entries, [decomposeTask] makes one sub-task per entry, in
    the order of the array: the sub-task at position [i] has the [i]-th new
    uuid as its id, the task as its parent, the entry's description, the
    entry's priority or else [i + 1], and the entry's [estimatedComplexity]
    or else 'medium'; the account is released with the tokens of the
    answer. *)
Theorem decomposition_maps_entries task accountId r found items w :
  first_content r = Normal found ->
  JSON_parse (str_or found "[]") = Normal (JArr items) ->
  JNull ∉ items -> JUndefined ∉ items ->
  exists subTasks w',
    decomposeTask_reply task accountId (Resolved r) w = (Normal subTasks, w')
    /\ manager w'
       = manager (completeRequest accountId (usage_tokens r)
                    (estimateCost (usage_tokens r)) w).2
    /\ length subTasks = length items
    /\ forall i st t,
         items !! i = Some st -> subTasks !! i = Some t ->
         SubAgentTask.id t = uuid_nth (minted w + i)
         /\ SubAgentTask.parentTaskId t = Task.id task
         /\ js_get st "description" = Normal (SubAgentTask.description t)
         /\ (exists p,
               js_get st "priority" = Normal p
               /\ SubAgentTask.priority t
                  = if truthy p then p else JNum (inject_Z (Z.of_nat i + 1)))
         /\ (exists c,
               js_get st "estimatedComplexity" = Normal c
               /\ SubAgentTask.complexity t = if truthy c then c else JStr "medium").
Proof.
  intros Hf Hp H1 H2.
  set (w1 := (completeRequest accountId (usage_tokens r)
                (estimateCost (usage_tokens r)) w).2).
  destruct (map_subTasks_returns task items 0 w1 H1 H2) as (subTasks & w' & Hm).
  exists subTasks, w'.
  destruct (map_subTasks_entries task items 0 w1 subTasks w' Hm) as (Hman & _ & Hl & He).
  split; [|split; [exact Hman | split; [exact Hl|]]].
  - rewrite decomposeTask_reply_resolved. unfold try_catch, decomposition_text.
    unfold bind at 1. fold w1.
    assert (completeRequest accountId (usage_tokens r) (estimateCost (usage_tokens r)) w
            = (Normal tt, w1)) as -> by reflexivity.
    unfold bind at 1, lift at 1. rewrite Hf.
    unfold bind at 1, lift at 1. rewrite Hp. cbn [subTasksData_map]. rewrite Hm.
    reflexivity.
  - intros i st t Hi Ht. destruct (He i st t Hi Ht) as (E1 & E2 & _ & E4 & E5 & E6).
    repeat split; assumption.
Qed.

(** X13. The context of a task never reaches a sub-agent: whatever the
    answer to the decomposition request, every sub-task that [decomposeTask]
    returns has the task as its parent and no context, so that the prompt of
    its sub-agent is made of its description alone. *)
Theorem sub_tasks_carry_no_context task accountId o w subTasks w' :
  decomposeTask_reply task accountId o w = (Normal subTasks, w') ->
  Forall (fun t =>
            SubAgentTask.parentTaskId t = Task.id task
            /\ SubAgentTask.context t = JUndefined
            /\ buildPrompt t
               = ("TASK: " ++ ToString (SubAgentTask.description t) ++ nl ++ nl)
                 ++ "Please complete this task thoroughly and provide a detailed response.")
    subTasks.
Proof.
  intros H.
  assert (Forall (fun t => SubAgentTask.parentTaskId t = Task.id task
                           /\ SubAgentTask.context t = JUndefined) subTasks) as Hall.
  { destruct (decomposeTask_reply_cases task accountId o w)
      as [(id & w1 & Hfb)|(r & found & items & l & w1 & _ & _ & _ & Hm & Hd)].
    - rewrite Hfb in H. injection H as <- _. repeat constructor.
    - rewrite Hd in H. injection H as <- _.
      destruct (map_subTasks_entries _ _ _ _ _ _ Hm) as (_ & _ & Hl & He).
      apply Forall_lookup_2. intros i t Ht.
      destruct (lookup_lt_is_Some_2 items i) as [st Hst].
      { rewrite <- Hl. apply lookup_lt_Some in Ht. exact Ht. }
      destruct (He i st t Hst Ht) as (_ & E2 & E3 & _). auto. }
  eapply Forall_impl; [exact Hall|]. intros t [H1 H2].
  split; [exact H1|]. split; [exact H2|]. unfold buildPrompt. rewrite H2. reflexivity.
Qed.

(** *** The request of the super-agent is released only when it resolves *)

Lemma map_subTasks_manager task items index w :
  manager (map_subTasks task index items w).2 = manager w.
Proof.
  revert index w. induction items as [|st rest IH]; intros index w; [reflexivity|].
  simpl. unfold bind at 1. simpl.
  unfold bind at 1, lift at 1. destruct (js_get st "description"); [|reflexivity].
  unfold bind at 1, lift at 1. destruct (js_get st "priority"); [|reflexivity].
  unfold bind at 1, lift at 1. destruct (js_get st "estimatedComplexity"); [|reflexivity].
  unfold bind at 1. specialize (IH (S index)).
  match goal with
  | |- context [map_subTasks task (S index) rest ?w0] =>
      specialize (IH w0); destruct (map_subTasks task (S index) rest w0) as [[l|e] w']
  end; exact IH.
Qed.

Lemma decomposeTask_reply_manager task accountId o w :
  manager (decomposeTask_reply task accountId o w).2
  = match o with
    | Rejected _ => manager w
    | Resolved r =>
        manager (completeRequest accountId (usage_tokens r)
                   (estimateCost (usage_tokens r)) w).2
    end.
Proof.
  destruct o as [e|r]; [reflexivity|].
  rewrite decomposeTask_reply_resolved. unfold try_catch, decomposition_text.
  unfold bind at 1.
  set (w1 := (completeRequest accountId (usage_tokens r)
                (estimateCost (usage_tokens r)) w).2).
  assert (completeRequest accountId (usage_tokens r) (estimateCost (usage_tokens r)) w
          = (Normal tt, w1)) as -> by reflexivity.
  unfold bind at 1, lift at 1. destruct (first_content r) as [found|e]; [|reflexivity].
  unfold bind at 1, lift at 1.
  destruct (JSON_parse (str_or found "[]")) as [v|e]; [|reflexivity].
  destruct v as [| | | | |items|]; try reflexivity.
  cbn [subTasksData_map]. pose proof (map_subTasks_manager task items 0 w1) as H.
  destruct (map_subTasks task 0 items w1) as [[l|e] w']; exact H.
Qed.

Lemma aggregateResults_reply_manager subResults accountId o w :
  manager (aggregateResults_reply subResults accountId o w).2
  = match o with
    | Rejected _ => manager w
    | Resolved r =>
        manager (completeRequest accountId (usage_tokens r)
                   (estimateCost (usage_tokens r)) w).2
    end.
Proof.
  destruct o as [e|r]; [reflexivity|].
  unfold aggregateResults_reply, try_catch. cbn [awaited]. unfold bind at 1. cbn [ret].
  unfold bind at 1.
  set (w1 := (completeRequest accountId (usage_tokens r)
                (estimateCost (usage_tokens r)) w).2).
  assert (completeRequest accountId (usage_tokens r) (estimateCost (usage_tokens r)) w
          = (Normal tt, w1)) as -> by reflexivity.
  unfold bind at 1, lift at 1. destruct (first_content r); reflexivity.
Qed.

(** X14. The request that [decomposeTask] or [aggregateResults] acquires
    is released only when the backend call resolves: after a rejected call
    the in-flight counter of the account is one above what it was before the
    request; after a resolved call, whatever the response is worth, the
    counter is back where it was (it was not negative) and the tokens of the
    response are added to the account. *)
Theorem rejected_call_is_not_released task subResults w :
  in_flight_ok w ->
  exists accountId w1,
    decomposeTask_begin w = (Normal accountId, w1)
    /\ aggregateResults_begin w = (Normal accountId, w1)
    /\ let in_flight (st : World) :=
         activeRequests (stats (accounts_get accountId (manager st))) in
       let tokens (st : World) :=
         totalTokens (stats (accounts_get accountId (manager st))) in
       (forall e,
          in_flight (decomposeTask_reply task accountId (Rejected e) w1).2
          = in_flight w + 1
          /\ in_flight (aggregateResults_reply subResults accountId (Rejected e) w1).2
             = in_flight w + 1)
       /\ (forall r,
             let after_decomposition :=
               (decomposeTask_reply task accountId (Resolved r) w1).2 in
             let after_synthesis :=
               (aggregateResults_reply subResults accountId (Resolved r) w1).2 in
             in_flight after_decomposition = in_flight w
             /\ in_flight after_synthesis = in_flight w
             /\ tokens after_decomposition = tokens w + usage_tokens r
             /\ tokens after_synthesis = tokens w + usage_tokens r).
Proof.
  intros Hok. unfold decomposeTask_begin, aggregateResults_begin.
  destruct (getClient_acquires (same_books w) None w (books_same_books w))
    as (a & w0 & Hsame & _ & Hget).
  { intros j. split; reflexivity. }
  exists a. eexists. split; [exact Hget|]. split; [exact Hget|].
  pose proof (Hsame account1) as [H1 _]. pose proof (Hsame account2) as [H2 _].
  pose proof (Hok a) as Ha.
  split.
  - intros e. rewrite decomposeTask_reply_manager, aggregateResults_reply_manager.
    destruct a; simpl in *; rewrite ?H1, ?H2; split; reflexivity.
  - intros r. cbv zeta.
    rewrite decomposeTask_reply_manager, aggregateResults_reply_manager.
    destruct a; simpl in *; rewrite ?H1, ?H2; repeat split; lia.
Qed.

(** X15. When the synthesis call resolves, [aggregateResults] returns the
    content of the answer, or the text 'Failed to aggregate results' when the
    content is absent or empty, and [executeTask] returns that text with
    [success = true] and the sub-results it had (the persistence layer
    accepting its rows). *)
Theorem synthesis_text subResults accountId r found w :
  first_content r = Normal found ->
  let text := str_or found "Failed to aggregate results" in
  (exists w', aggregateResults_reply subResults accountId (Resolved r) w = (Normal text, w'))
  /\ (accepts_all ->
      forall self task startTime,
        exists result,
          phase (react self task
                   {| startTime := startTime; phase := Aggregating subResults accountId;
                      world := w |} (Backend (Resolved r)))
          = Returned result
          /\ TaskResult.success result = true
          /\ TaskResult.result result = text
          /\ TaskResult.subResults result = subResults).
Proof.
  intros Hf text.
  assert (exists w', aggregateResults_reply subResults accountId (Resolved r) w
                     = (Normal text, w')) as (w' & Ha).
  { unfold aggregateResults_reply, try_catch. cbn [awaited]. unfold bind at 1. cbn [ret].
    unfold bind at 1.
    destruct (completeRequest accountId _ _ w) as [[[]|e] w1] eqn:Hrel;
      [|discriminate Hrel].
    unfold bind at 1, lift at 1. rewrite Hf. simpl. eauto. }
  split; [eauto|].
  intros Hdb self task startTime. unfold react. simpl.
  unfold in_try, try_catch, bind at 1. rewrite Ha. unfold bind at 1.
  destruct (executeTask_finish_returns self task startTime subResults text w' Hdb)
    as (result & w'' & -> & Hr). simpl. eauto.
Qed.

End Super_agent_facts.

(** ** The parallel and the sequential strategy *)

Section Strategy_facts.
Context {RT : Runtime} {DB : Persistence}.

Lemma executeParallel_inv self subTasks w :
  parallel_inv subTasks (observed w) (executeParallel self subTasks w).
Proof.
  unfold executeParallel.
  pose proof (spawn_each_observed self subTasks _ w eq_refl) as H.
  unfold bind. destruct (spawn_each self subTasks w) as [[promises|e] w'];
    [|contradiction].
  destruct H as [Hw' Hp].
  assert (Forall2 tracks subTasks promises) as Ht.
  { eapply Forall2_impl; [exact Hp|]. intros t wk. apply worker_task_tracks. }
  exists []. split; [exact Hw'|]. simpl. unfold await_all.
  destruct (Promise_all promises) as [results|] eqn:Hall; simpl.
  - destruct (Promise_all_done _ _ _ Ht Hall) as [Hd Hr].
    rewrite (done_tasks_pending _ _ Hp) in Hd. split; [rewrite <- Hd; reflexivity | exact Hr].
  - split; [exact Ht|]. rewrite (done_tasks_pending _ _ Hp). reflexivity.
Qed.

Lemma parallel_react_inv self subTasks start st ev :
  parallel_inv subTasks start st -> parallel_inv subTasks start (strategy_react self st ev).
Proof.
  intros (settles & Hw & Hst). destruct ev as [i ev].
  destruct st as [[[suspended|results]|e] w]; simpl in Hw, Hst;
    try (exists settles; auto; fail).
  destruct suspended as [promises| | |]; try contradiction.
  destruct Hst as [Ht Hs]. cbn [strategy_react strategy_step fst snd].
  destruct (promises !! i) as [wk|] eqn:Hwk.
  2:{ exists settles. simpl. auto. }
  destruct (Forall2_lookup_r _ _ _ _ _ Ht Hwk) as (t & Hti & Htwk).
  pose proof (spawned_step_observed True ev wk t _ (or_introl Logic.I) Htwk w eq_refl)
    as H.
  unfold bind. destruct (spawned_step ev wk w) as [[wk'|e] w'].
  2:{ destruct H as (_ & _ & Hw'). exists (t :: settles). simpl.
      split; [rewrite Hw', Hw; reflexivity | exact Logic.I]. }
  destruct H as [[Htwk' Hstay] Hw'].
  pose proof (Forall2_tracks_insert _ _ _ _ _ Ht Hti Htwk') as Ht'.
  pose proof (done_tasks_insert _ _ _ _ _ wk' (Forall2_length _ _ _ Ht) Hti Hwk) as Hd.
  assert (exists settles',
            observed w'
            = (map Settled settles' ++ rev (map Spawned subTasks) ++ start)%list
            /\ settles' ≡ₚ done_tasks subTasks (<[i:=wk']> promises))
    as (settles' & Hw'' & Hs').
  { destruct (is_done wk' && negb (is_done wk)) eqn:E1.
    - exists (t :: settles). rewrite Hw', Hw. split; [reflexivity|].
      rewrite Hd, Hs. reflexivity.
    - exists settles. rewrite Hw', Hw. split; [reflexivity|].
      destruct (is_done wk && negb (is_done wk')) eqn:E2; [|rewrite Hd; exact Hs].
      apply andb_prop in E2 as [E2 E3]. apply negb_true_iff in E3.
      rewrite (Hstay E2) in E3. discriminate. }
  exists settles'. split; [exact Hw''|]. cbn [ret fst]. unfold await_all.
  destruct (Promise_all (<[i:=wk']> promises)) as [results|] eqn:Hall; simpl.
  - destruct (Promise_all_done _ _ _ Ht' Hall) as [Hdone Hr].
    split; [rewrite Hs', Hdone; reflexivity | exact Hr].
  - split; assumption.
Qed.

Lemma parallel_run_inv self subTasks start evs : forall st,
  parallel_inv subTasks start st -> parallel_inv subTasks start (strategy_run self evs st).
Proof.
  induction evs as [|ev evs IH]; intros st H; [exact H|].
  apply IH, parallel_react_inv, H.
Qed.

(** X16. Under the parallel strategy, whatever the environment does: all
    the sub-agents are spawned, in the order of the sub-tasks, before any of
    them settles; the results are there only when every sub-agent has
    settled, and they are in the order of the sub-tasks, whatever the order
    in which the sub-agents settled. *)
Theorem parallel_keeps_order self subTasks w evs :
  let st := strategy_run self evs (executeParallel self subTasks w) in
  exists settles,
    observed st.2 = (map Settled settles ++ rev (map Spawned subTasks) ++ observed w)%list
    /\ forall results,
         st.1 = Normal (Fulfilled results) ->
         settles ≡ₚ subTasks
         /\ map SubAgentResult.taskId results = map SubAgentTask.id subTasks.
Proof.
  intros st.
  destruct (parallel_run_inv self subTasks (observed w) evs _
              (executeParallel_inv self subTasks w)) as (settles & Hw & Hst).
  fold st in Hw, Hst. exists settles. split; [exact Hw|].
  intros results Hr. rewrite Hr in Hst. exact Hst.
Qed.

Lemma in_turn_snoc finished t :
  in_turn (finished ++ [t]) = (Settled t :: Spawned t :: in_turn finished)%list.
Proof.
  unfold in_turn. rewrite map_app, concat_app, rev_app_distr. reflexivity.
Qed.

Lemma sequential_loop_inv self subTasks start results finished rest w :
  subTasks = (finished ++ rest)%list ->
  map SubAgentResult.taskId results = map SubAgentTask.id finished ->
  observed w = (in_turn finished ++ start)%list ->
  sequential_inv subTasks start (sequential_loop self results rest w).
Proof.
  intros Hsplit Hr Hw. destruct rest as [|t rest]; simpl.
  - rewrite app_nil_r in Hsplit. subst finished. split; assumption.
  - pose proof (spawnSubAgent_observed self t _ w eq_refl) as H.
    unfold bind. destruct (spawnSubAgent self t w) as [[wk|e] w']; [|contradiction].
    destruct H as [Hw' Hwk]. simpl. exists finished, t.
    split; [exact Hsplit|]. split; [exact Hwk|]. split; [exact Hr|].
    cbn [ret snd]. rewrite Hw', Hw. reflexivity.
Qed.

Lemma sequential_react_inv self subTasks start st ev :
  sequential_inv subTasks start st ->
  sequential_inv subTasks start (strategy_react self st ev).
Proof.
  intros Hst. destruct ev as [i ev].
  destruct st as [[[suspended|results]|e] w]; try exact Hst.
  destruct suspended as [|results current rest| |]; try contradiction.
  destruct Hst as (finished & t & Hsplit & Hcur & Hr & Hw).
  cbn [strategy_react strategy_step fst snd]. simpl in Hw.
  pose proof (spawned_step_observed True ev current t _ (or_introl Logic.I)
                (worker_task_tracks _ _ Hcur) w eq_refl) as H.
  unfold bind. destruct (spawned_step ev current w) as [[wk'|e] w'].
  2:{ destruct H as (_ & _ & Hw'). simpl. exists (finished ++ [t])%list, rest.
      split; [rewrite <- app_assoc; exact Hsplit|].
      cbn [snd]. rewrite Hw', Hw, in_turn_snoc. reflexivity. }
  destruct H as [[Htwk' _] Hw']. rewrite (worker_task_not_done _ _ Hcur) in Hw'.
  destruct wk' as [agent st|agent st|agent st acct model|result];
    simpl in Hw', Htwk';
    try (cbn [ret fst snd sequential_inv]; exists finished, t; rewrite Hw', Hw;
         auto; fail).
  apply (sequential_loop_inv self subTasks start _ (finished ++ [t])).
  - rewrite <- app_assoc. exact Hsplit.
  - rewrite !map_app, Hr. simpl. rewrite Htwk'. reflexivity.
  - rewrite Hw', Hw, in_turn_snoc. reflexivity.
Qed.

Lemma sequential_run_inv self subTasks start evs : forall st,
  sequential_inv subTasks start st ->
  sequential_inv subTasks start (strategy_run self evs st).
Proof.
  induction evs as [|ev evs IH]; intros st H; [exact H|].
  apply IH, sequential_react_inv, H.
Qed.

(** X17. Under the sequential strategy, whatever the environment does:
    the sub-agents run one at a time in the order of the sub-tasks, each
    spawned only when the one before it has settled, so that at most one is
    under way; the results, once there, are in the order of the sub-tasks,
    every sub-agent having run in its turn. *)
Theorem sequential_runs_in_turn self subTasks w evs :
  let st := strategy_run self evs (executeSequential self subTasks w) in
  (exists finished rest,
     subTasks = (finished ++ rest)%list
     /\ (observed st.2 = (in_turn finished ++ observed w)%list
         \/ exists t rest',
              rest = t :: rest'
              /\ observed st.2 = (Spawned t :: in_turn finished ++ observed w)%list))
  /\ (forall results,
        st.1 = Normal (Fulfilled results) ->
        map SubAgentResult.taskId results = map SubAgentTask.id subTasks
        /\ observed st.2 = (in_turn subTasks ++ observed w)%list).
Proof.
  intros st.
  assert (sequential_inv subTasks (observed w) st) as Hinv.
  { apply sequential_run_inv. unfold executeSequential.
    apply (sequential_loop_inv self subTasks (observed w) [] []); reflexivity. }
  split.
  - destruct st as [[[suspended|results]|e] w']; simpl in Hinv.
    + destruct suspended as [|results current rest| |]; try contradiction.
      destruct Hinv as (finished & t & Hsplit & _ & _ & Hw).
      exists finished, (t :: rest). split; [exact Hsplit|]. right. eauto.
    + destruct Hinv as [_ Hw]. exists subTasks, []. rewrite app_nil_r. auto.
    + destruct Hinv as (finished & rest & Hsplit & Hw). exists finished, rest. auto.
  - intros results Hr. destruct st as [x w']. simpl in Hr. subst x. exact Hinv.
Qed.

End Strategy_facts.

(** ** Invariants of a running [executeTask] *)

Section Run_invariant.
Context {RT : Runtime} {DB : Persistence}.
Variable Inv : Phase -> World -> Prop.
Variable self : SuperAgent.t.
Variable task : Task.t.

Lemma triple_in_try (P : World -> Prop) (C : JsThrown -> World -> Prop) startTime body :
  triple P body Inv C ->
  (forall e, triple (C e) (executeTask_catch self task startTime e)
               (fun r => Inv (Returned r)) (fun e' => Inv (Failed e'))) ->
  triple P (in_try self task startTime body) Inv (fun e => Inv (Failed e)).
Proof.
  intros Hb Hc. unfold in_try. eapply triple_try; [exact Hb|].
  intros e. eapply triple_bind; [apply Hc|]. intros r. apply triple_ret. auto.
Qed.

Hypothesis step :
  forall startTime ev ph,
    triple (Inv ph) (executeTask_step self task startTime ev ph)
      Inv (fun e => Inv (Failed e)).

Lemma react_invariant c ev :
  Inv (phase c) (world c) ->
  Inv (phase (react self task c ev)) (world (react self task c ev)).
Proof.
  intros Hc. unfold react.
  pose proof (step (startTime c) ev (phase c) (world c) Hc) as H.
  destruct (executeTask_step _ _ _ _ _ _) as [[ph|e] w']; exact H.
Qed.

Lemma run_invariant evs : forall c,
  Inv (phase c) (world c) ->
  Inv (phase (run self task evs c)) (world (run self task evs c)).
Proof.
  induction evs as [|ev evs IH]; intros c Hc; [exact Hc|].
  simpl. apply IH, react_invariant, Hc.
Qed.

End Run_invariant.

(** *** Without a positive rate limit no sub-agent ever works *)

Section Starvation.
Context {RT : Runtime} {DB : Persistence}.

Lemma outcome_failure self task startTime e :
  spec (fun _ => True) (fun r => starved (Returned r)) True
    (executeTask_catch self task startTime e).
Proof.
  unfold executeTask_catch.
  apply spec_bind; [apply spec_trivial|]. intros ?.
  apply spec_bind; [apply spec_trivial|]. intros finished.
  apply spec_ret. reflexivity.
Qed.

Lemma spec_both {A} I (Q : A -> Prop) E (c : M A) :
  spec I any E c -> spec (fun _ => True) Q True c -> spec I Q E c.
Proof.
  intros H1 H2 w Hw. specialize (H1 w Hw). specialize (H2 w Logic.I).
  destruct (c w) as [[a|e] w']; tauto.
Qed.

Lemma spec_no_limit_poll E agent startTime :
  spec no_limit (fun wk => wk = Sleeping agent startTime) E (execute_poll agent startTime).
Proof.
  intros w Hw. unfold execute_poll, bind.
  destruct (bothRateLimited_no_limit w Hw) as (w1 & -> & Hw1). simpl. auto.
Qed.

Lemma spec_no_limit_spawn E self t : spec no_limit asleep E (spawnSubAgent self t).
Proof.
  pose proof about_configs_no_limit as Ha. pose proof (about_configs_steady _ Ha) as Hs.
  unfold spawnSubAgent.
  apply spec_bind; [apply (spec_observe _ Ha)|]. intros ?.
  apply spec_bind; [apply (spec_uuidv4 _ Hs)|]. intros id.
  apply spec_bind; [apply (spec_update_active _ Hs)|]. intros ?.
  unfold execute_begin.
  apply spec_bind; [apply (spec_Date_now _ Hs)|]. intros startTime.
  eapply spec_weaken with (E' := E);
    [apply spec_no_limit_poll | intros wk ->; exact Logic.I | auto].
Qed.

Lemma spec_no_limit_spawned_step E ev wk :
  asleep wk -> spec no_limit (fun wk' => wk' = wk) E (spawned_step ev wk).
Proof.
  intros Hwk. destruct wk as [agent startTime| | |]; try contradiction.
  unfold spawned_step. cbn [worker_task].
  intros w Hw. unfold try_catch, bind at 1.
  destruct ev; cbn [execute_step ret]; try (split; [exact Hw | reflexivity]).
  assert (exists w', execute_poll agent startTime w
                     = (Normal (Sleeping agent startTime), w') /\ no_limit w')
    as (w' & -> & Hw').
  { unfold execute_poll, bind.
    destruct (bothRateLimited_no_limit w Hw) as (w1 & -> & Hw1). simpl. eauto. }
  simpl. auto.
Qed.

Lemma spec_no_limit_spawn_each E self ts :
  spec no_limit (fun wks => Forall asleep wks /\ length wks = length ts) E
    (spawn_each self ts).
Proof.
  induction ts as [|t ts IH]; simpl; [apply spec_ret; auto|].
  eapply spec_bind_with; [apply spec_no_limit_spawn|]. intros wk Hwk.
  eapply spec_bind_with; [exact IH|]. intros wks [Hwks Hlen].
  apply spec_ret. split; [constructor; assumption | simpl; lia].
Qed.

Lemma Promise_all_asleep wks :
  Forall asleep wks ->
  (wks = [] /\ Promise_all wks = Some []) \/ (wks <> [] /\ Promise_all wks = None).
Proof.
  intros H. destruct H as [|wk wks Hwk _]; [left; auto|].
  right. split; [discriminate|]. destruct wk; try contradiction. reflexivity.
Qed.

Lemma spec_no_limit_sequential_loop E self rest :
  spec no_limit starved_execution E (sequential_loop self [] rest).
Proof.
  destruct rest as [|t rest]; simpl; [apply spec_ret; reflexivity|].
  eapply spec_bind_with; [apply spec_no_limit_spawn|]. intros wk Hwk.
  apply spec_ret. simpl. auto.
Qed.

Lemma spec_no_limit_adaptive_loop E self rest :
  spec no_limit starved_execution E (adaptive_loop self [] [] rest).
Proof.
  destruct rest as [|t rest]; simpl; [apply spec_ret; reflexivity|].
  eapply spec_bind_with; [apply spec_no_limit_spawn|]. intros wk Hwk.
  apply spec_ret. simpl. auto.
Qed.

Lemma spec_no_limit_execute_by_strategy E self subTasks :
  spec no_limit starved_execution E (execute_by_strategy self subTasks).
Proof.
  unfold execute_by_strategy.
  destruct (SuperAgentConfig.strategy (SuperAgent.config self)).
  - unfold executeParallel.
    eapply spec_bind_with; [apply spec_no_limit_spawn_each|]. intros promises [Hp _].
    apply spec_ret. unfold await_all.
    destruct (Promise_all_asleep promises Hp) as [[-> ->]|[Hne ->]]; simpl; auto.
  - apply spec_no_limit_sequential_loop.
  - unfold executeAdaptive.
    eapply spec_bind_with; [apply spec_no_limit_spawn_each|]. intros promises [Hp _].
    destruct (Promise_all_asleep promises Hp) as [[-> ->]|[Hne ->]].
    + apply spec_no_limit_adaptive_loop.
    + apply spec_ret. simpl. auto.
Qed.

Lemma spec_no_limit_strategy_step E self i ev r :
  all_asleep r -> spec no_limit starved_execution E (strategy_step self i ev r).
Proof.
  intros Hr.
  destruct r as [promises|results current rest|promises complexTasks|sr cr current rest];
    simpl in Hr; cbn [strategy_step].
  - destruct Hr as [Hp Hne]. destruct (promises !! i) as [wk|] eqn:Hwk;
      [|apply spec_ret; simpl; auto].
    eapply spec_bind_with.
    + apply spec_no_limit_spawned_step.
      rewrite Forall_forall in Hp. apply Hp, list_elem_of_lookup. eauto.
    + intros wk' ->. apply spec_ret. rewrite (list_insert_id _ _ _ Hwk).
      unfold await_all.
      destruct (Promise_all_asleep promises Hp) as [[-> _]|[_ ->]];
        [contradiction | simpl; auto].
  - destruct Hr as [-> Hc]. eapply spec_bind_with.
    + apply spec_no_limit_spawned_step, Hc.
    + intros wk' ->. destruct current; try contradiction.
      apply spec_ret. simpl. auto.
  - destruct Hr as [Hp Hne]. destruct (promises !! i) as [wk|] eqn:Hwk;
      [|apply spec_ret; simpl; auto].
    eapply spec_bind_with.
    + apply spec_no_limit_spawned_step.
      rewrite Forall_forall in Hp. apply Hp, list_elem_of_lookup. eauto.
    + intros wk' ->. rewrite (list_insert_id _ _ _ Hwk).
      destruct (Promise_all_asleep promises Hp) as [[-> _]|[_ ->]];
        [contradiction | apply spec_ret; simpl; auto].
  - destruct Hr as (-> & -> & Hc). eapply spec_bind_with.
    + apply spec_no_limit_spawned_step, Hc.
    + intros wk' ->. destruct current; try contradiction.
      apply spec_ret. simpl. auto.
Qed.

Lemma spec_no_limit_continue_with x :
  starved_execution x -> spec no_limit starved True (continue_with x).
Proof.
  intros Hx. destruct x as [r|results]; simpl in *; [apply spec_ret; exact Hx|].
  unfold aggregateResults_begin.
  apply spec_bind;
    [apply (spec_getClient _ (about_configs_steady _ about_configs_no_limit))|].
  intros accountId. apply spec_ret. exact Hx.
Qed.

Lemma spec_no_limit_in_try self task startTime body :
  spec no_limit starved True body ->
  spec no_limit starved True (in_try self task startTime body).
Proof.
  intros Hb. unfold in_try. apply spec_try; [exact Hb|]. intros e.
  eapply spec_bind_with.
  - apply spec_both;
      [apply (configs_executeTask_catch _ about_configs_no_limit True (or_introl Logic.I))
      |apply outcome_failure].
  - intros r Hr. apply spec_ret. exact Hr.
Qed.

Lemma spec_no_limit_step self task startTime ev ph :
  starved ph -> spec no_limit starved True (executeTask_step self task startTime ev ph).
Proof.
  intros Hph. pose proof about_configs_no_limit as Ha.
  destruct ph as [accountId|r|subResults accountId|result|e], ev as [o|i ev];
    cbn [executeTask_step]; try (apply spec_ret; exact Hph).
  - apply spec_no_limit_in_try.
    apply spec_bind; [apply (configs_decomposeTask_reply _ Ha True)|]. intros subTasks.
    eapply spec_bind_with; [apply spec_no_limit_execute_by_strategy|].
    intros x Hx. apply spec_no_limit_continue_with, Hx.
  - apply spec_no_limit_in_try.
    eapply spec_bind_with; [apply spec_no_limit_strategy_step, Hph|].
    intros x Hx. apply spec_no_limit_continue_with, Hx.
  - apply spec_no_limit_in_try. simpl in Hph. subst subResults.
    apply spec_bind; [apply (configs_aggregateResults_reply _ Ha True)|].
    intros finalResult.
    eapply spec_bind_with.
    + apply spec_both;
        [apply (configs_executeTask_finish _ Ha True (or_introl Logic.I))
        |apply spec_executeTask_finish].
    + intros r (_ & _ & _ & Hr). apply spec_ret. exact Hr.
Qed.

Lemma executeTask_starved self task w :
  no_limit w ->
  no_limit (world (executeTask self task w)) /\ starved (phase (executeTask self task w)).
Proof.
  intros Hw. pose proof about_configs_no_limit as Ha.
  pose proof (about_configs_steady _ Ha) as Hs.
  assert (spec no_limit (fun p => starved p.2) True (executeTask_begin self task)) as H.
  { unfold executeTask_begin.
    apply spec_bind; [apply (spec_Date_now _ Hs)|]. intros startTime.
    eapply spec_bind_with with (R := starved).
    - apply spec_no_limit_in_try.
      apply spec_bind.
      + unfold when. apply spec_if; [|apply spec_ret; exact Logic.I].
        apply spec_bind; [apply (spec_uuidv4 _ Hs)|]. intros cid.
        apply spec_bind; [apply (spec_Date_now _ Hs)|]. intros stamp.
        apply (spec_db_call_may _ Hs).
      + intros ?. unfold decomposeTask_begin.
        apply spec_bind; [apply (spec_getClient _ Hs)|]. intros accountId.
        apply spec_ret. exact Logic.I.
    - intros ph Hph. apply spec_ret. exact Hph. }
  specialize (H w Hw). unfold executeTask.
  destruct (executeTask_begin self task w) as [[[startTime ph]|e] w']; simpl in *; tauto.
Qed.

(** X18. With a rate limit of zero or less on both accounts, no
    sub-agent of a task ever gets past [waitForAvailability]: whatever the
    environment does, the sub-agents that [executeTask] waits for are asleep
    there, and a result that [executeTask] returns has no sub-results. *)
Theorem without_limit_no_sub_result self task w evs :
  no_limit w ->
  let c := run self task evs (executeTask self task w) in
  (forall r, phase c = Executing r -> Forall asleep (workers r))
  /\ (forall result, phase c = Returned result -> TaskResult.subResults result = []).
Proof.
  intros Hw c.
  assert (no_limit (world c) /\ starved (phase c)) as [_ H].
  { apply (run_invariant (fun ph st => no_limit st /\ starved ph) self task).
    - intros startTime ev ph st [Hst Hph].
      pose proof (spec_no_limit_step self task startTime ev ph Hph st Hst) as H.
      destruct (executeTask_step _ _ _ _ _ _) as [[ph'|e] st']; simpl; tauto.
    - apply executeTask_starved, Hw. }
  split.
  - intros r Hr. rewrite Hr in H. simpl in H.
    destruct r; simpl in *; try apply H; repeat constructor; apply H.
  - intros result Hr. rewrite Hr in H. exact H.
Qed.

End Starvation.

(** *** The registry of active sub-agents *)

Section Registry.
Context {RT : Runtime} {DB : Persistence}.

Lemma frame_ret {A} (a : A) : frame (ret a).
Proof. intros w. reflexivity. Qed.

Lemma frame_throw {A} e : frame (throw (A := A) e).
Proof. intros w. reflexivity. Qed.

Lemma frame_lift {A} (c : Completion A) : frame (lift c).
Proof. intros w. reflexivity. Qed.

Lemma frame_bind {A B} (c : M A) (k : A -> M B) :
  frame c -> (forall a, frame (k a)) -> frame (bind c k).
Proof.
  intros Hc Hk w. unfold bind. specialize (Hc w).
  destruct (c w) as [[a|e] w1]; simpl in *; [rewrite Hk|]; exact Hc.
Qed.

Lemma frame_try {A} (c : M A) (h : JsThrown -> M A) :
  frame c -> (forall e, frame (h e)) -> frame (try_catch c h).
Proof.
  intros Hc Hh w. unfold try_catch. specialize (Hc w).
  destruct (c w) as [[a|e] w1]; simpl in *; [|rewrite Hh]; exact Hc.
Qed.

Lemma frame_if {A} (b : bool) (c1 c2 : M A) :
  frame c1 -> frame c2 -> frame (if b then c1 else c2).
Proof. destruct b; auto. Qed.

Lemma frame_Date_now : frame Date_now.
Proof. intros w. reflexivity. Qed.

Lemma frame_uuidv4 : frame uuidv4.
Proof. intros w. reflexivity. Qed.

Lemma frame_observe o : frame (observe o).
Proof. intros w. reflexivity. Qed.

Lemma frame_db_call c : frame (db_call c).
Proof. intros w. unfold db_call. destruct (db_fault (database w) c); reflexivity. Qed.

Lemma frame_get_manager : frame get_manager.
Proof. intros w. reflexivity. Qed.

Lemma frame_isRateLimited accountId : frame (isRateLimited accountId).
Proof. intros w. reflexivity. Qed.

Lemma frame_completeRequest accountId tokensUsed cost :
  frame (completeRequest accountId tokensUsed cost).
Proof. intros w. reflexivity. Qed.

Lemma frame_awaited o : frame (awaited o).
Proof. destruct o; intros w; reflexivity. Qed.

Create HintDb frames discriminated.
#[local] Hint Resolve frame_ret frame_throw frame_lift frame_bind frame_try frame_if
  frame_Date_now frame_uuidv4 frame_observe frame_db_call frame_get_manager
  frame_isRateLimited frame_completeRequest frame_awaited : frames.

Lemma frame_and_not (a b : M bool) : frame a -> frame b -> frame (and_not a b).
Proof. intros Ha Hb. unfold and_not. auto 10 with frames. Qed.

#[local] Hint Resolve frame_and_not : frames.

Lemma frame_bothRateLimited : frame bothRateLimited.
Proof. unfold bothRateLimited. auto 10 with frames. Qed.

Lemma frame_selectLeastLoaded : frame selectLeastLoaded.
Proof. unfold selectLeastLoaded. auto 20 with frames. Qed.

Lemma frame_selectCostOptimized : frame selectCostOptimized.
Proof. unfold selectCostOptimized. auto 20 with frames. Qed.

Lemma frame_selectAccount : frame selectAccount.
Proof.
  intros w. rewrite selectAccount_eq. destruct (strategy (manager w)).
  - reflexivity.
  - apply frame_selectLeastLoaded.
  - apply frame_selectCostOptimized.
  - reflexivity.
Qed.

Lemma frame_getClient sel : frame (getClient sel).
Proof.
  unfold getClient. apply frame_bind.
  - destruct sel; [apply frame_ret | apply frame_selectAccount].
  - intros a w. reflexivity.
Qed.

#[local] Hint Resolve frame_bothRateLimited frame_selectAccount frame_getClient : frames.

Lemma frame_execute_catch agent startTime accountId e :
  frame (execute_catch agent startTime accountId e).
Proof. unfold execute_catch. auto 20 with frames. Qed.

#[local] Hint Resolve frame_execute_catch : frames.

Lemma frame_execute_step ev wk : frame (execute_step ev wk).
Proof.
  destruct wk as [agent st|agent st|agent st acct model|r], ev; simpl;
    auto with frames.
  - unfold execute_poll. auto 10 with frames.
  - unfold execute_acquire. auto 30 with frames.
  - unfold execute_reply. auto 40 with frames.
Qed.

Lemma frame_execute_begin agent : frame (execute_begin agent).
Proof. unfold execute_begin, execute_poll. auto 10 with frames. Qed.

Lemma frame_map_subTasks task items : forall index, frame (map_subTasks task index items).
Proof. induction items as [|st rest IH]; intros index; simpl; auto 20 with frames. Qed.

#[local] Hint Resolve frame_map_subTasks : frames.

Lemma frame_decomposeTask_reply task accountId o :
  frame (decomposeTask_reply task accountId o).
Proof.
  unfold decomposeTask_reply. apply frame_try; [|auto with frames].
  apply frame_bind; [auto with frames|]. intros response.
  apply frame_bind; [auto with frames|]. intros ?.
  apply frame_bind; [auto with frames|]. intros found.
  apply frame_bind; [auto with frames|]. intros subTasksData.
  destruct subTasksData; simpl; auto with frames.
Qed.

Lemma frame_aggregateResults_reply subResults accountId o :
  frame (aggregateResults_reply subResults accountId o).
Proof. unfold aggregateResults_reply. auto 20 with frames. Qed.

Lemma frame_executeTask_finish self task startTime subResults finalResult :
  frame (executeTask_finish self task startTime subResults finalResult).
Proof. unfold executeTask_finish, when. auto 40 with frames. Qed.

Lemma frame_executeTask_catch self task startTime e :
  frame (executeTask_catch self task startTime e).
Proof. unfold executeTask_catch. auto 10 with frames. Qed.

(** What a computation that leaves the registry alone does to a condition
    on the registry. *)
Lemma triple_frame {A} (P : gmap string string -> Prop) (c : M A) :
  frame c ->
  triple (fun w => P (activeSubAgents w)) c
    (fun _ w => P (activeSubAgents w)) (fun _ w => P (activeSubAgents w)).
Proof.
  intros Hc w Hw. specialize (Hc w).
  destruct (c w) as [[a|e] w1]; simpl in Hc; rewrite Hc; exact Hw.
Qed.

Lemma covered_empty wks w : activeSubAgents w = ∅ -> covered wks w.
Proof.
  intros H id [x Hid]. rewrite H, lookup_empty in Hid. discriminate.
Qed.

Lemma covered_settled wks w :
  covered wks w -> (forall wk, wk ∈ wks -> worker_task wk = None) ->
  activeSubAgents w = ∅.
Proof.
  intros Hc Hd. apply map_empty. intros id.
  destruct (activeSubAgents w !! id) as [x|] eqn:Hid; [|reflexivity].
  destruct (Hc id) as (wk & t & Hin & Ht & _); [eauto|].
  rewrite (Hd wk Hin) in Ht. discriminate.
Qed.

Lemma covered_subseteq wks wks' w :
  (forall wk, wk ∈ wks -> wk ∈ wks') -> covered wks w -> covered wks' w.
Proof.
  intros Hsub Hc id Hid. destruct (Hc id Hid) as (wk & t & Hin & H).
  exists wk, t. split; [apply Hsub, Hin | exact H].
Qed.

Lemma Promise_all_settled wks rs :
  Promise_all wks = Some rs -> forall wk, wk ∈ wks -> worker_task wk = None.
Proof.
  revert rs. induction wks as [|wk0 wks IH]; intros rs H wk Hin.
  - apply elem_of_nil in Hin. contradiction.
  - simpl in H. destruct wk0 as [| | |r]; try discriminate.
    destruct (Promise_all wks) as [rs'|]; [|discriminate].
    apply elem_of_cons in Hin as [->|Hin]; [reflexivity | eapply IH; eauto].
Qed.

Lemma spawnSubAgent_covered self t wks :
  triple (covered wks) (spawnSubAgent self t)
    (fun wk w => covered (wk :: wks) w) (fun _ _ => False).
Proof.
  intros w Hc.
  pose proof (spawnSubAgent_observed self t _ w eq_refl) as H.
  assert (activeSubAgents (spawnSubAgent self t w).2
          = <[SubAgentTask.id t := uuid_nth (minted w)]> (activeSubAgents w)) as Ha.
  { unfold spawnSubAgent, bind at 1, observe, bind at 1, uuidv4, bind at 1, update_active.
    rewrite frame_execute_begin. reflexivity. }
  destruct (spawnSubAgent self t w) as [[wk|e] w1]; [|exact H].
  destruct H as [_ Hwk]. simpl in Ha.
  intros id Hid. rewrite Ha in Hid. apply lookup_insert_is_Some in Hid as [<-|[_ Hid]].
  - exists wk, t. split; [left | auto].
  - destruct (Hc id Hid) as (wk0 & t0 & Hin & H0). exists wk0, t0.
    split; [right; exact Hin | exact H0].
Qed.

Lemma spawn_each_covered self ts : forall wks,
  triple (covered wks) (spawn_each self ts)
    (fun new w => covered (new ++ wks) w) (fun _ _ => False).
Proof.
  induction ts as [|t ts IH]; intros wks; simpl.
  - apply triple_ret. auto.
  - eapply triple_bind; [apply spawnSubAgent_covered|]. intros wk.
    eapply triple_bind; [apply IH|]. intros new. apply triple_ret.
    intros w. apply covered_subseteq. intros x Hx. simpl.
    apply elem_of_app in Hx as [Hx|Hx]; [right; apply elem_of_app; auto|].
    apply elem_of_cons in Hx as [->|Hx]; [left|right; apply elem_of_app; auto].
Qed.

Lemma spawned_step_covered ev wks i wk :
  wks !! i = Some wk ->
  triple (covered wks) (spawned_step ev wk)
    (fun wk' w => covered (<[i:=wk']> wks) w) (fun _ _ => True).
Proof.
  intros Hi w Hc. unfold spawned_step.
  destruct (worker_task wk) as [t|] eqn:Ht.
  2:{ simpl. rewrite (list_insert_id _ _ _ Hi). exact Hc. }
  pose proof (frame_execute_step ev wk w) as Hf.
  pose proof (spec_execute_step (fun _ => True) steady_True True ev wk t
                (or_introl Logic.I) (worker_task_tracks _ _ Ht) w Logic.I) as Hs.
  unfold try_catch, bind at 1.
  destruct (execute_step ev wk w) as [[wk'|e] w1]; simpl in Hf.
  2:{ exact Logic.I. }
  destruct Hs as [_ Hs].
  assert (forall w2 : World,
            (activeSubAgents w2 = activeSubAgents w /\ worker_task wk' = Some t)
            \/ activeSubAgents w2 = delete (SubAgentTask.id t) (activeSubAgents w) ->
            covered (<[i:=wk']> wks) w2) as Hcov.
  { intros w2 Hw2 id Hid.
    assert (is_Some (activeSubAgents w !! id)
            /\ (worker_task wk' = Some t \/ id <> SubAgentTask.id t)) as [Hid' Hor].
    { destruct Hw2 as [[Hw2 Hwk']| Hw2]; rewrite Hw2 in Hid; [auto|].
      apply lookup_delete_is_Some in Hid as [Hne Hid]. auto. }
    destruct (Hc id Hid') as (wk0 & t0 & Hin & H0 & Hid0).
    apply list_elem_of_lookup in Hin as [j Hj].
    destruct (decide (j = i)) as [->|Hne].
    - rewrite Hi in Hj. injection Hj as <-. rewrite Ht in H0. injection H0 as <-.
      destruct Hor as [Hwk'|Hne]; [|congruence].
      exists wk', t. split; [|auto].
      apply list_elem_of_lookup. exists i. apply list_lookup_insert_eq.
      apply lookup_lt_is_Some. eauto.
    - exists wk0, t0. split; [|auto].
      apply list_elem_of_lookup. exists j. rewrite list_lookup_insert_ne; auto. }
  destruct wk' as [agent st|agent st|agent st acct model|r]; simpl in Hs;
    try (apply Hcov; left; split; [exact Hf | exact Hs]).
  apply Hcov. right. simpl. rewrite Hf. reflexivity.
Qed.

Lemma sequential_loop_covered self results rest :
  triple (fun w => activeSubAgents w = ∅) (sequential_loop self results rest)
    covered_execution (fun _ _ => True).
Proof.
  destruct rest as [|t rest]; simpl; [apply triple_ret; auto|].
  eapply triple_bind with (R := fun wk w => covered [wk] w).
  - eapply triple_weaken; [apply (spawnSubAgent_covered self t []) | | |];
      simpl; auto using covered_empty; intros e w [].
  - intros wk. apply triple_ret. auto.
Qed.

Lemma adaptive_loop_covered self sr cr rest :
  triple (fun w => activeSubAgents w = ∅) (adaptive_loop self sr cr rest)
    covered_execution (fun _ _ => True).
Proof.
  destruct rest as [|t rest]; simpl; [apply triple_ret; auto|].
  eapply triple_bind with (R := fun wk w => covered [wk] w).
  - eapply triple_weaken; [apply (spawnSubAgent_covered self t []) | | |];
      simpl; auto using covered_empty; intros e w [].
  - intros wk. apply triple_ret. auto.
Qed.

Lemma spawn_each_from_empty self ts :
  triple (fun w => activeSubAgents w = ∅) (spawn_each self ts)
    (fun promises w => covered promises w) (fun _ _ => True).
Proof.
  eapply triple_weaken; [apply (spawn_each_covered self ts []) | | |]; simpl.
  - intros w. apply covered_empty.
  - intros promises w. rewrite app_nil_r. auto.
  - intros e w [].
Qed.

Lemma execute_by_strategy_covered self subTasks :
  triple (fun w => activeSubAgents w = ∅) (execute_by_strategy self subTasks)
    covered_execution (fun _ _ => True).
Proof.
  unfold execute_by_strategy.
  destruct (SuperAgentConfig.strategy (SuperAgent.config self)).
  - unfold executeParallel. eapply triple_bind; [apply spawn_each_from_empty|].
    intros promises. apply triple_ret. intros w Hc. unfold await_all.
    destruct (Promise_all promises) as [results|] eqn:Hall; simpl; [|exact Hc].
    apply (covered_settled _ _ Hc), (Promise_all_settled _ _ Hall).
  - apply sequential_loop_covered.
  - unfold executeAdaptive. eapply triple_bind; [apply spawn_each_from_empty|].
    intros promises.
    destruct (Promise_all promises) as [results|] eqn:Hall.
    + eapply triple_weaken; [apply adaptive_loop_covered | | |]; simpl; auto.
      intros w Hc. apply (covered_settled _ _ Hc), (Promise_all_settled _ _ Hall).
    + apply triple_ret. auto.
Qed.

Lemma covered_single_settled r w : covered [Done r] w -> activeSubAgents w = ∅.
Proof.
  intros Hc. apply (covered_settled _ _ Hc). intros wk Hwk.
  apply list_elem_of_singleton in Hwk as ->. reflexivity.
Qed.

Lemma strategy_step_covered self i ev r :
  triple (covered (workers r)) (strategy_step self i ev r)
    covered_execution (fun _ _ => True).
Proof.
  destruct r as [promises|results current rest|promises complexTasks|sr cr current rest];
    cbn [strategy_step workers].
  - destruct (promises !! i) as [wk|] eqn:Hwk; [|apply triple_ret; auto].
    eapply triple_bind; [apply (spawned_step_covered ev promises i wk Hwk)|].
    intros wk'. apply triple_ret. intros w Hc. unfold await_all.
    destruct (Promise_all (<[i:=wk']> promises)) as [results|] eqn:Hall; simpl;
      [|exact Hc].
    apply (covered_settled _ _ Hc), (Promise_all_settled _ _ Hall).
  - eapply triple_bind; [apply (spawned_step_covered ev [current] 0 current eq_refl)|].
    intros wk'. cbn [insert list_insert].
    destruct wk' as [agent st|agent st|agent st acct model|result];
      try (apply triple_ret; auto; fail).
    eapply triple_weaken; [apply sequential_loop_covered | | |]; simpl; auto.
    intros w. apply covered_single_settled.
  - destruct (promises !! i) as [wk|] eqn:Hwk; [|apply triple_ret; auto].
    eapply triple_bind; [apply (spawned_step_covered ev promises i wk Hwk)|].
    intros wk'.
    destruct (Promise_all (<[i:=wk']> promises)) as [results|] eqn:Hall.
    + eapply triple_weaken; [apply adaptive_loop_covered | | |]; simpl; auto.
      intros w Hc. apply (covered_settled _ _ Hc), (Promise_all_settled _ _ Hall).
    + apply triple_ret. auto.
  - eapply triple_bind; [apply (spawned_step_covered ev [current] 0 current eq_refl)|].
    intros wk'. cbn [insert list_insert].
    destruct wk' as [agent st|agent st|agent st acct model|result];
      try (apply triple_ret; auto; fail).
    eapply triple_weaken; [apply adaptive_loop_covered | | |]; simpl; auto.
    intros w. apply covered_single_settled.
Qed.

Lemma continue_with_registered x :
  triple (covered_execution x) (continue_with x) registered (fun _ _ => True).
Proof.
  destruct x as [r|results]; simpl; [apply triple_ret; auto|].
  unfold aggregateResults_begin.
  eapply triple_bind with (R := fun _ w => activeSubAgents w = ∅).
  - eapply triple_weaken;
      [apply (triple_frame (fun m => m = ∅) _ (frame_getClient None)) | | |];
      simpl; auto.
  - intros accountId. apply triple_ret. auto.
Qed.

Lemma executeTask_catch_registered self task startTime e :
  triple (fun _ => True) (executeTask_catch self task startTime e)
    (fun r => registered (Returned r)) (fun e' => registered (Failed e')).
Proof.
  intros w _.
  pose proof (spec_executeTask_catch self task startTime e w Logic.I) as H.
  destruct (executeTask_catch self task startTime e w) as [[r|e'] w']; [|exact Logic.I].
  destruct H as (_ & _ & Hr & _). simpl. intros Hs. congruence.
Qed.

Lemma registered_step self task startTime ev ph :
  triple (registered ph) (executeTask_step self task startTime ev ph)
    registered (fun e => registered (Failed e)).
Proof.
  destruct ph as [accountId|r|subResults accountId|result|e], ev as [o|i ev];
    cbn [executeTask_step]; try (apply triple_ret; auto; fail);
    apply triple_in_try with (C := fun _ _ => True);
    try (intros e; apply executeTask_catch_registered).
  - eapply triple_bind with (R := fun _ w => activeSubAgents w = ∅).
    + eapply triple_weaken;
        [apply (triple_frame (fun m => m = ∅) _
                  (frame_decomposeTask_reply task accountId o)) | | |];
        simpl; auto.
    + intros subTasks. eapply triple_bind; [apply execute_by_strategy_covered|].
      intros x. apply continue_with_registered.
  - eapply triple_bind; [apply strategy_step_covered|].
    intros x. apply continue_with_registered.
  - eapply triple_bind with (R := fun _ w => activeSubAgents w = ∅).
    + eapply triple_weaken;
        [apply (triple_frame (fun m => m = ∅) _
                  (frame_aggregateResults_reply subResults accountId o)) | | |];
        simpl; auto.
    + intros finalResult.
      eapply triple_bind with (R := fun _ w => activeSubAgents w = ∅).
      * eapply triple_weaken;
          [apply (triple_frame (fun m => m = ∅) _
                    (frame_executeTask_finish self task startTime subResults
                       finalResult)) | | |];
          simpl; auto.
      * intros r. apply triple_ret. simpl. auto.
Qed.

Lemma triple_frame_empty {A} (c : M A) :
  frame c ->
  triple (fun w => activeSubAgents w = ∅) c
    (fun _ w => activeSubAgents w = ∅) (fun _ _ => True).
Proof.
  intros Hc. eapply triple_weaken; [apply (triple_frame (fun m => m = ∅) _ Hc) | | |];
    simpl; auto.
Qed.

Lemma executeTask_registered self task w :
  activeSubAgents w = ∅ ->
  registered (phase (executeTask self task w)) (world (executeTask self task w)).
Proof.
  intros Hw. unfold executeTask.
  assert (triple (fun w => activeSubAgents w = ∅) (executeTask_begin self task)
            (fun p => registered p.2) (fun _ _ => True)) as H.
  { unfold executeTask_begin.
    eapply triple_bind; [apply triple_frame_empty, frame_Date_now|].
    intros startTime. eapply triple_bind with (R := registered).
    - eapply triple_weaken with (E' := fun e => registered (Failed e));
        [|intros st Hst; exact Hst|intros ph st Hst; exact Hst|simpl; auto].
      apply triple_in_try with (C := fun _ _ => True);
        [|intros e; apply executeTask_catch_registered].
      eapply triple_bind with (R := fun _ w => activeSubAgents w = ∅).
      + apply triple_frame_empty. unfold when.
        apply frame_if; auto 10 with frames.
      + intros ?. unfold decomposeTask_begin.
        eapply triple_bind; [apply triple_frame_empty, frame_getClient|].
        intros accountId. apply triple_ret. auto.
    - intros ph. apply triple_ret. auto. }
  specialize (H w Hw).
  destruct (executeTask_begin self task w) as [[[startTime ph]|e] w']; simpl in *; auto.
Qed.

(** X19. Whatever the environment does to a task started with no
    sub-agent registered: every entry of [activeSubAgents] belongs to a
    sub-agent that [executeTask] still waits for, and once the sub-agents
    have all settled, and when [executeTask] has returned with
    [success = true], [getActiveSubAgentsCount] is zero. *)
Theorem no_sub_agent_is_left self task w evs :
  activeSubAgents w = ∅ ->
  let c := run self task evs (executeTask self task w) in
  (forall r, phase c = Executing r -> covered (workers r) (world c))
  /\ (forall subResults accountId,
        phase c = Aggregating subResults accountId ->
        getActiveSubAgentsCount (world c) = (Normal 0%nat, world c))
  /\ (forall result,
        phase c = Returned result -> TaskResult.success result = true ->
        getActiveSubAgentsCount (world c) = (Normal 0%nat, world c)).
Proof.
  intros Hw c.
  assert (registered (phase c) (world c)) as H.
  { apply run_invariant; [apply registered_step | apply executeTask_registered, Hw]. }
  unfold getActiveSubAgentsCount. split; [|split].
  - intros r Hr. rewrite Hr in H. exact H.
  - intros subResults accountId Hph. rewrite Hph in H. simpl in H. rewrite H.
    reflexivity.
  - intros result Hph Hs. rewrite Hph in H. simpl in H. rewrite (H Hs). reflexivity.
Qed.

End Registry.

(** ** The final status of the agents *)

Section Status_facts.
Context {RT : Runtime} {DB : Persistence}.

Lemma execute_catch_status agent startTime accountId e w :
  accepts_status_updates ->
  exists r w',
    execute_catch agent startTime accountId e w = (Normal r, w')
    /\ SubAgentResult.success r = false
    /\ SubAgentResult.error r = Some (errorMsg e)
    /\ database w'
       = updateAgentStatus (SubAgent.id agent) "failed" (errorMsg e) :: database w.
Proof.
  intros Hs. unfold execute_catch, bind at 1, db_call. rewrite Hs.
  eexists _, _. split; [reflexivity|]. repeat split; reflexivity.
Qed.

(** X20. However the backend call of a sub-agent settles, the last row
    that [execute] writes is the final status of the sub-agent, and it agrees
    with the result returned: 'completed' with the result text when
    [success = true], 'failed' with the error message otherwise (the
    persistence layer accepting status updates). *)
Theorem sub_agent_status_matches_result agent startTime accountId model o w :
  accepts_status_updates ->
  exists r w' rows,
    execute_reply agent startTime accountId model o w = (Normal r, w')
    /\ database w'
       = updateAgentStatus (SubAgent.id agent) (status_of (SubAgentResult.success r))
           (if SubAgentResult.success r then SubAgentResult.result r
            else default "" (SubAgentResult.error r))
         :: rows.
Proof.
  intros Hs.
  assert (forall e w0,
            exists r w' rows,
              execute_catch agent startTime accountId e w0 = (Normal r, w')
              /\ database w'
                 = updateAgentStatus (SubAgent.id agent)
                     (status_of (SubAgentResult.success r))
                     (if SubAgentResult.success r then SubAgentResult.result r
                      else default "" (SubAgentResult.error r))
                   :: rows) as Hcatch.
  { intros e w0.
    destruct (execute_catch_status agent startTime accountId e w0 Hs)
      as (r & w' & -> & Hr & He & Hd).
    exists r, w', (database w0). split; [reflexivity|]. rewrite Hr, He. exact Hd. }
  unfold execute_reply, try_catch. unfold bind at 1.
  destruct o as [e|response]; cbn [awaited throw ret]; [apply Hcatch|].
  unfold bind at 1, lift at 1.
  destruct (first_content response) as [content|e]; [|apply Hcatch].
  unfold bind at 1. cbn [completeRequest].
  match goal with
  | |- context [completeRequest ?a ?t ?c w] =>
      set (w1 := (completeRequest a t c w).2);
      assert (completeRequest a t c w = (Normal tt, w1)) as -> by reflexivity
  end.
  unfold bind at 1, uuidv4 at 1. unfold bind at 1, Date_now at 1.
  unfold bind at 1, db_call at 1.
  match goal with
  | |- context [db_fault ?rows ?c] => destruct (db_fault rows c) as [e|] eqn:Hrow
  end; [apply Hcatch|].
  unfold bind at 1, db_call at 1. rewrite Hs.
  unfold bind at 1, Date_now at 1. cbn [ret].
  eexists _, _, _. split; reflexivity.
Qed.

Lemma executeTask_catch_status self task startTime e :
  accepts_status_updates ->
  triple (fun _ => True) (executeTask_catch self task startTime e)
    (fun r => status_recorded self (Returned r))
    (fun e' => status_recorded self (Failed e')).
Proof.
  intros Hs w _. unfold executeTask_catch, bind at 1, db_call. rewrite Hs.
  simpl. eauto.
Qed.

Lemma executeTask_finish_status self task startTime subResults finalResult :
  accepts_status_updates ->
  triple (fun _ => True)
    (executeTask_finish self task startTime subResults finalResult)
    (fun r => status_recorded self (Returned r)) (fun _ _ => True).
Proof.
  intros Hs. unfold executeTask_finish.
  eapply triple_bind with (R := fun _ _ => True).
  { intros w _. destruct (Date_now w) as [[?|?] ?]; exact Logic.I. }
  intros finished. eapply triple_bind with (R := fun _ _ => True).
  { intros w _. destruct (when _ _ w) as [[?|?] ?]; exact Logic.I. }
  intros ? w _. unfold bind at 1, db_call. rewrite Hs. simpl. eauto.
Qed.

Lemma triple_not_returned self (c : M Phase) :
  spec (fun _ => True) not_returned True c ->
  triple (fun _ => True) c (status_recorded self) (fun _ _ => True).
Proof.
  intros H w _. specialize (H w Logic.I).
  destruct (c w) as [[ph|e] w']; [|exact Logic.I].
  destruct H as [_ H]. destruct ph; simpl in *; auto. contradiction.
Qed.

Lemma continue_with_not_returned x : spec (fun _ => True) not_returned True (continue_with x).
Proof.
  destruct x; simpl; [apply spec_ret; exact Logic.I|].
  apply spec_bind; [apply spec_trivial|]. intros ?. apply spec_ret. exact Logic.I.
Qed.

Lemma status_recorded_step self task startTime ev ph :
  accepts_status_updates ->
  triple (status_recorded self ph) (executeTask_step self task startTime ev ph)
    (status_recorded self) (fun e => status_recorded self (Failed e)).
Proof.
  intros Hs.
  destruct ph as [accountId|r|subResults accountId|result|e], ev as [o|i ev];
    cbn [executeTask_step]; try (apply triple_ret; auto; fail);
    (eapply triple_weaken;
     [apply (triple_in_try (status_recorded self) self task (fun _ => True)
               (fun _ _ => True))
     |auto|intros ph st Hst; exact Hst|intros e st Hst; exact Hst]);
    try (intros e; apply executeTask_catch_status, Hs).
  - apply triple_not_returned.
    apply spec_bind; [apply spec_trivial|]. intros subTasks.
    apply spec_bind; [apply spec_trivial|]. intros x. apply continue_with_not_returned.
  - apply triple_not_returned.
    apply spec_bind; [apply spec_trivial|]. intros x. apply continue_with_not_returned.
  - eapply triple_bind with (R := fun _ _ => True).
    { intros w _. destruct (aggregateResults_reply _ _ _ w) as [[?|?] ?]; exact Logic.I. }
    intros finalResult. eapply triple_bind; [apply executeTask_finish_status, Hs|].
    intros r. apply triple_ret. auto.
Qed.

Lemma executeTask_status_recorded self task w :
  accepts_status_updates ->
  status_recorded self (phase (executeTask self task w)) (world (executeTask self task w)).
Proof.
  intros Hs. unfold executeTask.
  assert (triple (fun _ => True) (executeTask_begin self task)
            (fun p => status_recorded self p.2) (fun _ _ => True)) as H.
  { unfold executeTask_begin.
    eapply triple_bind with (R := fun _ _ => True).
    { intros w0 _. exact Logic.I. }
    intros startTime. eapply triple_bind with (R := status_recorded self).
    - eapply triple_weaken;
        [apply (triple_in_try (status_recorded self) self task (fun _ => True)
                  (fun _ _ => True))
        |auto|intros ph st Hst; exact Hst|simpl; auto];
        [|intros e; apply executeTask_catch_status, Hs].
      apply triple_not_returned.
      apply spec_bind; [apply spec_trivial|]. intros ?.
      apply spec_bind; [apply spec_trivial|]. intros ?. apply spec_ret. exact Logic.I.
    - intros ph. apply triple_ret. auto. }
  specialize (H w Logic.I).
  destruct (executeTask_begin self task w) as [[[startTime ph]|e] w']; simpl in *; auto.
Qed.


End Status_facts.

(** ** The requests of a task *)

Section Requests.
Context {RT : Runtime} {DB : Persistence}.

Lemma quiet_ret {A} (a : A) : quiet (ret a).
Proof. intros w. reflexivity. Qed.

Lemma quiet_throw {A} e : quiet (throw (A := A) e).
Proof. intros w. reflexivity. Qed.

Lemma quiet_lift {A} (c : Completion A) : quiet (lift c).
Proof. intros w. reflexivity. Qed.

Lemma quiet_bind {A B} (c : M A) (k : A -> M B) :
  quiet c -> (forall a, quiet (k a)) -> quiet (bind c k).
Proof.
  intros Hc Hk w. unfold bind. specialize (Hc w).
  destruct (c w) as [[a|e] w1]; simpl in *; [rewrite Hk|]; exact Hc.
Qed.

Lemma quiet_try {A} (c : M A) (h : JsThrown -> M A) :
  quiet c -> (forall e, quiet (h e)) -> quiet (try_catch c h).
Proof.
  intros Hc Hh w. unfold try_catch. specialize (Hc w).
  destruct (c w) as [[a|e] w1]; simpl in *; [|rewrite Hh]; exact Hc.
Qed.

Lemma quiet_if {A} (b : bool) (c1 c2 : M A) :
  quiet c1 -> quiet c2 -> quiet (if b then c1 else c2).
Proof. destruct b; auto. Qed.

Lemma quiet_Date_now : quiet Date_now.
Proof. intros w. reflexivity. Qed.

Lemma quiet_uuidv4 : quiet uuidv4.
Proof. intros w. reflexivity. Qed.

Lemma quiet_observe o : quiet (observe o).
Proof. intros w. reflexivity. Qed.

Lemma quiet_update_active f : quiet (update_active f).
Proof. intros w. reflexivity. Qed.

Lemma quiet_db_call c : quiet (db_call c).
Proof. intros w. unfold db_call. destruct (db_fault (database w) c); reflexivity. Qed.

Lemma quiet_get_manager : quiet get_manager.
Proof. intros w. reflexivity. Qed.

Lemma quiet_isRateLimited accountId : quiet (isRateLimited accountId).
Proof. intros w. destruct accountId; reflexivity. Qed.

Lemma quiet_completeRequest accountId tokensUsed cost :
  quiet (completeRequest accountId tokensUsed cost).
Proof. intros w. destruct accountId; reflexivity. Qed.

Lemma quiet_awaited o : quiet (awaited o).
Proof. destruct o; intros w; reflexivity. Qed.

Create HintDb quiets discriminated.
#[local] Hint Resolve quiet_ret quiet_throw quiet_lift quiet_bind quiet_try quiet_if
  quiet_Date_now quiet_uuidv4 quiet_observe quiet_update_active quiet_db_call
  quiet_get_manager quiet_isRateLimited quiet_completeRequest quiet_awaited : quiets.

Lemma quiet_and_not (a b : M bool) : quiet a -> quiet b -> quiet (and_not a b).
Proof. intros Ha Hb. unfold and_not. auto 10 with quiets. Qed.

#[local] Hint Resolve quiet_and_not : quiets.

Lemma quiet_bothRateLimited : quiet bothRateLimited.
Proof. unfold bothRateLimited. auto 10 with quiets. Qed.

#[local] Hint Resolve quiet_bothRateLimited : quiets.

Lemma quiet_execute_catch agent startTime accountId e :
  quiet (execute_catch agent startTime accountId e).
Proof. unfold execute_catch. auto 20 with quiets. Qed.

#[local] Hint Resolve quiet_execute_catch : quiets.

Lemma quiet_execute_poll agent startTime : quiet (execute_poll agent startTime).
Proof. unfold execute_poll. auto 10 with quiets. Qed.

Lemma quiet_execute_reply agent startTime accountId model o :
  quiet (execute_reply agent startTime accountId model o).
Proof. unfold execute_reply. auto 40 with quiets. Qed.

Lemma quiet_map_subTasks task items : forall index, quiet (map_subTasks task index items).
Proof. induction items as [|st rest IH]; intros index; simpl; auto 20 with quiets. Qed.

#[local] Hint Resolve quiet_execute_poll quiet_execute_reply quiet_map_subTasks : quiets.

Lemma quiet_decomposeTask_reply task accountId o :
  quiet (decomposeTask_reply task accountId o).
Proof.
  unfold decomposeTask_reply. apply quiet_try; [|auto with quiets].
  apply quiet_bind; [auto with quiets|]. intros response.
  apply quiet_bind; [auto with quiets|]. intros ?.
  apply quiet_bind; [auto with quiets|]. intros found.
  apply quiet_bind; [auto with quiets|]. intros subTasksData.
  destruct subTasksData; simpl; auto with quiets.
Qed.

Lemma quiet_aggregateResults_reply subResults accountId o :
  quiet (aggregateResults_reply subResults accountId o).
Proof. unfold aggregateResults_reply. auto 20 with quiets. Qed.

Lemma quiet_executeTask_finish self task startTime subResults finalResult :
  quiet (executeTask_finish self task startTime subResults finalResult).
Proof. unfold executeTask_finish, when. auto 40 with quiets. Qed.

Lemma triple_quiet {A} n (c : M A) :
  quiet c ->
  triple (fun w => requests w = n) c
    (fun _ w => requests w = n) (fun _ w => requests w = n).
Proof.
  intros Hc w Hw. specialize (Hc w).
  destruct (c w) as [[a|e] w1]; simpl in Hc; rewrite Hc; exact Hw.
Qed.

Lemma books_requests n : books (fun w => requests w = n).
Proof.
  split; [split|].
  - intros w H. exact H.
  - intros w accountId now H. destruct accountId; exact H.
  - intros w s k H. exact H.
Qed.

Lemma getClient_asks n sel :
  triple (fun w => requests w = n) (getClient sel)
    (fun _ w => requests w = n + 1) (fun _ _ => False).
Proof.
  apply triple_getClient with (I := fun w => requests w = n); [apply books_requests|].
  intros w a pushed used Hw. unfold requests in *. destruct a; simpl; lia.
Qed.

Lemma getClient_asks_one n sel :
  triple (fun w => requests w = n) (getClient sel)
    (fun _ w => requests w = n + 1) (fun _ _ => True).
Proof.
  eapply triple_weaken; [apply (getClient_asks n sel) | | |]; simpl; auto.
Qed.

Lemma execute_poll_not_acquired agent startTime w :
  match execute_poll agent startTime w with
  | (Normal wk, _) => acquired_one wk = 0
  | (Throw _, _) => False
  end.
Proof.
  unfold execute_poll, bind.
  destruct (safe_run bothRateLimited w safe_bothRateLimited) as (limited & w1 & ->).
  destruct limited; reflexivity.
Qed.

Lemma execute_acquire_asks n agent startTime :
  triple (fun w => requests w = n) (execute_acquire agent startTime)
    (fun wk w => requests w = n + 1 /\ acquired_one wk = 1) (fun _ _ => True).
Proof.
  unfold execute_acquire.
  eapply triple_bind; [apply getClient_asks_one|].
  intros accountId.
  eapply triple_bind with (R := fun _ w => requests w = n + 1).
  { eapply triple_weaken; [apply (triple_quiet (n + 1) _ quiet_Date_now) | | |];
      simpl; auto. }
  intros created.
  eapply triple_bind with (R := fun _ w => requests w = n + 1).
  { eapply triple_weaken; [apply (triple_quiet (n + 1) _ (quiet_db_call _)) | | |];
      simpl; auto. }
  intros ?.
  eapply triple_try with (R := fun _ w => requests w = n + 1).
  - eapply triple_bind with (R := fun _ w => requests w = n + 1).
    { apply (triple_quiet (n + 1) _ quiet_uuidv4). }
    intros cid.
    eapply triple_bind with (R := fun _ w => requests w = n + 1).
    { apply (triple_quiet (n + 1) _ quiet_Date_now). }
    intros stamp.
    eapply triple_bind with (R := fun _ w => requests w = n + 1).
    { apply (triple_quiet (n + 1) _ (quiet_db_call _)). }
    intros ?. apply triple_ret. auto.
  - intros e. eapply triple_bind with (R := fun _ w => requests w = n + 1).
    { eapply triple_weaken;
        [apply (triple_quiet (n + 1) _ (quiet_execute_catch agent startTime accountId e))
        | | |]; simpl; auto. }
    intros r. apply triple_ret. auto.
Qed.

Lemma execute_step_asks n ev wk :
  triple (fun w => requests w = n) (execute_step ev wk)
    (fun wk' w => requests w = n + acquired_one wk' - acquired_one wk)
    (fun _ _ => True).
Proof.
  destruct wk as [agent st|agent st|agent st acct model|r], ev; cbn [execute_step];
    try (apply triple_ret; intros w Hw; simpl; lia).
  - intros w Hw. pose proof (quiet_execute_poll agent st w) as Hq.
    pose proof (execute_poll_not_acquired agent st w) as Ha.
    destruct (execute_poll agent st w) as [[wk'|e] w']; [|exact Logic.I].
    simpl in *. lia.
  - eapply triple_weaken; [apply (execute_acquire_asks n agent st) | | |]; simpl; auto.
    intros wk' w [Hw Hwk']. lia.
  - eapply triple_bind with (R := fun _ w => requests w = n).
    + eapply triple_weaken;
        [apply (triple_quiet n _ (quiet_execute_reply agent st acct model o)) | | |];
        simpl; auto.
    + intros r. apply triple_ret. intros w Hw. simpl. lia.
Qed.

Lemma spawned_step_asks n ev wk :
  triple (fun w => requests w = n) (spawned_step ev wk)
    (fun wk' w => requests w = n + acquired_one wk' - acquired_one wk)
    (fun _ _ => True).
Proof.
  unfold spawned_step. destruct (worker_task wk) as [t|].
  - eapply triple_try with (R := fun _ _ => True).
    + eapply triple_bind; [apply (execute_step_asks n ev wk)|].
      intros wk'. destruct wk' as [| | |r]; try (apply triple_ret; auto; fail).
      eapply triple_bind
        with (R := fun _ w => requests w = n + acquired_one (Done r) - acquired_one wk).
      * eapply triple_weaken;
          [apply (triple_quiet (n + acquired_one (Done r) - acquired_one wk) _
                    (quiet_bind _ _ (quiet_update_active _)
                       (fun _ => quiet_observe _)))
          | | |]; simpl; auto.
      * intros ?. apply triple_ret. auto.
    + intros e w _. exact Logic.I.
  - apply triple_ret. intros w Hw. lia.
Qed.

Lemma spawnSubAgent_asks n self t :
  triple (fun w => requests w = n) (spawnSubAgent self t)
    (fun wk w => requests w = n /\ acquired_one wk = 0) (fun _ _ => True).
Proof.
  intros w Hw.
  assert (quiet (spawnSubAgent self t)) as Hq.
  { unfold spawnSubAgent, execute_begin. auto 20 with quiets. }
  specialize (Hq w).
  assert (match spawnSubAgent self t w with
          | (Normal wk, _) => acquired_one wk = 0
          | (Throw _, _) => True
          end) as Ha.
  { unfold spawnSubAgent, bind at 1, observe, bind at 1, uuidv4, bind at 1, update_active.
    unfold execute_begin, bind at 1, Date_now.
    match goal with
    | |- context [execute_poll ?a ?s ?w0] =>
        pose proof (execute_poll_not_acquired a s w0) as H;
        destruct (execute_poll a s w0) as [[wk|e] w1]; [exact H | exact Logic.I]
    end. }
  destruct (spawnSubAgent self t w) as [[wk|e] w1]; [|exact Logic.I].
  simpl in Hq. split; [lia | exact Ha].
Qed.

Lemma spawn_each_asks n self ts :
  triple (fun w => requests w = n) (spawn_each self ts)
    (fun wks w => requests w = n /\ acquired_all wks = 0) (fun _ _ => True).
Proof.
  induction ts as [|t ts IH]; simpl; [apply triple_ret; auto|].
  eapply triple_bind; [apply spawnSubAgent_asks|]. intros wk.
  intros w [Hw Hwk]. unfold bind. specialize (IH w Hw).
  destruct (spawn_each self ts w) as [[wks|e] w1]; [|exact Logic.I].
  destruct IH as [Hw1 Hwks]. simpl. split; [exact Hw1 | lia].
Qed.

Lemma acquired_all_insert wks : forall i wk wk',
  wks !! i = Some wk ->
  acquired_all (<[i:=wk']> wks) = acquired_all wks - acquired_one wk + acquired_one wk'.
Proof.
  induction wks as [|wk0 wks IH]; intros i wk wk' Hi.
  - rewrite lookup_nil in Hi. discriminate.
  - destruct i as [|i]; simpl in *.
    + injection Hi as ->. lia.
    + rewrite (IH i wk wk' Hi). lia.
Qed.

Lemma acquired_all_settled wks : forall rs,
  Promise_all wks = Some rs -> acquired_all wks = Z.of_nat (length rs).
Proof.
  induction wks as [|wk wks IH]; intros rs H; simpl in H.
  - injection H as <-. reflexivity.
  - destruct wk as [| | |r]; try discriminate.
    destruct (Promise_all wks) as [rs'|]; [|discriminate].
    injection H as <-. simpl. rewrite (IH rs' eq_refl). lia.
Qed.

Lemma sequential_loop_asks n self results rest :
  triple (fun w => requests w = n + Z.of_nat (length results))
    (sequential_loop self results rest)
    (fun x w => requests w = n + asked_execution x) (fun _ _ => True).
Proof.
  destruct rest as [|t rest]; simpl; [apply triple_ret; auto|].
  eapply triple_bind; [apply spawnSubAgent_asks|].
  intros wk. apply triple_ret. intros w [Hw Hwk]. simpl. lia.
Qed.

Lemma adaptive_loop_asks n self sr cr rest :
  triple (fun w => requests w = n + Z.of_nat (length sr) + Z.of_nat (length cr))
    (adaptive_loop self sr cr rest)
    (fun x w => requests w = n + asked_execution x) (fun _ _ => True).
Proof.
  destruct rest as [|t rest]; simpl.
  - apply triple_ret. intros w Hw. simpl. rewrite length_app. lia.
  - eapply triple_bind; [apply spawnSubAgent_asks|].
    intros wk. apply triple_ret. intros w [Hw Hwk]. simpl. lia.
Qed.

Lemma execute_by_strategy_asks n self subTasks :
  triple (fun w => requests w = n) (execute_by_strategy self subTasks)
    (fun x w => requests w = n + asked_execution x) (fun _ _ => True).
Proof.
  unfold execute_by_strategy.
  destruct (SuperAgentConfig.strategy (SuperAgent.config self)).
  - unfold executeParallel. eapply triple_bind; [apply spawn_each_asks|].
    intros promises. apply triple_ret. intros w [Hw Hp]. unfold await_all.
    destruct (Promise_all promises) as [results|] eqn:Hall; simpl.
    + rewrite <- (acquired_all_settled _ _ Hall). lia.
    + lia.
  - eapply triple_weaken; [apply (sequential_loop_asks n self [] subTasks) | | |];
      simpl; auto. intros w Hw. lia.
  - unfold executeAdaptive. eapply triple_bind; [apply spawn_each_asks|].
    intros promises.
    destruct (Promise_all promises) as [results|] eqn:Hall.
    + eapply triple_weaken; [apply (adaptive_loop_asks n self results []) | | |];
        simpl; auto.
      intros w [Hw Hp]. rewrite <- (acquired_all_settled _ _ Hall). lia.
    + apply triple_ret. intros w [Hw Hp]. simpl. lia.
Qed.

Lemma strategy_step_asks n self i ev r :
  triple (fun w => requests w = n + asked_by r) (strategy_step self i ev r)
    (fun x w => requests w = n + asked_execution x) (fun _ _ => True).
Proof.
  destruct r as [promises|results current rest|promises complexTasks|sr cr current rest];
    cbn [strategy_step asked_by].
  - destruct (promises !! i) as [wk|] eqn:Hwk; [|apply triple_ret; auto].
    eapply triple_bind; [apply spawned_step_asks|].
    intros wk'. apply triple_ret. intros w Hw. unfold await_all.
    pose proof (acquired_all_insert promises i wk wk' Hwk) as Hins.
    destruct (Promise_all (<[i:=wk']> promises)) as [results|] eqn:Hall; simpl.
    + rewrite <- (acquired_all_settled _ _ Hall). lia.
    + lia.
  - eapply triple_bind; [apply spawned_step_asks|].
    intros wk'. destruct wk' as [agent st|agent st|agent st acct model|result];
      try (apply triple_ret; intros w Hw; simpl in *; lia).
    eapply triple_weaken;
      [apply (sequential_loop_asks n self (results ++ [result]) rest) | | |];
      simpl; auto.
    intros w Hw. rewrite length_app. simpl in *. lia.
  - destruct (promises !! i) as [wk|] eqn:Hwk; [|apply triple_ret; auto].
    eapply triple_bind; [apply spawned_step_asks|].
    intros wk'.
    pose proof (acquired_all_insert promises i wk wk' Hwk) as Hins.
    destruct (Promise_all (<[i:=wk']> promises)) as [results|] eqn:Hall.
    + eapply triple_weaken; [apply (adaptive_loop_asks n self results []) | | |];
        simpl; auto.
      intros w Hw. rewrite <- (acquired_all_settled _ _ Hall). lia.
    + apply triple_ret. intros w Hw. simpl. lia.
  - eapply triple_bind; [apply spawned_step_asks|].
    intros wk'. destruct wk' as [agent st|agent st|agent st acct model|result];
      try (apply triple_ret; intros w Hw; simpl in *; lia).
    eapply triple_weaken;
      [apply (adaptive_loop_asks n self sr (cr ++ [result]) rest) | | |];
      simpl; auto.
    intros w Hw. rewrite length_app. simpl in *. lia.
Qed.

Lemma continue_with_asked n x :
  triple (fun w => requests w = n + 1 + asked_execution x) (continue_with x)
    (asked n) (fun _ _ => True).
Proof.
  destruct x as [r|results]; simpl; [apply triple_ret; auto|].
  unfold aggregateResults_begin. eapply triple_bind; [apply getClient_asks_one|].
  intros accountId. apply triple_ret. intros w Hw. simpl. lia.
Qed.

Lemma executeTask_catch_asked n self task startTime e :
  triple (fun _ => True) (executeTask_catch self task startTime e)
    (fun r => asked n (Returned r)) (fun e' => asked n (Failed e')).
Proof.
  intros w _.
  pose proof (spec_executeTask_catch self task startTime e w Logic.I) as H.
  destruct (executeTask_catch self task startTime e w) as [[r|e'] w']; [|exact Logic.I].
  destruct H as (_ & _ & Hr & _). simpl. intros Hs. congruence.
Qed.

Lemma asked_step n self task startTime ev ph :
  triple (asked n ph) (executeTask_step self task startTime ev ph)
    (asked n) (fun e => asked n (Failed e)).
Proof.
  destruct ph as [accountId|r|subResults accountId|result|e], ev as [o|i ev];
    cbn [executeTask_step]; try (apply triple_ret; auto; fail);
    apply triple_in_try with (C := fun _ _ => True);
    try (intros e; apply executeTask_catch_asked).
  - eapply triple_bind with (R := fun _ w => requests w = n + 1).
    + eapply triple_weaken;
        [apply (triple_quiet (n + 1) _ (quiet_decomposeTask_reply task accountId o))
        | | |]; simpl; auto.
    + intros subTasks. eapply triple_bind; [apply execute_by_strategy_asks|].
      intros x. apply continue_with_asked.
  - eapply triple_bind; [apply (strategy_step_asks (n + 1))|].
    intros x. apply continue_with_asked.
  - eapply triple_bind
      with (R := fun _ w => requests w = n + 2 + Z.of_nat (length subResults)).
    + eapply triple_weaken;
        [apply (triple_quiet (n + 2 + Z.of_nat (length subResults)) _
                  (quiet_aggregateResults_reply subResults accountId o))
        | | |]; simpl; auto.
    + intros finalResult. intros w Hw. unfold bind.
      pose proof (quiet_executeTask_finish self task startTime subResults finalResult w)
        as Hq.
      pose proof (spec_executeTask_finish self task startTime subResults finalResult w
                    Logic.I) as Hf.
      destruct (executeTask_finish self task startTime subResults finalResult w)
        as [[r|e] w']; [|exact Logic.I].
      destruct Hf as (_ & _ & _ & _ & Hr). simpl in *. intros _. rewrite Hr. lia.
Qed.

Lemma executeTask_asked self task w :
  asked (requests w) (phase (executeTask self task w)) (world (executeTask self task w)).
Proof.
  unfold executeTask.
  assert (triple (fun w0 => requests w0 = requests w) (executeTask_begin self task)
            (fun p => asked (requests w) p.2) (fun _ _ => True)) as H.
  { unfold executeTask_begin.
    eapply triple_bind with (R := fun _ w0 => requests w0 = requests w).
    { eapply triple_weaken;
        [apply (triple_quiet (requests w) _ quiet_Date_now) | | |]; simpl; auto. }
    intros startTime. eapply triple_bind with (R := asked (requests w)).
    - eapply triple_weaken with (E' := fun e => asked (requests w) (Failed e));
        [|intros st Hst; exact Hst|intros ph st Hst; exact Hst|simpl; auto].
      apply triple_in_try with (C := fun _ _ => True);
        [|intros e; apply executeTask_catch_asked].
      eapply triple_bind with (R := fun _ w0 => requests w0 = requests w).
      + eapply triple_weaken; [apply (triple_quiet (requests w)) | | |];
          [|simpl; auto..].
        unfold when. apply quiet_if; auto 10 with quiets.
      + intros ?. unfold decomposeTask_begin.
        eapply triple_bind; [apply getClient_asks_one|].
        intros accountId. apply triple_ret. auto.
    - intros ph. apply triple_ret. auto. }
  specialize (H w eq_refl).
  destruct (executeTask_begin self task w) as [[[startTime ph]|e] w']; simpl in *; auto.
Qed.

(** X22. When [executeTask] has returned with [success = true], whatever
    the environment did, the two accounts together have counted, since the
    start of the task, one request per sub-result and two more, for the
    decomposition and for the synthesis: that is the difference between the
    combined [totalRequests] that [getAllStats] reports after and before the
    task. *)
Theorem requests_of_a_task self task w evs r :
  let c := run self task evs (executeTask self task w) in
  phase c = Returned r -> TaskResult.success r = true ->
  exists before after,
    getAllStats w = (Normal before, w)
    /\ getAllStats (world c) = (Normal after, world c)
    /\ Combined.totalRequests (AllStats.combined after)
       = Combined.totalRequests (AllStats.combined before)
         + Z.of_nat (length (TaskResult.subResults r)) + 2.
Proof.
  intros c Hr Hs.
  pose proof (run_invariant (asked (requests w)) self task
                (fun st ev ph => asked_step (requests w) self task st ev ph) evs _
                (executeTask_asked self task w)) as H.
  fold c in H. rewrite Hr in H. simpl in H. specialize (H Hs).
  eexists _, _. split; [reflexivity|]. split; [reflexivity|].
  simpl. unfold requests in H. lia.
Qed.

End Requests.

(** ** The rows written without history *)

Section Rows.
Context {RT : Runtime} {DB : Persistence}.
Variable P : DbCall -> Prop.

Lemma writes_nothing {A} (c : M A) :
  (forall w, database (c w).2 = database w) -> writes P c.
Proof. intros H w. exists []. split; [apply H | constructor]. Qed.

Lemma writes_ret {A} (a : A) : writes P (ret a).
Proof. apply writes_nothing. reflexivity. Qed.

Lemma writes_throw {A} e : writes P (throw (A := A) e).
Proof. apply writes_nothing. reflexivity. Qed.

Lemma writes_lift {A} (c : Completion A) : writes P (lift c).
Proof. apply writes_nothing. reflexivity. Qed.

Lemma writes_bind {A B} (c : M A) (k : A -> M B) :
  writes P c -> (forall a, writes P (k a)) -> writes P (bind c k).
Proof.
  intros Hc Hk w. unfold bind. destruct (Hc w) as (new1 & H1 & HP1).
  destruct (c w) as [[a|e] w1]; simpl in *; [|eauto].
  destruct (Hk a w1) as (new2 & H2 & HP2). exists (new2 ++ new1)%list.
  split; [rewrite H2, H1, app_assoc; reflexivity | apply Forall_app; auto].
Qed.

Lemma writes_try {A} (c : M A) (h : JsThrown -> M A) :
  writes P c -> (forall e, writes P (h e)) -> writes P (try_catch c h).
Proof.
  intros Hc Hh w. unfold try_catch. destruct (Hc w) as (new1 & H1 & HP1).
  destruct (c w) as [[a|e] w1]; simpl in *; [eauto|].
  destruct (Hh e w1) as (new2 & H2 & HP2). exists (new2 ++ new1)%list.
  split; [rewrite H2, H1, app_assoc; reflexivity | apply Forall_app; auto].
Qed.

Lemma writes_if {A} (b : bool) (c1 c2 : M A) :
  writes P c1 -> writes P c2 -> writes P (if b then c1 else c2).
Proof. destruct b; auto. Qed.

Lemma writes_db_call c : P c -> writes P (db_call c).
Proof.
  intros Hc w. unfold db_call. destruct (db_fault (database w) c).
  - exists []. split; [reflexivity | constructor].
  - exists [c]. split; [reflexivity | repeat constructor; exact Hc].
Qed.

Lemma writes_Date_now : writes P Date_now.
Proof. apply writes_nothing. reflexivity. Qed.

Lemma writes_uuidv4 : writes P uuidv4.
Proof. apply writes_nothing. reflexivity. Qed.

Lemma writes_observe o : writes P (observe o).
Proof. apply writes_nothing. reflexivity. Qed.

Lemma writes_update_active f : writes P (update_active f).
Proof. apply writes_nothing. reflexivity. Qed.

Lemma writes_get_manager : writes P get_manager.
Proof. apply writes_nothing. reflexivity. Qed.

Lemma writes_isRateLimited accountId : writes P (isRateLimited accountId).
Proof. apply writes_nothing. reflexivity. Qed.

Lemma writes_completeRequest accountId tokensUsed cost :
  writes P (completeRequest accountId tokensUsed cost).
Proof. apply writes_nothing. reflexivity. Qed.

Lemma writes_awaited o : writes P (awaited o).
Proof. destruct o; apply writes_nothing; reflexivity. Qed.

Create HintDb rows discriminated.
#[local] Hint Resolve writes_ret writes_throw writes_lift writes_bind writes_try writes_if
  writes_Date_now writes_uuidv4 writes_observe writes_update_active writes_get_manager
  writes_isRateLimited writes_completeRequest writes_awaited : rows.

Lemma writes_and_not (a b : M bool) : writes P a -> writes P b -> writes P (and_not a b).
Proof. intros Ha Hb. unfold and_not. auto 10 with rows. Qed.

#[local] Hint Resolve writes_and_not : rows.

Lemma writes_bothRateLimited : writes P bothRateLimited.
Proof. unfold bothRateLimited. auto 10 with rows. Qed.

Lemma writes_selectAccount : writes P selectAccount.
Proof.
  unfold selectAccount. apply writes_bind; [auto with rows|]. intros m.
  destruct (strategy m); [| | |auto with rows].
  - apply writes_nothing. reflexivity.
  - unfold selectLeastLoaded. auto 20 with rows.
  - unfold selectCostOptimized. auto 20 with rows.
Qed.

Lemma writes_getClient sel : writes P (getClient sel).
Proof.
  unfold getClient. apply writes_bind.
  - destruct sel; [apply writes_ret | apply writes_selectAccount].
  - intros a. apply writes_nothing. reflexivity.
Qed.

#[local] Hint Resolve writes_bothRateLimited writes_selectAccount writes_getClient : rows.

Hypothesis status_updates : forall id status result, P (updateAgentStatus id status result).
Hypothesis registrations :
  forall id type parent_id account status task created_at,
    P (saveAgent id type parent_id account status task created_at).
Hypothesis sub_agent_conversations :
  forall id super_agent_id sub_agent_id account role content timestamp usage,
    P (saveConversation id super_agent_id (Some sub_agent_id) account role content
         timestamp usage).

Lemma writes_execute_catch agent startTime accountId e :
  writes P (execute_catch agent startTime accountId e).
Proof.
  unfold execute_catch. apply writes_bind; [apply writes_db_call, status_updates|].
  auto 20 with rows.
Qed.

#[local] Hint Resolve writes_execute_catch : rows.

Lemma writes_execute_step ev wk : writes P (execute_step ev wk).
Proof.
  destruct wk as [agent st|agent st|agent st acct model|r], ev; simpl; auto with rows.
  - unfold execute_poll. auto 10 with rows.
  - unfold execute_acquire.
    apply writes_bind; [auto with rows|]. intros accountId.
    apply writes_bind; [auto with rows|]. intros created.
    apply writes_bind; [apply writes_db_call, registrations|]. intros ?.
    apply writes_try; [|auto 10 with rows].
    apply writes_bind; [auto with rows|]. intros cid.
    apply writes_bind; [auto with rows|]. intros stamp.
    apply writes_bind; [apply writes_db_call, sub_agent_conversations|]. intros ?.
    auto with rows.
  - apply writes_bind; [|auto with rows]. unfold execute_reply.
    apply writes_try; [|auto with rows].
    apply writes_bind; [auto with rows|]. intros response.
    apply writes_bind; [auto with rows|]. intros content.
    apply writes_bind; [auto with rows|]. intros ?.
    apply writes_bind; [auto with rows|]. intros cid.
    apply writes_bind; [auto with rows|]. intros stamp.
    apply writes_bind; [apply writes_db_call, sub_agent_conversations|]. intros ?.
    apply writes_bind; [apply writes_db_call, status_updates|]. intros ?.
    auto 10 with rows.
Qed.

Lemma writes_spawnSubAgent self t : writes P (spawnSubAgent self t).
Proof. unfold spawnSubAgent, execute_begin, execute_poll. auto 20 with rows. Qed.

#[local] Hint Resolve writes_execute_step writes_spawnSubAgent : rows.

Lemma writes_spawn_each self ts : writes P (spawn_each self ts).
Proof. induction ts as [|t ts IH]; simpl; auto 10 with rows. Qed.

Lemma writes_spawned_step ev wk : writes P (spawned_step ev wk).
Proof.
  unfold spawned_step. destruct (worker_task wk); [|auto with rows].
  apply writes_try; [|auto 10 with rows].
  apply writes_bind; [auto with rows|]. intros [| | |r]; auto 10 with rows.
Qed.

Lemma writes_sequential_loop self results rest :
  writes P (sequential_loop self results rest).
Proof. destruct rest; simpl; auto 10 with rows. Qed.

Lemma writes_adaptive_loop self sr cr rest : writes P (adaptive_loop self sr cr rest).
Proof. destruct rest; simpl; auto 10 with rows. Qed.

#[local] Hint Resolve writes_spawn_each writes_spawned_step writes_sequential_loop
  writes_adaptive_loop : rows.

Lemma writes_execute_by_strategy self subTasks :
  writes P (execute_by_strategy self subTasks).
Proof.
  unfold execute_by_strategy.
  destruct (SuperAgentConfig.strategy (SuperAgent.config self)).
  - unfold executeParallel. auto 10 with rows.
  - unfold executeSequential. auto with rows.
  - unfold executeAdaptive. apply writes_bind; [auto with rows|]. intros promises.
    destruct (Promise_all promises); auto with rows.
Qed.

Lemma writes_strategy_step self i ev r : writes P (strategy_step self i ev r).
Proof.
  destruct r as [promises|results current rest|promises complexTasks|sr cr current rest];
    simpl.
  - destruct (promises !! i); auto 10 with rows.
  - apply writes_bind; [auto with rows|]. intros [| | |result]; auto with rows.
  - destruct (promises !! i); [|auto with rows].
    apply writes_bind; [auto with rows|]. intros wk'.
    destruct (Promise_all _); auto with rows.
  - apply writes_bind; [auto with rows|]. intros [| | |result]; auto with rows.
Qed.

Lemma writes_continue_with x : writes P (continue_with x).
Proof. destruct x; simpl; unfold aggregateResults_begin; auto 10 with rows. Qed.

Lemma writes_map_subTasks task items : forall index,
  writes P (map_subTasks task index items).
Proof. induction items as [|st rest IH]; intros index; simpl; auto 20 with rows. Qed.

#[local] Hint Resolve writes_map_subTasks : rows.

Lemma writes_decomposeTask_reply task accountId o :
  writes P (decomposeTask_reply task accountId o).
Proof.
  unfold decomposeTask_reply. apply writes_try; [|auto with rows].
  apply writes_bind; [auto with rows|]. intros response.
  apply writes_bind; [auto with rows|]. intros ?.
  apply writes_bind; [auto with rows|]. intros found.
  apply writes_bind; [auto with rows|]. intros subTasksData.
  destruct subTasksData; simpl; auto with rows.
Qed.

Lemma writes_aggregateResults_reply subResults accountId o :
  writes P (aggregateResults_reply subResults accountId o).
Proof. unfold aggregateResults_reply. auto 20 with rows. Qed.

Lemma writes_executeTask_catch self task startTime e :
  writes P (executeTask_catch self task startTime e).
Proof.
  unfold executeTask_catch. apply writes_bind; [apply writes_db_call, status_updates|].
  auto 10 with rows.
Qed.

Variable self : SuperAgent.t.
Variable task : Task.t.
Hypothesis without_history : SuperAgentConfig.saveHistory (SuperAgent.config self) = false.

Lemma writes_in_try startTime body :
  writes P body -> writes P (in_try self task startTime body).
Proof.
  intros H. unfold in_try. apply writes_try; [exact H|]. intros e.
  apply writes_bind; [apply writes_executeTask_catch|]. auto with rows.
Qed.

Lemma writes_executeTask_finish startTime subResults finalResult :
  writes P (executeTask_finish self task startTime subResults finalResult).
Proof.
  unfold executeTask_finish. rewrite without_history. unfold when.
  apply writes_bind; [auto with rows|]. intros finished.
  apply writes_bind; [auto with rows|]. intros ?.
  apply writes_bind; [apply writes_db_call, status_updates|]. auto with rows.
Qed.

Lemma writes_executeTask_step startTime ev ph :
  writes P (executeTask_step self task startTime ev ph).
Proof.
  destruct ph, ev; simpl; auto with rows; apply writes_in_try.
  - apply writes_bind; [apply writes_decomposeTask_reply|]. intros subTasks.
    apply writes_bind; [apply writes_execute_by_strategy|]. intros x.
    apply writes_continue_with.
  - apply writes_bind; [apply writes_strategy_step|]. intros x.
    apply writes_continue_with.
  - apply writes_bind; [apply writes_aggregateResults_reply|]. intros finalResult.
    apply writes_bind; [apply writes_executeTask_finish|]. auto with rows.
Qed.

Lemma writes_react c ev :
  exists new,
    database (world (react self task c ev)) = (new ++ database (world c))%list
    /\ Forall P new.
Proof.
  unfold react.
  destruct (writes_executeTask_step (startTime c) ev (phase c) (world c))
    as (new & H & HP).
  exists new. split; [|exact HP].
  destruct (executeTask_step _ _ _ _ _ _) as [[ph|e] w']; exact H.
Qed.

Lemma writes_run evs : forall c,
  exists new,
    database (world (run self task evs c)) = (new ++ database (world c))%list
    /\ Forall P new.
Proof.
  induction evs as [|ev evs IH]; intros c; [exists []; split; [reflexivity | constructor]|].
  simpl. destruct (IH (react self task c ev)) as (new2 & H2 & HP2).
  destruct (writes_react c ev) as (new1 & H1 & HP1).
  exists (new2 ++ new1)%list.
  split; [rewrite H2, H1, app_assoc; reflexivity | apply Forall_app; auto].
Qed.

Lemma writes_executeTask w :
  exists new,
    database (world (executeTask self task w)) = (new ++ database w)%list /\ Forall P new.
Proof.
  assert (writes P (executeTask_begin self task)) as H.
  { unfold executeTask_begin. rewrite without_history. unfold when, decomposeTask_begin.
    apply writes_bind; [auto with rows|]. intros startTime.
    apply writes_bind; [|auto with rows]. apply writes_in_try. auto 10 with rows. }
  destruct (H w) as (new & Hw & HP). exists new. split; [|exact HP].
  unfold executeTask.
  destruct (executeTask_begin self task w) as [[[startTime ph]|e] w']; exact Hw.
Qed.

End Rows.

Section History.
Context {RT : Runtime} {DB : Persistence}.

(** X23. With [saveHistory] off, whatever the environment does, no row
    that [executeTask] writes is a conversation row of the super-agent or a
    document. *)
Theorem without_history_only_sub_agent_rows self task w evs :
  SuperAgentConfig.saveHistory (SuperAgent.config self) = false ->
  exists new,
    database (world (run self task evs (executeTask self task w)))
    = (new ++ database w)%list
    /\ Forall no_history new.
Proof.
  intros Hoff.
  assert (forall c, exists new,
            database (world (run self task evs c)) = (new ++ database (world c))%list
            /\ Forall no_history new) as Hrun.
  { apply (writes_run no_history); try (intros; exact Logic.I). exact Hoff. }
  destruct (Hrun (executeTask self task w)) as (new2 & H2 & HP2).
  destruct (writes_executeTask no_history (fun _ _ _ => Logic.I) self task Hoff w)
    as (new1 & H1 & HP1).
  exists (new2 ++ new1)%list.
  split; [rewrite H2, H1, app_assoc; reflexivity | apply Forall_app; auto].
Qed.

End History.

(** ** Concrete runs *)

Section Runs.
Import Reference.
#[local] Existing Instance accepting.

(** C1 fails on the code: [decomposeTask] never reads
    [config.maxSubAgents].  With a limit of three and an answer listing five
    sub-tasks, five sub-agents are spawned. *)
Theorem decomposition_exceeds_maxSubAgents :
  let self := super_agent 3 parallel in
  let c := run self task [Backend (answer five_subTasks 100)]
             (executeTask self task (fresh_world least_loaded)) in
  exists promises,
    phase c = Executing (InParallel promises)
    /\ length promises = 5%nat
    /\ SuperAgentConfig.maxSubAgents (SuperAgent.config self) < Z.of_nat (length promises).
Proof. vm_compute. eexists. split; [reflexivity|]. split; reflexivity. Qed.

(** C2 fails as stated: an empty answer is not followed by the fall-back
    but by an empty list of sub-tasks. *)
Lemma empty_answer_gives_no_subTask :
  (decomposeTask_reply task account1 empty_answer (fresh_world least_loaded)).1
  = Normal []
  /\ ~ (exists subTask w',
          decomposeTask_reply task account1 empty_answer (fresh_world least_loaded)
          = (Normal [subTask], w')).
Proof.
  split; [vm_compute; reflexivity|].
  intros (subTask & w' & H).
  apply (f_equal fst) in H. vm_compute in H. discriminate.
Qed.

(** The override at work: the first account is limited, the second is
    chosen although it is not the least loaded by the tie rule. *)
Lemma rate_limit_check_and_override_witness :
  let w := world_with (one_limited least_loaded) in
  (forall k, (k < 3)%nat ->
     limited_at (clock (ticks w + k)) (accounts_get account1 (manager w)) = true)
  /\ (forall k, (k < 3)%nat ->
        limited_at (clock (ticks w + k)) (accounts_get account2 (manager w)) = false)
  /\ (selectAccount w).1 = Normal account2.
Proof.
  intros w.
  assert (forall k, (k < 3)%nat ->
            limited_at (clock (ticks w + k)) (accounts_get account1 (manager w)) = true)
    as H1.
  { intros k Hk. destruct k as [|[|[|k]]]; [reflexivity..|lia]. }
  assert (forall k, (k < 3)%nat ->
            limited_at (clock (ticks w + k)) (accounts_get account2 (manager w)) = false)
    as H2.
  { intros k Hk. destruct k as [|[|[|k]]]; [reflexivity..|lia]. }
  split; [exact H1|]. split; [exact H2|].
  apply (proj2 rate_limit_check_and_override w account1 account2);
    [left; reflexivity | discriminate | exact H1 | exact H2].
Defined.

Lemma round_robin_cycles_witness :
  let calls :=
    [call_selectAccount; call_getClient None; call_completeRequest account2 10 0%Q;
     call_getClient (Some account2); call_selectAccount] in
  forallb (fun c => negb (sets_strategy c)) calls = true
  /\ exists chosen w',
       perform_all calls
         (set_manager
            (new_AccountManager (account_config "a" 60) (account_config "b" 60) round_robin)
            (fresh_world least_loaded))
       = (Normal chosen, w')
       /\ forall n a, chosen !! n = Some a ->
            accounts !! (n mod length accounts)%nat = Some a.
Proof.
  intros calls. split; [reflexivity|].
  apply (round_robin_cycles (account_config "a" 60) (account_config "b" 60) calls
           (fresh_world least_loaded)).
  reflexivity.
Defined.

Lemma accepting_accepts_all : @accepts_all accepting.
Proof. intros rows c. reflexivity. Defined.

Lemma accepting_accepts_status_updates : @accepts_status_updates accepting.
Proof. intros rows id status result. reflexivity. Defined.

Lemma accepting_accepts_registrations : @accepts_registrations accepting.
Proof. intros rows id type parent_id account status t created_at. reflexivity. Defined.


Lemma decomposition_falls_back_witness :
  unusable outage
  /\ exists subTask w',
       decomposeTask_reply task account1 outage (fresh_world least_loaded)
       = (Normal [subTask], w')
       /\ SubAgentTask.description subTask = JStr "Summarize module X and list risks"
       /\ SubAgentTask.complexity subTask = JStr "medium"
       /\ SubAgentTask.priority subTask = JNum 1
       /\ SubAgentTask.parentTaskId subTask = "task-1".
Proof.
  assert (unusable outage) as H by (eapply failed_call; reflexivity).
  split; [exact H|].
  apply (proj1 (proj1 (decomposition_falls_back task account1
                         (fresh_world least_loaded)) outage H)).
Defined.


Lemma totals_are_sums_witness :
  exists r,
    phase (run (super_agent 5 adaptive) task full_run
             (executeTask (super_agent 5 adaptive) task (fresh_world least_loaded)))
    = Returned r
    /\ TaskResult.tokensUsed r = 6500
    /\ TaskResult.tokensUsed r = sum_tokens (TaskResult.subResults r)
    /\ (TaskResult.cost r == sum_cost (TaskResult.subResults r))%Q.
Proof.
  eexists. split; [vm_compute; reflexivity|]. split; [reflexivity|].
  apply (totals_are_sums (super_agent 5 adaptive) task (fresh_world least_loaded)
           full_run).
  vm_compute. reflexivity.
Defined.


Lemma reference_clock_diverges : clock_diverges.
Proof.
  intros t. exists (Z.to_nat t). intros k Hk. simpl. lia.
Defined.

Lemma fresh_world_positive_limit s : positive_limit (fresh_world s).
Proof. exists account1. reflexivity. Defined.


End Runs.

(** ** Further concrete runs *)

Section More_runs.
Import Reference.
#[local] Existing Instance accepting.

Lemma reference_clock_monotone : clock_monotone.
Proof. intros j k Hjk. simpl. lia. Defined.

Lemma fresh_world_in_flight_ok s : in_flight_ok (fresh_world s).
Proof. intros accountId. destruct accountId; simpl; lia. Defined.

Lemma acquire_then_release_witness :
  in_flight_ok (fresh_world least_loaded)
  /\ exists w1 w2,
       getClient None (fresh_world least_loaded) = (Normal account1, w1)
       /\ completeRequest account1 100 (1 # 1000) w1 = (Normal tt, w2)
       /\ activeRequests (stats (acct1 (manager w2))) = 0
       /\ totalRequests (stats (acct1 (manager w2))) = 1
       /\ totalTokens (stats (acct1 (manager w2))) = 100.
Proof.
  split; [exact (fresh_world_in_flight_ok least_loaded)|].
  destruct (acquire_then_release None 100 (1 # 1000) (fresh_world least_loaded)
              (fresh_world_in_flight_ok least_loaded))
    as (a & w1 & w2 & Hget & Hrel & _ & Hstats & _).
  assert (a = account1) as ->.
  { apply (f_equal fst) in Hget. vm_compute in Hget. congruence. }
  exists w1, w2. split; [exact Hget|]. split; [exact Hrel|].
  destruct Hstats as (H1 & H2 & H3 & _). simpl in *. auto.
Defined.


Lemma sub_agent_success_witness :
  accepts_all
  /\ first_content {| choices := Some [Some "exports"]; total_tokens := Some 1000 |}
     = Normal (Some "exports")
  /\ exists r w',
       execute_reply sample_agent 1700000000000 account2 "grok-3-fast"
         (answer "exports" 1000) (fresh_world least_loaded)
       = (Normal r, w')
       /\ SubAgentResult.success r = true
       /\ SubAgentResult.result r = "exports"
       /\ SubAgentResult.tokensUsed r = 1000
       /\ (SubAgentResult.cost r == 8 # 1000)%Q.
Proof.
  split; [exact accepting_accepts_all|]. split; [reflexivity|].
  destruct (sub_agent_success sample_agent 1700000000000 account2 "grok-3-fast"
              {| choices := Some [Some "exports"]; total_tokens := Some 1000 |}
              (Some "exports") (fresh_world least_loaded) accepting_accepts_all eq_refl)
    as (cid & stamp & finished & w' & H & _).
  eexists _, w'. split; [exact H|]. simpl. repeat split; reflexivity.
Defined.


Lemma one_limited_positive_limit s : positive_limit (world_with (one_limited s)).
Proof. exists account1. reflexivity. Defined.

Lemma waiting_ends_witness :
  clock_diverges
  /\ positive_limit (world_with (one_limited least_loaded))
  /\ exists polls w',
       execute_run (repeat Wake polls) (Sleeping sample_agent 1700000000000)
         (world_with (one_limited least_loaded))
       = (Normal (Ready sample_agent 1700000000000), w').
Proof.
  split; [exact reference_clock_diverges|].
  split; [exact (one_limited_positive_limit least_loaded)|].
  apply (waiting_ends sample_agent 1700000000000 (world_with (one_limited least_loaded))
           reference_clock_diverges (one_limited_positive_limit least_loaded)).
Defined.

Lemma blocked_world_no_limit : no_limit blocked_world.
Proof. intros accountId. destruct accountId; simpl; lia. Defined.

Lemma without_limit_asleep_witness :
  no_limit blocked_world
  /\ exists startTime w',
       (let* wk := execute_begin sample_agent in
        execute_run [Wake; Resume; Reply (answer "exports" 1000); Wake] wk) blocked_world
       = (Normal (Sleeping sample_agent startTime), w').
Proof.
  split; [exact blocked_world_no_limit|].
  apply (without_limit_asleep sample_agent
           [Wake; Resume; Reply (answer "exports" 1000); Wake] blocked_world
           blocked_world_no_limit).
Defined.

Lemma five_entries_parsed :
  JSON_parse (str_or (Some five_subTasks) "[]") = Normal (JArr five_entries).
Proof. vm_compute. reflexivity. Defined.

Lemma five_entries_not_null : (JNull ∉ five_entries) /\ (JUndefined ∉ five_entries).
Proof.
  split; intros H; vm_compute in H;
    repeat (apply elem_of_cons in H as [H|H]; [discriminate|]);
    apply elem_of_nil in H; exact H.
Defined.

Lemma decomposition_maps_entries_witness :
  first_content {| choices := Some [Some five_subTasks]; total_tokens := Some 100 |}
  = Normal (Some five_subTasks)
  /\ JSON_parse (str_or (Some five_subTasks) "[]") = Normal (JArr five_entries)
  /\ (JNull ∉ five_entries) /\ (JUndefined ∉ five_entries)
  /\ exists subTasks w',
       decomposeTask_reply task account1 (answer five_subTasks 100)
         (fresh_world least_loaded)
       = (Normal subTasks, w')
       /\ length subTasks = 5%nat.
Proof.
  split; [reflexivity|]. split; [exact five_entries_parsed|].
  split; [exact (proj1 five_entries_not_null)|].
  split; [exact (proj2 five_entries_not_null)|].
  destruct (decomposition_maps_entries task account1
              {| choices := Some [Some five_subTasks]; total_tokens := Some 100 |}
              (Some five_subTasks) five_entries (fresh_world least_loaded)
              eq_refl five_entries_parsed
              (proj1 five_entries_not_null) (proj2 five_entries_not_null))
    as (subTasks & w' & H & _ & Hlen & _).
  exists subTasks, w'. split; [exact H|]. rewrite Hlen. reflexivity.
Defined.

Lemma sub_tasks_carry_no_context_witness :
  (decomposeTask_reply task account1 (answer five_subTasks 100)
     (fresh_world least_loaded)).1 = Normal five
  /\ Forall (fun t => SubAgentTask.context t = JUndefined) five.
Proof.
  split; [reflexivity|].
  eapply Forall_impl.
  - apply (sub_tasks_carry_no_context task account1 (answer five_subTasks 100)
             (fresh_world least_loaded) five
             (decomposeTask_reply task account1 (answer five_subTasks 100)
                (fresh_world least_loaded)).2).
    vm_compute. reflexivity.
  - intros t H. apply H.
Defined.

Lemma rejected_call_is_not_released_witness :
  in_flight_ok (fresh_world least_loaded)
  /\ exists accountId w1,
       decomposeTask_begin (fresh_world least_loaded) = (Normal accountId, w1)
       /\ activeRequests
            (stats (accounts_get accountId
                      (manager (decomposeTask_reply task accountId outage w1).2)))
          = 1.
Proof.
  split; [exact (fresh_world_in_flight_ok least_loaded)|].
  destruct (rejected_call_is_not_released task [] (fresh_world least_loaded)
              (fresh_world_in_flight_ok least_loaded))
    as (accountId & w1 & Hbegin & _ & Hrejected & _).
  exists accountId, w1. split; [exact Hbegin|].
  unfold outage. rewrite (proj1 (Hrejected (JsError "Error" "Grok API error: 503"))).
  destruct accountId; reflexivity.
Defined.

Lemma synthesis_text_witness :
  first_content {| choices := Some [Some ""]; total_tokens := Some 12 |}
  = Normal (Some "")
  /\ accepts_all
  /\ exists result,
       phase (react (super_agent 5 adaptive) task
                {| startTime := 1700000000000; phase := Aggregating [] account1;
                   world := fresh_world least_loaded |} (Backend empty_answer))
       = Returned result
       /\ TaskResult.success result = true
       /\ TaskResult.result result = "Failed to aggregate results".
Proof.
  split; [reflexivity|]. split; [exact accepting_accepts_all|].
  destruct (proj2 (synthesis_text [] account1
                     {| choices := Some [Some ""]; total_tokens := Some 12 |}
                     (Some "") (fresh_world least_loaded) eq_refl)
              accepting_accepts_all (super_agent 5 adaptive) task 1700000000000)
    as (result & H & Hs & Hr & _).
  exists result. auto.
Defined.

Lemma parallel_keeps_order_witness :
  let st := strategy_run (super_agent 5 parallel) scrambled_events
              (executeParallel (super_agent 5 parallel) five
                 (fresh_world least_loaded)) in
  exists results,
    st.1 = Normal (Fulfilled results)
    /\ map SubAgentResult.taskId results = ["uuid-0"; "uuid-1"; "uuid-2"; "uuid-3"; "uuid-4"]
    /\ map SubAgentResult.taskId results = map SubAgentTask.id five.
Proof.
  intros st.
  destruct (parallel_keeps_order (super_agent 5 parallel) five
              (fresh_world least_loaded) scrambled_events) as (settles & _ & H).
  eexists. split; [vm_compute; reflexivity|]. split; [reflexivity|].
  refine (proj2 (H _ _)). vm_compute. reflexivity.
Defined.

Lemma sequential_runs_in_turn_witness :
  let st := strategy_run (super_agent 5 sequential) events_in_turn
              (executeSequential (super_agent 5 sequential) five
                 (fresh_world least_loaded)) in
  exists results,
    st.1 = Normal (Fulfilled results)
    /\ map SubAgentResult.taskId results = map SubAgentTask.id five
    /\ observed st.2 = in_turn five.
Proof.
  intros st.
  pose proof (proj2 (sequential_runs_in_turn (super_agent 5 sequential) five
                       (fresh_world least_loaded) events_in_turn)) as H.
  eexists. split; [vm_compute; reflexivity|].
  destruct (H _ ltac:(vm_compute; reflexivity)) as [H1 H2].
  split; [exact H1|]. fold st in H2. rewrite H2. apply app_nil_r.
Defined.

Lemma without_limit_no_sub_result_witness :
  no_limit blocked_world
  /\ exists r,
       phase (run (super_agent 5 adaptive) task full_run
                (executeTask (super_agent 5 adaptive) task blocked_world))
       = Executing r
       /\ Forall asleep (workers r).
Proof.
  split; [exact blocked_world_no_limit|].
  eexists. split; [vm_compute; reflexivity|].
  apply (proj1 (without_limit_no_sub_result (super_agent 5 adaptive) task blocked_world
                  full_run blocked_world_no_limit)).
  vm_compute. reflexivity.
Defined.

Lemma no_sub_agent_is_left_witness :
  let c := run (super_agent 5 adaptive) task full_run
             (executeTask (super_agent 5 adaptive) task (fresh_world least_loaded)) in
  activeSubAgents (fresh_world least_loaded) = ∅
  /\ exists result,
       phase c = Returned result
       /\ TaskResult.success result = true
       /\ getActiveSubAgentsCount (world c) = (Normal 0%nat, world c).
Proof.
  intros c. split; [reflexivity|].
  eexists. split; [vm_compute; reflexivity|]. split; [reflexivity|].
  eapply (proj2 (proj2 (no_sub_agent_is_left (super_agent 5 adaptive) task
                          (fresh_world least_loaded) full_run eq_refl))).
  - vm_compute. reflexivity.
  - reflexivity.
Defined.

Lemma sub_agent_status_matches_result_witness :
  accepts_status_updates
  /\ exists r w' rows,
       execute_reply sample_agent 1700000000000 account2 "grok-3-fast" outage
         (fresh_world least_loaded)
       = (Normal r, w')
       /\ database w'
          = updateAgentStatus "sub" (status_of (SubAgentResult.success r))
              (if SubAgentResult.success r then SubAgentResult.result r
               else default "" (SubAgentResult.error r))
            :: rows.
Proof.
  split; [exact accepting_accepts_status_updates|].
  apply (sub_agent_status_matches_result sample_agent 1700000000000 account2
           "grok-3-fast" outage (fresh_world least_loaded)
           accepting_accepts_status_updates).
Defined.


Lemma requests_of_a_task_witness :
  let c := run (super_agent 5 adaptive) task full_run
             (executeTask (super_agent 5 adaptive) task (fresh_world least_loaded)) in
  exists r after,
    phase c = Returned r
    /\ TaskResult.success r = true
    /\ length (TaskResult.subResults r) = 5%nat
    /\ getAllStats (world c) = (Normal after, world c)
    /\ Combined.totalRequests (AllStats.combined after) = 7.
Proof.
  intros c. eexists.
  match goal with
  | |- exists after, ?P /\ _ => assert P as Hph by (vm_compute; reflexivity)
  end.
  destruct (requests_of_a_task (super_agent 5 adaptive) task (fresh_world least_loaded)
              full_run _ Hph eq_refl)
    as (before & after & Hb & Ha & Hn).
  exists after. split; [exact Hph|]. split; [reflexivity|].
  split; [reflexivity|]. split; [exact Ha|].
  injection Hb as <-. rewrite Hn. reflexivity.
Defined.

Lemma without_history_only_sub_agent_rows_witness :
  SuperAgentConfig.saveHistory (SuperAgent.config (silent_agent adaptive)) = false
  /\ exists new,
       database (world (run (silent_agent adaptive) task full_run
                          (executeTask (silent_agent adaptive) task
                             (fresh_world least_loaded))))
       = new
       /\ Forall no_history new.
Proof.
  split; [reflexivity|].
  destruct (without_history_only_sub_agent_rows (silent_agent adaptive) task
              (fresh_world least_loaded) full_run eq_refl) as (new & H & HP).
  exists new. split; [rewrite H; apply app_nil_r | exact HP].
Defined.

End More_runs.

(** A run with a persistence layer that refuses the rows of answers. *)
Section Refused_runs.
Import Reference.
#[local] Existing Instance refusing_answers.

Lemma refusing_answers_accepts_status_updates : accepts_status_updates.
Proof. intros rows id status result. reflexivity. Defined.

Lemma refused_answer_releases_twice_witness :
  accepts_status_updates
  /\ exists r w',
       execute_reply sample_agent 1700000000000 account2 "grok-3-fast"
         (answer "exports" 1000) (fresh_world least_loaded)
       = (Normal r, w')
       /\ SubAgentResult.success r = false
       /\ SubAgentResult.tokensUsed r = 0
       /\ SubAgentResult.error r = Some "database is locked"
       /\ totalTokens (stats (acct2 (manager w'))) = 1000.
Proof.
  split; [exact refusing_answers_accepts_status_updates|].
  destruct (refused_answer_releases_twice sample_agent 1700000000000 account2
              "grok-3-fast"
              {| choices := Some [Some "exports"]; total_tokens := Some 1000 |}
              (Some "exports") (JsError "SqliteError" "database is locked")
              (fresh_world least_loaded)
              refusing_answers_accepts_status_updates eq_refl eq_refl)
    as (finished & w' & H & Hm).
  eexists _, w'. split; [exact H|]. simpl. rewrite Hm. repeat split; reflexivity.
Defined.

End Refused_runs.
